(** * Verification of the table shuffler (modules/graph/utils/table_shuffler_beta.h)

    A shallow embedding of the columnar codec, the row selector, the schema
    barrier, the shuffle engine and the vertex and edge routers, followed by
    the properties claimed for them.

    Conventions.
    - [int64_t] row indices, counts and worker ids are [Z]; [grape::fid_t]
      (an unsigned index into vectors) is [nat].
    - A [grape::InArchive] is the list of bytes written so far, a
      [grape::OutArchive] the list of bytes still to be read.  Plain values
      are copied byte by byte in little-endian order.
    - Undefined behaviour, [LOG(FATAL)] and a failed [ARROW_CHECK_OK] are
      [None]. *)

From Stdlib Require Import ZArith Lia List Permutation Sorted String.
From coqutil Require Import Byte Word.LittleEndianList.
From stdpp Require Import base option list strings.
Import ListNotations.
Local Open Scope Z_scope.

(** ** Logical types and arrays of the columnar library *)

Inductive PrimType := Float64 | Float32 | Int64 | Int32 | UInt64 | UInt32.

(** [Other] stands for every type outside the closed set the dispatchers
    know (the final [else] branch of each of them). *)
Inductive DataType :=
| Prim (p : PrimType)
| LargeUtf8
| Null
| LargeList (p : PrimType)
| Other (name : string).

#[global] Instance PrimType_eq_dec : EqDecision PrimType.
Proof. solve_decision. Defined.
#[global] Instance DataType_eq_dec : EqDecision DataType.
Proof. solve_decision. Defined.

(** [sizeof(T)] in bytes. *)
Definition sizeof (p : PrimType) : nat :=
  match p with
  | Float64 | Int64 | UInt64 => 8
  | Float32 | Int32 | UInt32 => 4
  end.

Definition is_signed (p : PrimType) : bool :=
  match p with
  | Int64 | Int32 => true
  | _ => false
  end.

(** A value of a primitive type: a signed integer for [Int64]/[Int32], the
    unsigned integer for [UInt64]/[UInt32], the bit pattern for the floats. *)
Definition in_range (p : PrimType) (v : Z) : Prop :=
  if is_signed p
  then - 2 ^ (Z.of_nat (sizeof p) * 8 - 1) <= v < 2 ^ (Z.of_nat (sizeof p) * 8 - 1)
  else 0 <= v < 2 ^ (Z.of_nat (sizeof p) * 8).

(** A slot of an array: the validity bit and the stored value.  The value
    buffer holds a value also where the validity bit is cleared. *)
Abbreviation Slot A := (bool * A)%type (only parsing).

Inductive Array :=
| NumericArray (p : PrimType) (slots : list (Slot Z))
| LargeStringArray (slots : list (Slot (list byte)))
| NullArray (len : nat)
| LargeListArray (p : PrimType) (slots : list (Slot (list (Slot Z))))
| OtherArray (name : string) (len : nat).

Definition array_type (a : Array) : DataType :=
  match a with
  | NumericArray p _ => Prim p
  | LargeStringArray _ => LargeUtf8
  | NullArray _ => Null
  | LargeListArray p _ => LargeList p
  | OtherArray name _ => Other name
  end.

Definition array_length (a : Array) : Z :=
  match a with
  | NumericArray _ s => Z.of_nat (length s)
  | LargeStringArray s => Z.of_nat (length s)
  | NullArray n => Z.of_nat n
  | LargeListArray _ s => Z.of_nat (length s)
  | OtherArray _ n => Z.of_nat n
  end.

(** [v[x]] for a signed index: out of range is undefined behaviour. *)
Definition index {A} (l : list A) (x : Z) : option A :=
  if decide (0 <= x) then l !! Z.to_nat x else None.
#[global] Arguments index {A} l x : simpl never.

(** [std::dynamic_pointer_cast<NumericArray<T>>(array)->raw_values()] *)
Definition raw_values (p : PrimType) (a : Array) : option (list Z) :=
  match a with
  | NumericArray p' s => if decide (p' = p) then Some (snd <$> s) else None
  | _ => None
  end.

(** [LargeStringArray::GetView(x)] *)
Definition GetView (a : Array) (x : Z) : option (list byte) :=
  match a with
  | LargeStringArray s => snd <$> index s x
  | _ => None
  end.

(** [LargeListArray::value_length(x)] and [value_slice(x)] *)
Definition value_slice (a : Array) (x : Z) : option (list (Slot Z)) :=
  match a with
  | LargeListArray _ s => snd <$> index s x
  | _ => None
  end.

Definition value_length (a : Array) (x : Z) : option Z :=
  (fun l => Z.of_nat (length l)) <$> value_slice a x.

(** ** Builders of the columnar library *)

(** A list builder keeps its child builder and, for every list slot started
    with [Append], the validity bit and the length the child builder had at
    that moment (the slot's first offset).  [Finish] closes the last slot at
    the child's final length. *)
Inductive ArrayBuilder :=
| NumericBuilder (p : PrimType) (slots : list (Slot Z))
| LargeStringBuilder (slots : list (Slot (list byte)))
| NullBuilder (len : nat)
| LargeListBuilder (p : PrimType) (values : list (Slot Z)) (starts : list (Slot nat))
| OtherBuilder (name : string).

Definition builder_type (b : ArrayBuilder) : DataType :=
  match b with
  | NumericBuilder p _ => Prim p
  | LargeStringBuilder _ => LargeUtf8
  | NullBuilder _ => Null
  | LargeListBuilder p _ _ => LargeList p
  | OtherBuilder name => Other name
  end.

Definition MakeBuilder (t : DataType) : ArrayBuilder :=
  match t with
  | Prim p => NumericBuilder p []
  | LargeUtf8 => LargeStringBuilder []
  | Null => NullBuilder 0
  | LargeList p => LargeListBuilder p [] []
  | Other name => OtherBuilder name
  end.

(** The list slots described by the recorded first offsets: slot [i] runs from
    its own first offset to the next slot's, the last one to [stop]. *)
Fixpoint list_slots (values : list (Slot Z)) (starts : list (Slot nat)) (stop : nat)
  : list (Slot (list (Slot Z))) :=
  match starts with
  | [] => []
  | (v, s) :: rest =>
      let e := match rest with [] => stop | (_, s') :: _ => s' end in
      (v, take (e - s) (drop s values)) :: list_slots values rest stop
  end.

Definition Finish (b : ArrayBuilder) : Array :=
  match b with
  | NumericBuilder p s => NumericArray p s
  | LargeStringBuilder s => LargeStringArray s
  | NullBuilder n => NullArray n
  | LargeListBuilder p values starts =>
      LargeListArray p (list_slots values starts (length values))
  | OtherBuilder name => OtherArray name 0
  end.

(** ** Archives (grape::InArchive, grape::OutArchive) *)

Abbreviation InArchive := (list byte) (only parsing).
Abbreviation OutArchive := (list byte) (only parsing).

(** State-passing loops.  [for_each] is a range-[for] whose body may fail;
    [repeat_n] is [for (int64_t i = 0; i != num; ++i)], which never reaches
    its exit when [num] is negative. *)
Fixpoint for_each {St A} (body : St -> A -> option St) (s : St) (l : list A) : option St :=
  match l with
  | [] => Some s
  | x :: l' => s' ← body s x; for_each body s' l'
  end.

Fixpoint iterate {St} (n : nat) (body : St -> option St) (s : St) : option St :=
  match n with
  | O => Some s
  | S n' => s' ← body s; iterate n' body s'
  end.

Definition repeat_n {St} (num : Z) (body : St -> option St) (s : St) : option St :=
  if decide (0 <= num) then iterate (Z.to_nat num) body s else None.

(** The value of type [T] stored in [sizeof(T)] bytes. *)
Definition pod_of_bytes (p : PrimType) (bs : list byte) : Z :=
  let u := le_combine bs in
  if is_signed p && (2 ^ (Z.of_nat (sizeof p) * 8 - 1) <=? u)
  then u - 2 ^ (Z.of_nat (sizeof p) * 8)
  else u.

(** [arc << val] and [arc >> val] for a plain value of type [T]. *)
Definition put_pod (p : PrimType) (arc : InArchive) (v : Z) : InArchive :=
  arc ++ le_split (sizeof p) v.

Definition GetBytes (arc : OutArchive) (n : nat) : option (list byte * OutArchive) :=
  if decide (n <= length arc)%nat then Some (take n arc, drop n arc) else None.

Definition get_pod (p : PrimType) (arc : OutArchive) : option (Z * OutArchive) :=
  '(bs, arc') ← GetBytes arc (sizeof p); Some (pod_of_bytes p bs, arc').

(** [operator<<(InArchive&, const string_view&)]: the length as a [size_t],
    then the bytes. *)
Definition put_string_view (arc : InArchive) (val : list byte) : InArchive :=
  put_pod UInt64 arc (Z.of_nat (length val)) ++ val.

(** [operator>>(OutArchive&, string_view&)] *)
Definition get_string_view (arc : OutArchive) : option (list byte * OutArchive) :=
  '(len, arc') ← get_pod UInt64 arc; GetBytes arc' (Z.to_nat len).

(** ** Codec: serialization *)

(** [serialize_selected_typed_items<T>(arc, array)]: the whole array. *)
Definition serialize_typed_items (p : PrimType) (arc : InArchive) (values : list (Slot Z))
  : InArchive :=
  foldl (fun arc v => put_pod p arc v) arc (snd <$> values).

(** [serialize_selected_typed_items<T>(arc, array, offset)] *)
Definition serialize_selected_typed_items (p : PrimType) (arc : InArchive)
    (array : Array) (offset : list Z) : option InArchive :=
  ptr ← raw_values p array;
  for_each (fun arc x => v ← index ptr x; Some (put_pod p arc v)) arc offset.

Definition serialize_string_items (arc : InArchive) (array : Array) (offset : list Z)
  : option InArchive :=
  for_each (fun arc x => v ← GetView array x; Some (put_string_view arc v)) arc offset.

Definition serialize_null_items (arc : InArchive) (array : Array) (offset : list Z)
  : option InArchive :=
  Some arc.

Definition serialize_list_items (p : PrimType) (arc : InArchive) (array : Array)
    (offset : list Z) : option InArchive :=
  for_each (fun arc x =>
              len ← value_length array x;
              value ← value_slice array x;
              Some (serialize_typed_items p (put_pod Int64 arc len) value))
           arc offset.

Definition SerializeSelectedItems (arc : InArchive) (array : Array) (offset : list Z)
  : option InArchive :=
  match array_type array with
  | Prim p => serialize_selected_typed_items p arc array offset
  | LargeUtf8 => serialize_string_items arc array offset
  | Null => serialize_null_items arc array offset
  | LargeList p => serialize_list_items p arc array offset
  | Other _ => None
  end.

(** ** Record batches *)

Record Field := { field_name : string; field_type : DataType }.

#[global] Instance Field_eq_dec : EqDecision Field.
Proof. solve_decision. Defined.

Abbreviation Schema := (list Field) (only parsing).

Record RecordBatch := {
  schema : Schema;
  num_rows : Z;
  columns : list Array
}.

Definition num_columns (rb : RecordBatch) : nat := length (schema rb).

(** The body of the column loop of [SerializeSelectedRows]. *)
Definition serialize_column (record_batch : RecordBatch) (offset : list Z)
    (arc : InArchive) (col_id : nat) : option InArchive :=
  col ← columns record_batch !! col_id;
  SerializeSelectedItems arc col offset.

Definition SerializeSelectedRows (arc : InArchive) (record_batch : RecordBatch)
    (offset : list Z) : option InArchive :=
  let col_num := num_columns record_batch in
  let arc := put_pod Int64 arc (Z.of_nat (length offset)) in
  for_each (serialize_column record_batch offset) arc (seq 0 col_num).

(** ** Codec: deserialization *)

(** Builder operations.  A cast to the wrong builder class yields a null
    pointer, whose use is [None]. *)
Definition Append (p : PrimType) (b : ArrayBuilder) (val : Z) : option ArrayBuilder :=
  match b with
  | NumericBuilder p' s => if decide (p' = p) then Some (NumericBuilder p' (s ++ [(true, val)])) else None
  | _ => None
  end.

Definition AppendString (b : ArrayBuilder) (val : list byte) : option ArrayBuilder :=
  match b with
  | LargeStringBuilder s => Some (LargeStringBuilder (s ++ [(true, val)]))
  | _ => None
  end.

(** [NullBuilder::AppendNulls(num)]; a negative count is refused and the
    callers ignore the returned status. *)
Definition AppendNulls (b : ArrayBuilder) (num : Z) : option ArrayBuilder :=
  match b with
  | NullBuilder n => Some (NullBuilder (if decide (0 <= num) then n + Z.to_nat num else n))
  | _ => None
  end.

(** [LargeListBuilder::Append(is_valid)] starts a new list slot at the
    current length of the child builder. *)
Definition AppendList (is_valid : bool) (b : ArrayBuilder) : option ArrayBuilder :=
  match b with
  | LargeListBuilder p values starts =>
      Some (LargeListBuilder p values (starts ++ [(is_valid, length values)]))
  | _ => None
  end.

(** [casted_builder->value_builder()], as the numeric builder it is. *)
Definition value_builder (b : ArrayBuilder) : option ArrayBuilder :=
  match b with
  | LargeListBuilder p values _ => Some (NumericBuilder p values)
  | _ => None
  end.

(** Writing the child builder back into the list builder that owns it. *)
Definition with_value_builder (b child : ArrayBuilder) : option ArrayBuilder :=
  match b, child with
  | LargeListBuilder p _ starts, NumericBuilder p' values =>
      if decide (p' = p) then Some (LargeListBuilder p values starts) else None
  | _, _ => None
  end.

Definition deserialize_selected_typed_items (p : PrimType) (num : Z)
    (st : OutArchive * ArrayBuilder) : option (OutArchive * ArrayBuilder) :=
  repeat_n num (fun '(arc, builder) =>
                  '(val, arc') ← get_pod p arc;
                  builder' ← Append p builder val;
                  Some (arc', builder')) st.

Definition deserialize_string_items (num : Z) (st : OutArchive * ArrayBuilder)
  : option (OutArchive * ArrayBuilder) :=
  repeat_n num (fun '(arc, builder) =>
                  '(val, arc') ← get_string_view arc;
                  builder' ← AppendString builder val;
                  Some (arc', builder')) st.

Definition deserialize_null_items (num : Z) (st : OutArchive * ArrayBuilder)
  : option (OutArchive * ArrayBuilder) :=
  let '(arc, builder) := st in
  builder' ← AppendNulls builder num; Some (arc, builder').

Definition deserialize_list_items (p : PrimType) (num : Z)
    (st : OutArchive * ArrayBuilder) : option (OutArchive * ArrayBuilder) :=
  repeat_n num (fun '(arc, builder) =>
                  child ← value_builder builder;
                  '(len, arc1) ← get_pod Int64 arc;
                  '(arc2, child') ← deserialize_selected_typed_items p len (arc1, child);
                  builder1 ← with_value_builder builder child';
                  builder2 ← AppendList true builder1;
                  Some (arc2, builder2)) st.

Definition DeserializeSelectedItems (num : Z) (st : OutArchive * ArrayBuilder)
  : option (OutArchive * ArrayBuilder) :=
  match builder_type (snd st) with
  | Prim p => deserialize_selected_typed_items p num st
  | LargeUtf8 => deserialize_string_items num st
  | Null => deserialize_null_items num st
  | LargeList p => deserialize_list_items p num st
  | Other _ => None
  end.

(** [RecordBatchBuilder::Make(schema, pool, capacity, &builder)]: one builder
    per field; reserving a negative capacity fails. *)
Definition RecordBatchBuilder_Make (s : Schema) (capacity : Z)
  : option (list ArrayBuilder) :=
  if decide (0 <= capacity) then Some (MakeBuilder ∘ field_type <$> s) else None.

(** [RecordBatchBuilder::Flush]: finishes every field, refuses fields of
    different lengths, and takes the row count from the fields (zero when
    there is none).  The builders are made from the schema, so the finished
    fields have the types of its fields and the schema is kept as it is. *)
Definition same_length (fields : list Array) : bool :=
  match fields with
  | [] => true
  | f :: rest => forallb (fun g => array_length g =? array_length f) rest
  end.

Definition Flush (s : Schema) (builders : list ArrayBuilder) : option RecordBatch :=
  let fields := Finish <$> builders in
  if same_length fields
  then Some {| schema := s;
               num_rows := from_option array_length 0 (last fields);
               columns := fields |}
  else None.

(** The body of the column loop of [DeserializeSelectedRows]. *)
Definition deserialize_column (row_num : Z) (st : OutArchive * list ArrayBuilder)
    (col_id : nat) : option (OutArchive * list ArrayBuilder) :=
  let '(arc, builder) := st in
  field ← builder !! col_id;
  '(arc', field') ← DeserializeSelectedItems row_num (arc, field);
  Some (arc', <[col_id := field']> builder).

Definition DeserializeSelectedRows (arc : OutArchive) (s : Schema)
  : option (OutArchive * RecordBatch) :=
  '(row_num, arc) ← get_pod Int64 arc;
  builder ← RecordBatchBuilder_Make s row_num;
  let col_num := length builder in
  '(arc, builder) ←
    for_each (deserialize_column row_num) (arc, builder) (seq 0 col_num);
  batch_out ← Flush s builder;
  Some (arc, batch_out).

(** ** Row selector *)

(** [select_typed_items<T>(array, builder)]: [AppendValues] of the whole
    array, every slot valid. *)
Definition select_typed_items (p : PrimType) (values : list (Slot Z)) (b : ArrayBuilder)
  : option ArrayBuilder :=
  match b with
  | NumericBuilder p' s =>
      if decide (p' = p) then Some (NumericBuilder p' (s ++ ((fun v => (true, snd v)) <$> values)))
      else None
  | _ => None
  end.

Definition select_selected_typed_items (p : PrimType) (array : Array) (offset : list Z)
    (builder : ArrayBuilder) : option ArrayBuilder :=
  ptr ← raw_values p array;
  for_each (fun builder x => v ← index ptr x; Append p builder v) builder offset.

Definition select_string_items (array : Array) (offset : list Z) (builder : ArrayBuilder)
  : option ArrayBuilder :=
  for_each (fun builder x => v ← GetView array x; AppendString builder v) builder offset.

Definition select_null_items (array : Array) (offset : list Z) (builder : ArrayBuilder)
  : option ArrayBuilder :=
  AppendNulls builder (Z.of_nat (length offset)).

Definition select_list_items (p : PrimType) (array : Array) (offset : list Z)
    (builder : ArrayBuilder) : option ArrayBuilder :=
  for_each (fun builder x =>
              child ← value_builder builder;
              value ← value_slice array x;
              child' ← select_typed_items p value child;
              builder1 ← with_value_builder builder child';
              AppendList true builder1)
           builder offset.

Definition SelectItems (array : Array) (offset : list Z) (builder : ArrayBuilder)
  : option ArrayBuilder :=
  match array_type array with
  | Prim p => select_selected_typed_items p array offset builder
  | LargeUtf8 => select_string_items array offset builder
  | Null => select_null_items array offset builder
  | LargeList p => select_list_items p array offset builder
  | Other _ => None
  end.

(** The body of the column loop of [SelectRows]. *)
Definition select_column (record_batch_in : RecordBatch) (offset : list Z)
    (builder : list ArrayBuilder) (col_id : nat) : option (list ArrayBuilder) :=
  col ← columns record_batch_in !! col_id;
  field ← builder !! col_id;
  field' ← SelectItems col offset field;
  Some (<[col_id := field']> builder).

Definition SelectRows (record_batch_in : RecordBatch) (offset : list Z)
  : option RecordBatch :=
  let row_num := Z.of_nat (length offset) in
  builder ← RecordBatchBuilder_Make (schema record_batch_in) row_num;
  let col_num := length builder in
  builder ←
    for_each (select_column record_batch_in offset) builder (seq 0 col_num);
  Flush (schema record_batch_in) builder.

(** ** The wire encoding as the specification words it

    Per row: a numeric value is its raw little-endian bytes; a string is its
    length as a machine-width count followed by its bytes; a null is nothing;
    a list is its length as a signed 64-bit count followed by that many raw
    element values. *)

Definition wire_pods (p : PrimType) (vs : list Z) : list byte :=
  concat (le_split (sizeof p) <$> vs).

Definition wire_string (s : list byte) : list byte :=
  le_split 8 (Z.of_nat (length s)) ++ s.

Definition wire_list (p : PrimType) (l : list (Slot Z)) : list byte :=
  le_split 8 (Z.of_nat (length l)) ++ wire_pods p (snd <$> l).

#[global] Arguments wire_pods p vs : simpl never.
#[global] Arguments wire_string s : simpl never.
#[global] Arguments wire_list p l : simpl never.

Definition wire_column (a : Array) : list byte :=
  match a with
  | NumericArray p s => wire_pods p (snd <$> s)
  | LargeStringArray s => concat (wire_string ∘ snd <$> s)
  | NullArray _ => []
  | LargeListArray p s => concat (wire_list p ∘ snd <$> s)
  | OtherArray _ _ => []
  end.

(** The rows of an array at the given offsets, in the order of the offsets. *)
Definition take_rows (a : Array) (offset : list Z) : option Array :=
  match a with
  | NumericArray p s => NumericArray p <$> mapM (index s) offset
  | LargeStringArray s => LargeStringArray <$> mapM (index s) offset
  | NullArray n => Some (NullArray (length offset))
  | LargeListArray p s => LargeListArray p <$> mapM (index s) offset
  | OtherArray name n => Some (OtherArray name (length offset))
  end.


(** ** Well-formed data *)

Definition supported (t : DataType) : Prop :=
  match t with
  | Other _ => False
  | _ => True
  end.

#[global] Instance supported_dec (t : DataType) : Decision (supported t).
Proof. destruct t; simpl; apply _. Defined.

(** The values fit their C++ types: numeric values are in the range of the
    element type, string and list lengths in that of the 64-bit offsets. *)
Definition wf_array (a : Array) : Prop :=
  match a with
  | NumericArray p s => Forall (fun c => in_range p (snd c)) s
  | LargeStringArray s => Forall (fun c => Z.of_nat (length (snd c)) < 2 ^ 63) s
  | NullArray _ => True
  | LargeListArray p s =>
      Forall (fun c => Z.of_nat (length (snd c)) < 2 ^ 63
                       /\ Forall (fun e => in_range p (snd e)) (snd c)) s
  | OtherArray _ _ => True
  end.

(** A record batch is bound to its schema: one column per field, of the
    field's type and of the batch's row count. *)
Record conforms (rb : RecordBatch) : Prop := {
  conforms_types : array_type <$> columns rb = field_type <$> schema rb;
  conforms_rows : Forall (fun a => array_length a = num_rows rb) (columns rb);
  conforms_values : Forall wf_array (columns rb);
  conforms_count : 0 <= num_rows rb < 2 ^ 63
}.

Definition valid_offsets (rb : RecordBatch) (offset : list Z) : Prop :=
  Forall (fun x => 0 <= x < num_rows rb) offset.

(** The state of a list builder after the rows [sel] went through the
    selector or the deserializer: the element values of each row are
    appended to the child builder, then a list slot is started. *)
Definition append_lists (sel : list (Slot (list (Slot Z))))
    (st : list (Slot Z) * list (Slot nat)) : list (Slot Z) * list (Slot nat) :=
  foldl (fun st c =>
           let values' := st.1 ++ ((fun e => (true, snd e)) <$> snd c) in
           (values', st.2 ++ [(true, length values')]))
        st sel.

(** The state of a column builder after the rows [sel] went through the
    selector or the deserializer. *)
Definition append_rows (b : ArrayBuilder) (sel : Array) : ArrayBuilder :=
  match b, sel with
  | NumericBuilder p b0, NumericArray _ sl =>
      NumericBuilder p (b0 ++ ((fun c => (true, snd c)) <$> sl))
  | LargeStringBuilder b0, LargeStringArray sl =>
      LargeStringBuilder (b0 ++ ((fun c => (true, snd c)) <$> sl))
  | NullBuilder n, NullArray m => NullBuilder (n + m)
  | LargeListBuilder p values starts, LargeListArray _ sl =>
      LargeListBuilder p (append_lists sl (values, starts)).1
                         (append_lists sl (values, starts)).2
  | _, _ => b
  end.

(** Columns still to go through a column loop, the builders they go to and
    the rows picked from them. *)
Definition aligned (offset : list Z) (cols : list Array) (bs : list ArrayBuilder)
    (sels : list Array) : Prop :=
  Forall2 (fun a b => supported (array_type a) /\ builder_type b = array_type a) cols bs
  /\ Forall2 (fun a sel => take_rows a offset = Some sel /\ wf_array sel) cols sels.

(** What a fresh builder of the column's type yields after the rows [sel]
    were appended to it. *)
Definition rebuilt (sel : Array) : Array :=
  Finish (append_rows (MakeBuilder (array_type sel)) sel).

(** The first offsets a list builder records for the rows [sel] when its
    child builder already holds [n] values: each row's offset is taken after
    the row's own values went in. *)
Fixpoint recorded_starts (n : nat) (sel : list (Slot (list (Slot Z)))) : list (Slot nat) :=
  match sel with
  | [] => []
  | c :: rest =>
      (true, (n + length (snd c))%nat) :: recorded_starts (n + length (snd c))%nat rest
  end.

(** The list slots a fresh list builder finishes with after the rows [sel]:
    every slot holds the values of the row after it, the last one none. *)
Definition shifted_lists (sel : list (Slot (list (Slot Z)))) : list (Slot (list (Slot Z))) :=
  match sel with
  | [] => []
  | _ :: rest =>
      ((fun c : Slot (list (Slot Z)) => (true, (fun e : Slot Z => (true, snd e)) <$> snd c))
         <$> rest) ++ [(true, [])]
  end.

(** The batch a fresh record-batch builder flushes after the rows [sels]
    were appended column by column. *)
Definition rebuilt_batch (s : Schema) (sels : list Array) : RecordBatch :=
  {| schema := s;
     num_rows := from_option array_length 0 (last (rebuilt <$> sels));
     columns := rebuilt <$> sels |}.

(** The offsets of all rows of a batch of [n] rows, in order. *)
Definition all_rows (n : Z) : list Z := Z.of_nat <$> seq 0 (Z.to_nat n).

(** Column types without a child builder. *)
Definition flat (t : DataType) : Prop :=
  match t with
  | Prim _ | LargeUtf8 | Null => True
  | _ => False
  end.

(** No slot of the array has its validity bit cleared. *)
Definition no_nulls (a : Array) : Prop :=
  match a with
  | NumericArray _ s => Forall (fun c => fst c = true) s
  | LargeStringArray s => Forall (fun c => fst c = true) s
  | NullArray _ => True
  | LargeListArray _ s =>
      Forall (fun c => fst c = true /\ Forall (fun e => fst e = true) (snd c)) s
  | OtherArray _ _ => True
  end.

(** The array with every validity bit set, the values as they are. *)
Definition all_valid (a : Array) : Array :=
  match a with
  | NumericArray p s => NumericArray p ((fun c => (true, snd c)) <$> s)
  | LargeStringArray s => LargeStringArray ((fun c => (true, snd c)) <$> s)
  | NullArray n => NullArray n
  | LargeListArray p s =>
      LargeListArray p
        ((fun c : Slot (list (Slot Z)) => (true, (fun e : Slot Z => (true, snd e)) <$> snd c))
           <$> s)
  | OtherArray name n => OtherArray name n
  end.

(** Sample data: a four-column batch with a cleared validity bit in its
    first column, and the one-row list batch of the large-list scenario. *)
Definition sample_schema : Schema :=
  [ {| field_name := "id"; field_type := Prim Int64 |};
    {| field_name := "l"; field_type := LargeList Int32 |};
    {| field_name := "s"; field_type := LargeUtf8 |};
    {| field_name := "n"; field_type := Null |} ].

Definition sample_batch : RecordBatch :=
  {| schema := sample_schema;
     num_rows := 2;
     columns := [ NumericArray Int64 [(true, 10); (false, -3)];
                  LargeListArray Int32 [(true, [(true, 7); (true, 8); (true, 9)]);
                                        (true, [(true, 1)])];
                  LargeStringArray [(true, [Byte.x61]); (true, [])];
                  NullArray 2 ] |}.

Definition list_schema : Schema :=
  [ {| field_name := "l"; field_type := LargeList Int32 |} ].

Definition list_batch : RecordBatch :=
  {| schema := list_schema;
     num_rows := 1;
     columns := [ LargeListArray Int32 [(true, [(true, 7); (true, 8); (true, 9)])] ] |}.

(** A one-column batch whose second slot has its validity bit cleared, and
    a batch of three rows without any column. *)
Definition null_slot_batch : RecordBatch :=
  {| schema := [ {| field_name := "id"; field_type := Prim Int64 |} ];
     num_rows := 2;
     columns := [ NumericArray Int64 [(true, 10); (false, -3)] ] |}.

Definition no_column_batch : RecordBatch :=
  {| schema := []; num_rows := 3; columns := [] |}.

(** A batch over the flat types without cleared validity bits. *)
Definition flat_batch : RecordBatch :=
  {| schema := [ {| field_name := "id"; field_type := Prim Int64 |};
                 {| field_name := "w"; field_type := Prim Float64 |};
                 {| field_name := "s"; field_type := LargeUtf8 |};
                 {| field_name := "n"; field_type := Null |} ];
     num_rows := 2;
     columns := [ NumericArray Int64 [(true, 10); (true, -20)];
                  NumericArray Float64 [(true, 4609434218613702656);
                                        (true, 4612811918334230528)];
                  LargeStringArray [(true, [Byte.x61]); (true, [Byte.x62; Byte.x63])];
                  NullArray 2 ] |}.

(** The round trip of the codec over all rows of a batch. *)
Definition round_trip (rb : RecordBatch) : option (OutArchive * RecordBatch) :=
  arc ← SerializeSelectedRows [] rb (all_rows (num_rows rb));
  DeserializeSelectedRows arc (schema rb).

(** ** Communication spec and thread budget *)

(** [grape::CommSpec]: the worker's place in the group.  Fragments and
    workers are numbered alike: [WorkerToFrag] and [FragToWorker] are
    casts. *)
Record CommSpec := {
  worker_id : Z;
  worker_num : Z;
  local_num : Z;
  fnum : nat;
  fid : nat
}.

Definition WorkerToFrag (worker : Z) : nat := Z.to_nat worker.
Definition FragToWorker (f : nat) : Z := Z.of_nat f.

(** Conversions of C++: to [unsigned int] and from [unsigned int] to [int]. *)
Definition to_unsigned (z : Z) : Z := z mod 2 ^ 32.
Definition to_int (z : Z) : Z :=
  let u := z mod 2 ^ 32 in if 2 ^ 31 <=? u then u - 2 ^ 32 else u.

(** [(std::thread::hardware_concurrency() + comm_spec.local_num() - 1) /
     comm_spec.local_num()], computed in [unsigned int] and stored in an
    [int]. *)
Definition thread_num (hardware_concurrency local : Z) : Z :=
  to_int (to_unsigned (to_unsigned (hardware_concurrency + to_unsigned local) - 1)
          / to_unsigned local).

(** [std::max(1, (thread_num - 2) / 2)]; [int] division truncates. *)
Definition deserialize_thread_num (thread_num : Z) : Z :=
  Z.max 1 ((thread_num - 2) ÷ 2).

(** [std::max(1, thread_num - 2 - deserialize_thread_num)] *)
Definition serialize_thread_num (thread_num : Z) : Z :=
  Z.max 1 (thread_num - 2 - deserialize_thread_num thread_num).

(** The thread budget and pool split in the words of the specification:
    the budget is the rounded-up quotient and at least 3, the serializer
    pool gets [max(1, (T-2)/2)] and the deserializer pool the rest. *)
Definition spec_thread_budget (hardware_concurrency local : Z) : Prop :=
  let T := thread_num hardware_concurrency local in
  let S := serialize_thread_num T in
  let D := deserialize_thread_num T in
  (T - 1) * local < hardware_concurrency <= T * local
  /\ 3 <= T
  /\ S = Z.max 1 ((T - 2) ÷ 2)
  /\ D = Z.max 1 (T - 2 - S).

(** ** Routers: the scan of one batch *)

(** [offset_list.resize(fnum)] on the empty vector of a new batch. *)
Definition resize (n : nat) : list (list Z) := replicate n [].

(** [offset_list[fid].push_back(row_id)] *)
Definition push_back (offset_list : list (list Z)) (f : nat) (row_id : Z)
  : option (list (list Z)) :=
  l ← offset_list !! f; Some (<[f := l ++ [row_id]]> offset_list).

(** A vertex key as the partitioner sees it. *)
Inductive Oid := OidInt (v : Z) | OidString (s : list byte).

(** [std::dynamic_pointer_cast<oid_array_type>(column)->GetView(row_id)] *)
Definition oid_view (oid_type : DataType) (a : Array) (row_id : Z) : option Oid :=
  if decide (array_type a = oid_type)
  then match a with
       | NumericArray _ s => OidInt ∘ snd <$> index s row_id
       | LargeStringArray s => OidString ∘ snd <$> index s row_id
       | _ => None
       end
  else None.

Section Routers.
(** The key type and the partitioner of the vertex router; the id type and
    the id parser of the edge router. *)
Variable oid_type : DataType.
Variable GetPartitionId : Oid -> nat.
Variable vid_type : PrimType.
Variable GetFid : Z -> nat.

(** The fragment of the row [row_id] of the key column. *)
Definition vertex_fid (id_col : Array) (row_id : Z) : option nat :=
  rs ← oid_view oid_type id_col row_id;
  Some (GetPartitionId rs).

(** The body of the row loop of [ShufflePropertyVertexTable]. *)
Definition scan_vertex_row (id_col : Array) (offset_list : list (list Z))
    (row_id : Z) : option (list (list Z)) :=
  f ← vertex_fid id_col row_id;
  push_back offset_list f row_id.

(** The scan of one claimed batch by a scan thread of the vertex router. *)
Definition scan_vertex_batch (fragments : nat) (cur_batch : RecordBatch)
  : option (list (list Z)) :=
  let offset_list := resize fragments in
  let row_num := num_rows cur_batch in
  id_col ← columns cur_batch !! 0%nat;
  for_each (scan_vertex_row id_col) offset_list (all_rows row_num).

(** The fragments of the two endpoints of the row [row_id]. *)
Definition edge_fids (src_col dst_col : list Z) (row_id : Z) : option (nat * nat) :=
  src_gid ← index src_col row_id;
  dst_gid ← index dst_col row_id;
  Some (GetFid src_gid, GetFid dst_gid).

(** The body of the row loop of [ShufflePropertyEdgeTable]. *)
Definition scan_edge_row (src_col dst_col : list Z) (offset_list : list (list Z))
    (row_id : Z) : option (list (list Z)) :=
  '(src_fid, dst_fid) ← edge_fids src_col dst_col row_id;
  offset_list ← push_back offset_list src_fid row_id;
  if decide (src_fid <> dst_fid)
  then push_back offset_list dst_fid row_id
  else Some offset_list.

(** The scan of one claimed batch by a scan thread of the edge router. *)
Definition scan_edge_batch (src_col_id dst_col_id : Z) (fragments : nat)
    (cur_batch : RecordBatch) : option (list (list Z)) :=
  let offset_list := resize fragments in
  let row_num := num_rows cur_batch in
  src_col ← index (columns cur_batch) src_col_id ≫= raw_values vid_type;
  dst_col ← index (columns cur_batch) dst_col_id ≫= raw_values vid_type;
  for_each (scan_edge_row src_col dst_col) offset_list (all_rows row_num).

(** The scan-thread pool: [thread_num] threads claim the batches one by
    one through an atomic counter, so every batch is scanned by exactly
    one thread when there is a thread at all; without one, the offset
    lists keep the empty vectors they were created with.  A negative count
    cannot size the vector of threads. *)
Definition scan_batches (threads : Z) (scan : RecordBatch -> option (list (list Z)))
    (record_batches : list RecordBatch) : option (list (list (list Z))) :=
  if decide (0 < threads) then mapM scan record_batches
  else if decide (threads = 0) then Some (replicate (length record_batches) [])
  else None.
End Routers.

(** The offset lists in closed form: the rows of the batch, in order, whose
    key maps to the fragment; for edges, the rows one of whose endpoints
    does. *)
Definition vertex_offsets (oid_type : DataType) (GetPartitionId : Oid -> nat)
    (id_col : Array) (n : Z) (f : nat) : list Z :=
  filter (fun r => vertex_fid oid_type GetPartitionId id_col r = Some f) (all_rows n).

Definition edge_routed (GetFid : Z -> nat) (src_col dst_col : list Z) (f : nat) (r : Z)
  : Prop :=
  match edge_fids GetFid src_col dst_col r with
  | Some (src_fid, dst_fid) => f = src_fid \/ f = dst_fid
  | None => False
  end.

#[global] Instance edge_routed_dec GetFid src_col dst_col f r :
  Decision (edge_routed GetFid src_col dst_col f r).
Proof.
  unfold edge_routed. destruct (edge_fids GetFid src_col dst_col r) as [[? ?]|]; apply _.
Defined.

Definition edge_offsets (GetFid : Z -> nat) (src_col dst_col : list Z) (n : Z) (f : nat)
  : list Z :=
  filter (edge_routed GetFid src_col dst_col f) (all_rows n).

(** What the routers need of a batch: the key column is there, every row's
    key can be read in it, and the fragment it maps to is one of the
    [fragments] fragments. *)
Definition vertex_routable (oid_type : DataType) (GetPartitionId : Oid -> nat)
    (fragments : nat) (rb : RecordBatch) (id_col : Array) : Prop :=
  columns rb !! 0%nat = Some id_col
  /\ forall r, 0 <= r < num_rows rb ->
       exists f, vertex_fid oid_type GetPartitionId id_col r = Some f /\ (f < fragments)%nat.

Definition edge_routable (vid_type : PrimType) (GetFid : Z -> nat)
    (src_col_id dst_col_id : Z) (fragments : nat) (rb : RecordBatch)
    (src_col dst_col : list Z) : Prop :=
  index (columns rb) src_col_id ≫= raw_values vid_type = Some src_col
  /\ index (columns rb) dst_col_id ≫= raw_values vid_type = Some dst_col
  /\ forall r, 0 <= r < num_rows rb ->
       exists sf df, edge_fids GetFid src_col dst_col r = Some (sf, df)
                     /\ (sf < fragments)%nat /\ (df < fragments)%nat.

(** Sample routing data: a partitioner by parity and a vertex batch; an id
    parser taking the bits above the low 32 and an edge batch whose first
    row has its endpoints in two fragments and whose second row has both
    in one. *)
Definition sample_partitioner (oid : Oid) : nat :=
  match oid with
  | OidInt v => Z.to_nat (v mod 2)
  | OidString _ => 0
  end.

Definition sample_vertex_batch : RecordBatch :=
  {| schema := [ {| field_name := "id"; field_type := Prim Int64 |};
                 {| field_name := "name"; field_type := LargeUtf8 |} ];
     num_rows := 3;
     columns := [ NumericArray Int64 [(true, 1); (true, 2); (true, 3)];
                  LargeStringArray [(true, [Byte.x61]); (true, [Byte.x62]);
                                    (true, [Byte.x63])] ] |}.

Definition sample_id_parser (gid : Z) : nat := Z.to_nat (Z.shiftr gid 32).

Definition sample_edge_batch : RecordBatch :=
  {| schema := [ {| field_name := "src"; field_type := Prim UInt64 |};
                 {| field_name := "dst"; field_type := Prim UInt64 |} ];
     num_rows := 2;
     columns := [ NumericArray UInt64 [(true, 1); (true, 4294967301)];
                  NumericArray UInt64 [(true, 4294967298); (true, 4294967303)] ] |}.

(** ** Buffers between two peers

    What one peer has sent to another under the tag 0 and the other has not
    yet received, in the order it was sent: the messages of one sender to one
    receiver under one tag do not overtake each other. *)
Inductive Message :=
| Int64Message (value : Z)
| BytesMessage (data : list byte).

Abbreviation Channel := (list Message) (only parsing).

(** [SendArrowBuffer(buffer, dst_worker_id, comm)]: the size, then the bytes
    unless there are none. *)
Definition SendArrowBuffer (buffer : list byte) (chan : Channel) : Channel :=
  let size := Z.of_nat (length buffer) in
  let chan := chan ++ [Int64Message size] in
  if decide (size <> 0) then chan ++ [BytesMessage buffer] else chan.

(** [RecvArrowBuffer(buffer, src_worker_id, comm)]: the size, a buffer of
    that size (no buffer of a negative size can be allocated), then the bytes
    unless the size is zero.  A message of another kind or length than the
    one waited for is an error of the message layer, and nothing is returned
    while no message is there. *)
Definition RecvArrowBuffer (chan : Channel) : option (list byte * Channel) :=
  match chan with
  | Int64Message size :: chan =>
      if decide (0 <= size) then
        if decide (size <> 0) then
          match chan with
          | BytesMessage data :: chan =>
              if decide (Z.of_nat (length data) = size) then Some (data, chan) else None
          | _ => None
          end
        else Some ([], chan)
      else None
  | _ => None
  end.

(** ** Schema barrier *)

Inductive ErrorCode := kArrowError | kInvalidOperationError.

(** [boost::leaf::result<T>] *)
Inductive result (A : Type) :=
| Ok (a : A)
| Error (code : ErrorCode).
#[global] Arguments Ok {A} a.
#[global] Arguments Error {A} code.

Section SchemaBarrier.
(** The IPC serializer of the columnar library: [SerializeSchema] yields no
    buffer when its status is not OK; a failing [ReadSchema] aborts. *)
Context {Buffer : Type}.
Variable SerializeSchema : Schema -> option Buffer.
Variable ReadSchema : Buffer -> option Schema.

(** The flag a peer contributes to the all-reduce. *)
Definition serialize_flag (s : Schema) : Z :=
  match SerializeSchema s with Some _ => 0 | None => 1 end.

(** The step of the receive loop: the peer at descending stride [i], its
    buffer, the schema read from it, and the AND accumulator. *)
Definition recv_step (s : Schema) (cs : CommSpec) (recv : Z -> option Buffer)
    (consistent : bool) (i : Z) : option bool :=
  let src_worker_id := Z.rem (worker_id cs + worker_num cs - i) (worker_num cs) in
  got_buffer ← recv src_worker_id;
  got_schema ← ReadSchema got_buffer;
  Some (consistent && bool_decide (got_schema = s)).

(** The accumulator after the receive thread has joined. *)
Definition schema_accumulator (s : Schema) (cs : CommSpec) (recv : Z -> option Buffer)
  : option bool :=
  for_each (recv_step s cs recv) true (seqZ 1 (worker_num cs - 1)).

(** [SchemaConsistent(schema, comm_spec)] at one peer; [sum] is the result of
    the all-reduce of the flags and [recv src] the buffer received from the
    peer [src]. *)
Definition SchemaConsistent (s : Schema) (cs : CommSpec) (sum : Z)
    (recv : Z -> option Buffer) : option (result ()) :=
  match SerializeSchema s with
  | None => Some (Error kArrowError)
  | Some buffer =>
      if decide (sum <> 0) then Some (Error kArrowError)
      else
        consistent ← schema_accumulator s cs recv;
        if negb consistent then Some (Error kInvalidOperationError)
        else Some (Ok ())
  end.

(** The group: peer [w] presents the schema [group !! w].  Every peer gets
    the sum of all flags and, from each peer, the buffer that peer sent. *)
Definition peer_spec (group : list Schema) (w : nat) : CommSpec :=
  {| worker_id := Z.of_nat w;
     worker_num := Z.of_nat (length group);
     local_num := 1;
     fnum := length group;
     fid := w |}.

Definition flag_sum (group : list Schema) : Z :=
  foldr Z.add 0 (serialize_flag <$> group).

Definition sent_buffer (group : list Schema) (src : Z) : option Buffer :=
  index group src ≫= SerializeSchema.

Definition barrier_accumulator (group : list Schema) (w : nat) : option bool :=
  s ← group !! w;
  schema_accumulator s (peer_spec group w) (sent_buffer group).

Definition barrier_result (group : list Schema) (w : nat) : option (result ()) :=
  s ← group !! w;
  SchemaConsistent s (peer_spec group w) (flag_sum group) (sent_buffer group).
End SchemaBarrier.

(** ** Schema barrier: the exchange of the buffers

    The channels of the group: [net src dst] is what the peer [src] has sent
    to the peer [dst] and [dst] has not yet received. *)
Definition empty_network : Z -> Z -> list Message := fun _ _ => [].

Definition on_channel (net : Z -> Z -> list Message) (src dst : Z) (chan : list Message)
  : Z -> Z -> list Message :=
  fun a b => if decide (a = src /\ b = dst) then chan else net a b.

(** The send thread of [SchemaConsistent]. *)
Definition send_thread (buffer : list byte) (cs : CommSpec) (net : Z -> Z -> list Message)
  : Z -> Z -> list Message :=
  foldl (fun net i =>
           let dst_worker_id := Z.rem (worker_id cs + i) (worker_num cs) in
           on_channel net (worker_id cs) dst_worker_id
             (SendArrowBuffer buffer (net (worker_id cs) dst_worker_id)))
        net (seqZ 1 (worker_num cs - 1)).

(** The receive thread of [SchemaConsistent] up to the buffers it gets, in
    the order of the strides; what it does with each of them is
    [recv_step]. *)
Definition recv_thread (cs : CommSpec) (net : Z -> Z -> list Message)
  : option (list (list byte) * (Z -> Z -> list Message)) :=
  for_each (fun '(got, net) i =>
              let src_worker_id :=
                Z.rem (worker_id cs + worker_num cs - i) (worker_num cs) in
              '(got_buffer, chan) ← RecvArrowBuffer (net src_worker_id (worker_id cs));
              Some (got ++ [got_buffer],
                    on_channel net src_worker_id (worker_id cs) chan))
           ([], net) (seqZ 1 (worker_num cs - 1)).

(** The channels once the send thread of every peer has run.  A channel has
    one sender, so what is on it does not depend on the order in which the
    send threads run. *)
Definition all_sent (SerializeSchema : Schema -> option (list byte)) (group : list Schema)
  : Z -> Z -> list Message :=
  foldl (fun net w =>
           match group !! w ≫= SerializeSchema with
           | Some buffer => send_thread buffer (peer_spec group w) net
           | None => net
           end)
        empty_network (seq 0 (length group)).

(** An IPC form for the sample schemas: the bytes of the field names. *)
Definition sample_ipc (s : Schema) : option (list byte) :=
  Some (concat ((fun f => list_byte_of_string (field_name f)) <$> s)).

(** A schema serializer that has no IPC form for the schema without
    fields, and a group one of whose peers presents that schema. *)
Definition picky_serializer (s : Schema) : option Schema :=
  match s with
  | [] => None
  | _ :: _ => Some s
  end.

Definition unserializable_group : list Schema :=
  [ [ {| field_name := "id"; field_type := Prim Int64 |} ]; [] ].

(** Sample group of the schema-mismatch scenario: worker 0 presents
    [(id : int64)], worker 1 presents [(id : int32)]. *)
Definition mismatched_group : list Schema :=
  [ [ {| field_name := "id"; field_type := Prim Int64 |} ];
    [ {| field_name := "id"; field_type := Prim Int32 |} ] ].

(** ** Shuffle engine *)

(** The stride [i] of the loop over the remote destinations in a serializer
    thread: the destination, its offset list and the queue item. *)
Definition serialize_item (cs : CommSpec) (cur_rb : RecordBatch)
    (cur_offset_lists : list (list Z)) (i : Z) : option (nat * InArchive) :=
  let dst_worker_id := Z.rem (worker_id cs + i) (worker_num cs) in
  let dst_fid := WorkerToFrag dst_worker_id in
  offset ← cur_offset_lists !! dst_fid;
  arc ← SerializeSelectedRows [] cur_rb offset;
  Some (dst_fid, arc).

(** What a serializer thread puts on the outbound queue for the batch it
    claimed.  The loop [for (i = 1; i != worker_num; ++i)] has no exit when
    there is no worker. *)
Definition serialize_batch (cs : CommSpec) (record_batches_out : list RecordBatch)
    (offset_lists : list (list (list Z))) (got_batch : nat)
  : option (list (nat * InArchive)) :=
  cur_rb ← record_batches_out !! got_batch;
  cur_offset_lists ← offset_lists !! got_batch;
  if decide (1 <= worker_num cs)
  then mapM (serialize_item cs cur_rb cur_offset_lists) (seqZ 1 (worker_num cs - 1))
  else None.

(** The outbound queue after the serializer pool has joined.  The threads
    claim the batches through an atomic counter, so every batch is
    serialized by exactly one of them; the items are listed batch by batch
    (their order in the queue depends on the interleaving and is not used). *)
Definition outbound (cs : CommSpec) (serialize_threads : Z)
    (record_batches_out : list RecordBatch) (offset_lists : list (list (list Z)))
  : option (list (nat * InArchive)) :=
  if decide (0 < serialize_threads)
  then items ← mapM (serialize_batch cs record_batches_out offset_lists)
                     (seq 0 (length record_batches_out));
       Some (concat items)
  else Some [].

(** The self-slice of the batch [rb_i]. *)
Definition local_slice (cs : CommSpec) (record_batches_out : list RecordBatch)
    (offset_lists : list (list (list Z))) (rb_i : nat) : option RecordBatch :=
  rb ← record_batches_out !! rb_i;
  cur_offset_lists ← offset_lists !! rb_i;
  offset ← cur_offset_lists !! fid cs;
  SelectRows rb offset.

(** [ShuffleTableByOffsetLists].  [total_record_batches] is the result of the
    all-reduce and [rx] the archives the receive thread got, listed in the
    order of the output slots the deserializer threads decoded them into.
    The receive thread returns after exactly [record_batches_to_recv]
    archives, so the call returns only for such an [rx].  The result is the
    outbound queue and [record_batches_in]. *)
Definition ShuffleTableByOffsetLists (s : Schema) (record_batches_out : list RecordBatch)
    (offset_lists : list (list (list Z))) (cs : CommSpec)
    (hardware_concurrency total_record_batches : Z) (rx : list OutArchive)
  : option (list (nat * InArchive) * list RecordBatch) :=
  let record_batches_out_num := length record_batches_out in
  let threads := thread_num hardware_concurrency (local_num cs) in
  let deserialize_threads := deserialize_thread_num threads in
  let serialize_threads := serialize_thread_num threads in
  let record_batches_to_send := Z.of_nat record_batches_out_num in
  let record_batches_to_recv := total_record_batches - record_batches_to_send in
  msg_out ← outbound cs serialize_threads record_batches_out offset_lists;
  if decide (Z.of_nat (length rx) = record_batches_to_recv /\ 0 < deserialize_threads)
  then
    record_batches_in ← mapM (fun arc => snd <$> DeserializeSelectedRows arc s) rx;
    selected ← mapM (local_slice cs record_batches_out offset_lists)
                    (seq 0 record_batches_out_num);
    Some (msg_out, record_batches_in ++ selected)
  else None.

(** ** Tables *)

(** Modelled from the spec: the table type and the conversions between
    tables and record batches live in [basic/ds/arrow_utils.h] and in the
    columnar library.  A table is its schema and the record batches it is
    made of; combining the chunks leaves one chunk per column; the empty
    table builder gives a table of the schema without rows. *)
Record Table := {
  table_schema : Schema;
  table_batches : list RecordBatch
}.

Definition TableToRecordBatches (t : Table) : list RecordBatch := table_batches t.

Definition RecordBatchesToTable (batches : list RecordBatch) : option Table :=
  match batches with
  | [] => None
  | b :: _ =>
      if decide (Forall (fun e => schema e = schema b) batches)
      then Some {| table_schema := schema b; table_batches := batches |}
      else None
  end.

Definition array_concat (a b : Array) : Array :=
  match a, b with
  | NumericArray p s, NumericArray _ s' => NumericArray p (s ++ s')
  | LargeStringArray s, LargeStringArray s' => LargeStringArray (s ++ s')
  | NullArray n, NullArray m => NullArray (n + m)
  | LargeListArray p s, LargeListArray _ s' => LargeListArray p (s ++ s')
  | _, _ => a
  end.

Definition batch_concat (a b : RecordBatch) : RecordBatch :=
  {| schema := schema a;
     num_rows := num_rows a + num_rows b;
     columns := zip_with array_concat (columns a) (columns b) |}.

Definition CombineChunks (t : Table) : Table :=
  match table_batches t with
  | [] => t
  | b :: rest =>
      {| table_schema := table_schema t;
         table_batches := [foldl batch_concat b rest] |}
  end.

Definition EmptyTableBuilder_Build (s : Schema) : Table :=
  {| table_schema := s; table_batches := [] |}.

(** ** Routers *)

(** What a worker gets from the group during a shuffle: the hardware
    concurrency of its host, the all-reduced sum of the serialization flags
    and the schema buffers of the peers (schema barrier), the all-reduced
    number of record batches and the archives received (shuffle engine). *)
Record Env (Buffer : Type) := {
  hardware_concurrency : Z;
  flag_total : Z;
  schema_buffers : Z -> option Buffer;
  total_record_batches : Z;
  received : list OutArchive
}.
#[global] Arguments hardware_concurrency {Buffer} e.
#[global] Arguments flag_total {Buffer} e.
#[global] Arguments schema_buffers {Buffer} e.
#[global] Arguments total_record_batches {Buffer} e.
#[global] Arguments received {Buffer} e.

Section ShuffleTables.
Context {Buffer : Type}.
Variable SerializeSchema : Schema -> option Buffer.
Variable ReadSchema : Buffer -> option Schema.

(** The part the two routers have in common, from the schema barrier to the
    returned table, around the scan of one batch.  The result is the outbound
    queue and the returned value. *)
Definition shuffle_table (scan : nat -> RecordBatch -> option (list (list Z)))
    (cs : CommSpec) (table_in : Table) (env : Env Buffer)
  : option (list (nat * InArchive) * result Table) :=
  check ← SchemaConsistent SerializeSchema ReadSchema (table_schema table_in) cs
            (flag_total env) (schema_buffers env);
  match check with
  | Error code => Some ([], Error code)
  | Ok _ =>
      let record_batches := TableToRecordBatches table_in in
      let threads := thread_num (hardware_concurrency env) (local_num cs) in
      offset_lists ← scan_batches threads (scan (fnum cs)) record_batches;
      '(msg_out, batches_in) ←
        ShuffleTableByOffsetLists (table_schema table_in) record_batches offset_lists cs
          (hardware_concurrency env) (total_record_batches env) (received env);
      let batches_in := filter (fun e => num_rows e <> 0) batches_in in
      match batches_in with
      | [] => Some (msg_out, Ok (EmptyTableBuilder_Build (table_schema table_in)))
      | _ :: _ =>
          tmp_table ← RecordBatchesToTable batches_in;
          Some (msg_out, Ok (CombineChunks tmp_table))
      end
  end.

Definition ShufflePropertyVertexTable (oid_type : DataType) (GetPartitionId : Oid -> nat)
    (cs : CommSpec) (table_in : Table) (env : Env Buffer)
  : option (list (nat * InArchive) * result Table) :=
  shuffle_table (scan_vertex_batch oid_type GetPartitionId) cs table_in env.

Definition ShufflePropertyEdgeTable (vid_type : PrimType) (GetFid : Z -> nat)
    (src_col_id dst_col_id : Z) (cs : CommSpec) (table_in : Table) (env : Env Buffer)
  : option (list (nat * InArchive) * result Table) :=
  shuffle_table (scan_edge_batch vid_type GetFid src_col_id dst_col_id) cs table_in env.
End ShuffleTables.

(** Offsets a serializer can take: valid row indices, and no more of them
    than a signed 64-bit count can tell. *)
Definition good_offsets (rb : RecordBatch) (offset : list Z) : Prop :=
  valid_offsets rb offset /\ Z.of_nat (length offset) < 2 ^ 63.

(** The worker's place in a group of [worker_num] workers and fragments. *)
Record wf_comm_spec (cs : CommSpec) : Prop := {
  wf_worker_num : 1 <= worker_num cs;
  wf_worker_id : 0 <= worker_id cs < worker_num cs;
  wf_fid : fid cs = WorkerToFrag (worker_id cs);
  wf_fnum : fnum cs = Z.to_nat (worker_num cs)
}.

(** The input of the shuffle engine: batches on the shared schema, each with
    one offset list per fragment. *)
Definition engine_input (s : Schema) (cs : CommSpec) (rb : RecordBatch)
    (cur_offset_lists : list (list Z)) : Prop :=
  conforms rb /\ schema rb = s
  /\ length cur_offset_lists = fnum cs
  /\ Forall (good_offsets rb) cur_offset_lists.

(** ** The group of workers *)

Section Group.
Context {Buffer : Type}.
Variable SerializeSchema : Schema -> option Buffer.
Variable ReadSchema : Buffer -> option Schema.
(** The scan of the router in use, the hardware concurrency of the hosts
    and the number of workers on each host. *)
Variable scan : nat -> RecordBatch -> option (list (list Z)).
Variable hardware : Z.
Variable local : Z.

(** Worker [w] of the group holds the table [group !! w]; there are as many
    fragments as workers. *)
Definition group_spec (group : list Table) (w : nat) : CommSpec :=
  {| worker_id := Z.of_nat w;
     worker_num := Z.of_nat (length group);
     local_num := local;
     fnum := length group;
     fid := w |}.

(** The outbound queue of worker [w]. *)
Definition peer_outbound (group : list Table) (w : nat) : option (list (nat * InArchive)) :=
  t ← group !! w;
  let record_batches := TableToRecordBatches t in
  let threads := thread_num hardware local in
  offset_lists ← scan_batches threads (scan (length group)) record_batches;
  outbound (group_spec group w) (serialize_thread_num threads) record_batches offset_lists.

(** The send thread of a worker sends every queue item to the worker of the
    item's fragment: what [v] receives from a queue. *)
Definition delivered (v : nat) (queue : list (nat * InArchive)) : list InArchive :=
  snd <$> filter (fun item => FragToWorker item.1 = Z.of_nat v) queue.

(** Everything sent to [v], sender by sender. *)
Definition sent_to (group : list Table) (v : nat) : option (list InArchive) :=
  queues ← mapM (peer_outbound group) (seq 0 (length group));
  Some (concat (delivered v <$> queues)).

(** What worker [v] gets from the group when the archives arrive, and are
    decoded into the output slots, in the order [rx]. *)
Definition group_env (group : list Table) (rx : list OutArchive) : Env Buffer :=
  {| hardware_concurrency := hardware;
     flag_total := flag_sum SerializeSchema (table_schema <$> group);
     schema_buffers := sent_buffer SerializeSchema (table_schema <$> group);
     total_record_batches :=
       foldr Z.add 0 ((fun t => Z.of_nat (length (TableToRecordBatches t))) <$> group);
     received := rx |}.

(** A run of worker [v]: the archives sent to it arrive in some order. *)
Definition shuffle_run (group : list Table) (v : nat) (res : result Table) : Prop :=
  exists t sent rx queue,
    group !! v = Some t
    /\ sent_to group v = Some sent
    /\ rx ≡ₚ sent
    /\ shuffle_table SerializeSchema ReadSchema scan (group_spec group v) t
         (group_env group rx) = Some (queue, res).

(** The offset list of a batch for the fragment [f]. *)
Definition routed (fragments : nat) (rb : RecordBatch) (f : nat) : list Z :=
  default [] (ols ← scan fragments rb; ols !! f).

(** All the input batches of the group, worker by worker. *)
Definition all_batches (group : list Table) : list RecordBatch :=
  concat (TableToRecordBatches <$> group).

(** What the scan has to deliver for every batch of the group. *)
Definition scannable (s : Schema) (group : list Table) : Prop :=
  forall w t, group !! w = Some t ->
    table_schema t = s
    /\ Forall (fun rb => exists ols, scan (length group) rb = Some ols
                                     /\ engine_input s (group_spec group w) rb ols)
              (TableToRecordBatches t).
End Group.

(** The table built from the batches that are left after the empty ones
    were dropped. *)
Definition build_table (s : Schema) (batches_in : list RecordBatch) : Table :=
  match batches_in with
  | [] => EmptyTableBuilder_Build s
  | _ :: _ => CombineChunks {| table_schema := s; table_batches := batches_in |}
  end.

(** The rows of a batch at the given offsets, as they are in the batch. *)
Definition pick_rows (rb : RecordBatch) (offset : list Z) : RecordBatch :=
  {| schema := schema rb;
     num_rows := Z.of_nat (length offset);
     columns := (fun a => default a (take_rows a offset)) <$> columns rb |}.

(** A batch with at least one column, over numeric, string and null columns,
    without cleared validity bits. *)
Definition plain_batch (rb : RecordBatch) : Prop :=
  schema rb <> []
  /\ Forall (fun f => flat (field_type f)) (schema rb)
  /\ Forall no_nulls (columns rb).

(** The tables the routers are called on: every batch is bound to the shared
    schema and can be routed among the workers of the group. *)
Definition vertex_group (oid_type : DataType) (GetPartitionId : Oid -> nat)
    (s : Schema) (group : list Table) : Prop :=
  forall w t, group !! w = Some t ->
    table_schema t = s
    /\ Forall (fun rb => conforms rb /\ schema rb = s
                         /\ exists id_col,
                              vertex_routable oid_type GetPartitionId (length group) rb id_col)
              (TableToRecordBatches t).

Definition edge_group (vid_type : PrimType) (GetFid : Z -> nat) (src_col_id dst_col_id : Z)
    (s : Schema) (group : list Table) : Prop :=
  forall w t, group !! w = Some t ->
    table_schema t = s
    /\ Forall (fun rb => conforms rb /\ schema rb = s
                         /\ exists src_col dst_col,
                              edge_routable vid_type GetFid src_col_id dst_col_id
                                (length group) rb src_col dst_col)
              (TableToRecordBatches t).

(** Sample groups.  Two workers with vertex tables over [(id, name)]: worker
    0 holds the vertices 1 and 2, worker 1 the vertex 3.  Two workers with
    edge tables: worker 0 holds the sample edge batch, worker 1 nothing. *)
Definition vertex_schema : Schema :=
  [ {| field_name := "id"; field_type := Prim Int64 |};
    {| field_name := "name"; field_type := LargeUtf8 |} ].

Definition vertex_batch_0 : RecordBatch :=
  {| schema := vertex_schema;
     num_rows := 2;
     columns := [ NumericArray Int64 [(true, 1); (true, 2)];
                  LargeStringArray [(true, [Byte.x61]); (true, [Byte.x62])] ] |}.

Definition vertex_batch_1 : RecordBatch :=
  {| schema := vertex_schema;
     num_rows := 1;
     columns := [ NumericArray Int64 [(true, 3)];
                  LargeStringArray [(true, [Byte.x63])] ] |}.

Definition sample_vertex_group : list Table :=
  [ {| table_schema := vertex_schema; table_batches := [vertex_batch_0] |};
    {| table_schema := vertex_schema; table_batches := [vertex_batch_1] |} ].

Definition sample_edge_group : list Table :=
  [ {| table_schema := schema sample_edge_batch; table_batches := [sample_edge_batch] |};
    {| table_schema := schema sample_edge_batch; table_batches := [] |} ].

(** Single workers: one whose table has a cleared validity bit, one whose
    table has a list column (one row, key 10, list [7, 8, 9]). *)
Definition null_slot_table : Table :=
  {| table_schema := schema null_slot_batch; table_batches := [null_slot_batch] |}.

Definition keyed_list_batch : RecordBatch :=
  {| schema := [ {| field_name := "id"; field_type := Prim Int64 |};
                 {| field_name := "l"; field_type := LargeList Int32 |} ];
     num_rows := 1;
     columns := [ NumericArray Int64 [(true, 10)];
                  LargeListArray Int32 [(true, [(true, 7); (true, 8); (true, 9)])] ] |}.

Definition keyed_list_table : Table :=
  {| table_schema := schema keyed_list_batch; table_batches := [keyed_list_batch] |}.

(** Two workers on the schema of the keyed list batch: worker 0 holds the
    batch, worker 1 holds no batch, and the partitioner sends every key to
    the fragment 1. *)
Definition to_fragment_1 (oid : Oid) : nat := 1.

Definition list_vertex_group : list Table :=
  [ keyed_list_table;
    {| table_schema := schema keyed_list_batch; table_batches := [] |} ].

(** The archives the workers of that group address to worker 1, and the run
    of the vertex router at worker [v] when the archives [rx] arrive. *)
Definition list_group_sent : list InArchive :=
  default [] (sent_to (scan_vertex_batch (Prim Int64) to_fragment_1) 8 1
                list_vertex_group 1).

Definition list_group_run (v : nat) (rx : list OutArchive)
  : option (list (nat * InArchive) * result Table) :=
  t ← list_vertex_group !! v;
  ShufflePropertyVertexTable (Buffer := Schema) Some Some (Prim Int64) to_fragment_1
    (group_spec 1 list_vertex_group v) t
    (group_env (Buffer := Schema) Some 8 list_vertex_group rx).

(** The run of a worker that is alone in its group: nothing is received. *)
Definition run_alone (t : Table) : option (list (nat * InArchive) * result Table) :=
  ShufflePropertyVertexTable (Buffer := Schema) Some Some (Prim Int64) (fun _ => 0%nat)
    (group_spec 1 [t] 0) t (group_env (Buffer := Schema) Some 8 [t] []).

(** Worker 0 of the sample vertex group in the engine: its batch, the offset
    lists of the batch for the fragments 0 and 1, and the one archive it
    receives, which worker 1 serialized from no row of its batch. *)
Definition sample_comm_spec : CommSpec :=
  {| worker_id := 0; worker_num := 2; local_num := 1; fnum := 2; fid := 0 |}.

Definition sample_offset_lists : list (list (list Z)) := [ [ [1]; [0] ] ].

Definition sample_rx : list OutArchive :=
  [ default [] (SerializeSelectedRows [] vertex_batch_1 []) ].

(** The outbound queue and the output of that run of the engine. *)
Definition sample_engine_run : option (list (nat * InArchive) * list RecordBatch) :=
  ShuffleTableByOffsetLists vertex_schema [vertex_batch_0] sample_offset_lists
    sample_comm_spec 8 2 sample_rx.

Definition sample_msg_out : list (nat * InArchive) := default [] (fst <$> sample_engine_run).

Definition sample_batches_in : list RecordBatch := default [] (snd <$> sample_engine_run).

(** A schema with a field of a type outside the closed set. *)
Definition int8_schema : Schema :=
  [ {| field_name := "id"; field_type := Prim Int64 |};
    {| field_name := "flag"; field_type := Other "int8" |} ].

Definition int8_batch : RecordBatch :=
  {| schema := int8_schema;
     num_rows := 1;
     columns := [ NumericArray Int64 [(true, 10)]; OtherArray "int8" 1 ] |}.

(** ** Proof tools for the sample data *)

(** Conformance of a concrete batch, validity of concrete offsets. *)
Ltac sample_conforms :=
  split;
  [ reflexivity
  | repeat constructor
  | repeat (constructor; simpl; unfold in_range; simpl; try lia)
  | simpl; lia ].

Ltac sample_offsets :=
  unfold valid_offsets; repeat (constructor; [simpl; lia|]); constructor.

(** * Properties *)

(** ** Loops *)

Lemma for_each_app {St A} (body : St -> A -> option St) (l1 l2 : list A) (s : St) :
  for_each body s (l1 ++ l2) = s' ← for_each body s l1; for_each body s' l2.
Proof.
  revert s. induction l1 as [|x l1 IH]; intros s; simpl; [reflexivity|].
  destruct (body s x) as [s'|]; simpl; [apply IH | reflexivity].
Qed.

Lemma iterate_S_r {St} (n : nat) (body : St -> option St) (s : St) :
  iterate (S n) body s = s' ← iterate n body s; body s'.
Proof.
  revert s. induction n as [|n IH]; intros s; simpl.
  - destruct (body s); reflexivity.
  - destruct (body s) as [s'|]; simpl; [|reflexivity].
    specialize (IH s'). simpl in IH. exact IH.
Qed.

(** ** Plain values on the wire *)

Lemma pod_round_trip (p : PrimType) (v : Z) :
  in_range p v -> pod_of_bytes p (le_split (sizeof p) v) = v.
Proof.
  unfold in_range, pod_of_bytes. rewrite le_combine_split.
  destruct p; cbn [is_signed sizeof andb]; intros H;
    change (Z.of_nat 8 * 8) with 64 in *; change (Z.of_nat 4 * 8) with 32 in *;
    change (2 ^ 64) with 18446744073709551616 in *;
    change (2 ^ 32) with 4294967296 in *;
    change (2 ^ (64 - 1)) with 9223372036854775808 in *;
    change (2 ^ (32 - 1)) with 2147483648 in *;
    try (rewrite Z.mod_small by lia; reflexivity).
  - destruct (Z.leb_spec 9223372036854775808 (v mod 18446744073709551616));
      Z.div_mod_to_equations; lia.
  - destruct (Z.leb_spec 2147483648 (v mod 4294967296));
      Z.div_mod_to_equations; lia.
Qed.

Lemma GetBytes_app (bs rest : list byte) :
  GetBytes (bs ++ rest) (length bs) = Some (bs, rest).
Proof.
  unfold GetBytes. rewrite decide_True by (rewrite length_app; lia).
  rewrite take_app_length, drop_app_length. reflexivity.
Qed.

Lemma get_pod_put (p : PrimType) (v : Z) (rest : list byte) :
  in_range p v -> get_pod p (le_split (sizeof p) v ++ rest) = Some (v, rest).
Proof.
  intros H. unfold get_pod.
  pose proof (GetBytes_app (le_split (sizeof p) v) rest) as E.
  rewrite length_le_split in E. rewrite E. simpl.
  rewrite pod_round_trip by exact H. reflexivity.
Qed.


(** ** Columns, one type at a time

    For each kind of column: what the serializer writes, what the selector
    appends, and that the deserializer, reading what the serializer wrote,
    appends the same as the selector. *)

Lemma repeat_n_of_nat {St} (n : nat) (body : St -> option St) (s : St) :
  repeat_n (Z.of_nat n) body s = iterate n body s.
Proof.
  unfold repeat_n. rewrite decide_True by lia. rewrite Nat2Z.id. reflexivity.
Qed.

Lemma index_fmap {A B} (f : A -> B) (l : list A) (x : Z) :
  index (f <$> l) x = f <$> index l x.
Proof.
  unfold index. destruct (decide (0 <= x)); [apply list_lookup_fmap | reflexivity].
Qed.

Lemma index_Some_lt {A} (l : list A) (x : Z) (c : A) :
  index l x = Some c -> 0 <= x < Z.of_nat (length l).
Proof.
  unfold index. destruct (decide (0 <= x)); [|discriminate].
  intros H. apply lookup_lt_Some in H. lia.
Qed.

Lemma index_lt_Some {A} (l : list A) (x : Z) :
  0 <= x < Z.of_nat (length l) -> exists c, index l x = Some c.
Proof.
  intros H. unfold index. rewrite decide_True by lia.
  destruct (lookup_lt_is_Some_2 l (Z.to_nat x)) as [c Hc]; [lia|]. eauto.
Qed.

Lemma mapM_index_total {A} (l : list A) (offset : list Z) :
  Forall (fun x => 0 <= x < Z.of_nat (length l)) offset ->
  exists sel, mapM (index l) offset = Some sel.
Proof.
  intros H. apply (proj2 (mapM_is_Some (index l) offset)).
  eapply Forall_impl; [exact H|].
  intros x Hx. destruct (index_lt_Some l x Hx) as [c Hc]. simpl. rewrite Hc. eauto.
Qed.

Lemma wire_pods_snoc (p : PrimType) (vs : list Z) (v : Z) :
  wire_pods p (vs ++ [v]) = wire_pods p vs ++ le_split (sizeof p) v.
Proof.
  unfold wire_pods. rewrite fmap_app, concat_app. simpl. rewrite app_nil_r. reflexivity.
Qed.

Lemma serialize_typed_items_wire (p : PrimType) (arc : InArchive) (values : list (Slot Z)) :
  serialize_typed_items p arc values = arc ++ wire_pods p (snd <$> values).
Proof.
  unfold serialize_typed_items.
  induction values as [|c values IH] using rev_ind.
  - simpl. rewrite app_nil_r. reflexivity.
  - rewrite fmap_app. change (snd <$> [c]) with [snd c].
    rewrite foldl_snoc, wire_pods_snoc, IH. simpl.
    unfold put_pod. rewrite app_assoc. reflexivity.
Qed.

Lemma serialize_numeric_wire (p : PrimType) (s sel : list (Slot Z)) (offset : list Z)
    (arc : InArchive) :
  Forall2 (fun x c => index s x = Some c) offset sel ->
  serialize_selected_typed_items p arc (NumericArray p s) offset
  = Some (arc ++ wire_pods p (snd <$> sel)).
Proof.
  intros H. unfold serialize_selected_typed_items, raw_values.
  rewrite decide_True by reflexivity. simpl.
  revert arc. induction H as [|x c offset sel Hx _ IH]; intros arc; simpl.
  - rewrite app_nil_r. reflexivity.
  - rewrite index_fmap, Hx. simpl. rewrite IH. unfold put_pod, wire_pods. simpl.
    rewrite app_assoc. reflexivity.
Qed.

Lemma select_numeric (p : PrimType) (s sel b0 : list (Slot Z)) (offset : list Z) :
  Forall2 (fun x c => index s x = Some c) offset sel ->
  select_selected_typed_items p (NumericArray p s) offset (NumericBuilder p b0)
  = Some (NumericBuilder p (b0 ++ ((fun c => (true, snd c)) <$> sel))).
Proof.
  intros H. unfold select_selected_typed_items, raw_values.
  rewrite decide_True by reflexivity. simpl.
  revert b0. induction H as [|x c offset sel Hx _ IH]; intros b0; simpl.
  - rewrite app_nil_r. reflexivity.
  - rewrite index_fmap, Hx. simpl. rewrite decide_True by reflexivity. simpl.
    rewrite IH, <- app_assoc. reflexivity.
Qed.

Lemma deserialize_numeric (p : PrimType) (sel b0 : list (Slot Z)) (rest : list byte) :
  Forall (fun c => in_range p (snd c)) sel ->
  deserialize_selected_typed_items p (Z.of_nat (length sel))
    (wire_pods p (snd <$> sel) ++ rest, NumericBuilder p b0)
  = Some (rest, NumericBuilder p (b0 ++ ((fun c => (true, snd c)) <$> sel))).
Proof.
  intros H. unfold deserialize_selected_typed_items. rewrite repeat_n_of_nat.
  revert b0. induction H as [|c sel Hc _ IH]; intros b0; simpl.
  - rewrite app_nil_r. reflexivity.
  - unfold wire_pods. simpl. rewrite <- app_assoc.
    rewrite get_pod_put by exact Hc. simpl.
    rewrite decide_True by reflexivity. simpl.
    unfold wire_pods in IH. rewrite IH, <- app_assoc. reflexivity.
Qed.

Lemma get_string_view_put (v rest : list byte) :
  Z.of_nat (length v) < 2 ^ 63 ->
  get_string_view (wire_string v ++ rest) = Some (v, rest).
Proof.
  intros H. unfold get_string_view, wire_string. rewrite <- app_assoc.
  change 8%nat with (sizeof UInt64).
  rewrite get_pod_put; [|unfold in_range; simpl; lia].
  simpl. rewrite Nat2Z.id. apply GetBytes_app.
Qed.

Lemma serialize_string_wire (s sel : list (Slot (list byte))) (offset : list Z)
    (arc : InArchive) :
  Forall2 (fun x c => index s x = Some c) offset sel ->
  serialize_string_items arc (LargeStringArray s) offset
  = Some (arc ++ concat (wire_string ∘ snd <$> sel)).
Proof.
  intros H. unfold serialize_string_items.
  revert arc. induction H as [|x c offset sel Hx _ IH]; intros arc; simpl.
  - rewrite app_nil_r. reflexivity.
  - rewrite Hx. simpl. rewrite IH. unfold put_string_view, put_pod, wire_string.
    simpl. rewrite <- !app_assoc. reflexivity.
Qed.

Lemma select_string (s sel b0 : list (Slot (list byte))) (offset : list Z) :
  Forall2 (fun x c => index s x = Some c) offset sel ->
  select_string_items (LargeStringArray s) offset (LargeStringBuilder b0)
  = Some (LargeStringBuilder (b0 ++ ((fun c => (true, snd c)) <$> sel))).
Proof.
  intros H. unfold select_string_items.
  revert b0. induction H as [|x c offset sel Hx _ IH]; intros b0; simpl.
  - rewrite app_nil_r. reflexivity.
  - rewrite Hx. simpl. rewrite IH, <- app_assoc. reflexivity.
Qed.

Lemma deserialize_string (sel b0 : list (Slot (list byte))) (rest : list byte) :
  Forall (fun c => Z.of_nat (length (snd c)) < 2 ^ 63) sel ->
  deserialize_string_items (Z.of_nat (length sel))
    (concat (wire_string ∘ snd <$> sel) ++ rest, LargeStringBuilder b0)
  = Some (rest, LargeStringBuilder (b0 ++ ((fun c => (true, snd c)) <$> sel))).
Proof.
  intros H. unfold deserialize_string_items. rewrite repeat_n_of_nat.
  revert b0. induction H as [|c sel Hc _ IH]; intros b0.
  - simpl. rewrite app_nil_r. reflexivity.
  - cbn [length iterate fmap list_fmap concat compose].
    rewrite <- app_assoc. rewrite get_string_view_put by exact Hc.
    cbn [mbind option_bind AppendString].
    rewrite IH, <- app_assoc. reflexivity.
Qed.

Lemma append_lists_cons (c : Slot (list (Slot Z))) (sel : list (Slot (list (Slot Z))))
    (values : list (Slot Z)) (starts : list (Slot nat)) :
  append_lists (c :: sel) (values, starts)
  = append_lists sel
      (values ++ ((fun e => (true, snd e)) <$> snd c),
       starts ++ [(true, length (values ++ ((fun e => (true, snd e)) <$> snd c)))]).
Proof. reflexivity. Qed.

Lemma value_slice_list (p : PrimType) (s : list (Slot (list (Slot Z)))) (x : Z)
    (c : Slot (list (Slot Z))) :
  index s x = Some c -> value_slice (LargeListArray p s) x = Some (snd c).
Proof. intros H. unfold value_slice. rewrite H. reflexivity. Qed.

Lemma serialize_list_wire (p : PrimType) (s sel : list (Slot (list (Slot Z))))
    (offset : list Z) (arc : InArchive) :
  Forall2 (fun x c => index s x = Some c) offset sel ->
  serialize_list_items p arc (LargeListArray p s) offset
  = Some (arc ++ concat (wire_list p ∘ snd <$> sel)).
Proof.
  intros H. unfold serialize_list_items, value_length.
  revert arc. induction H as [|x c offset sel Hx _ IH]; intros arc; simpl.
  - rewrite app_nil_r. reflexivity.
  - rewrite Hx. simpl. rewrite serialize_typed_items_wire, IH.
    unfold put_pod, wire_list. simpl. rewrite <- !app_assoc. reflexivity.
Qed.

Lemma select_list (p : PrimType) (s sel : list (Slot (list (Slot Z))))
    (offset : list Z) (values : list (Slot Z)) (starts : list (Slot nat)) :
  Forall2 (fun x c => index s x = Some c) offset sel ->
  select_list_items p (LargeListArray p s) offset (LargeListBuilder p values starts)
  = Some (LargeListBuilder p (append_lists sel (values, starts)).1
                             (append_lists sel (values, starts)).2).
Proof.
  intros H. unfold select_list_items.
  revert values starts.
  induction H as [|x c offset sel Hx _ IH]; intros values starts.
  - reflexivity.
  - cbn [for_each value_builder mbind option_bind].
    rewrite (value_slice_list p s x c Hx).
    cbn [mbind option_bind select_typed_items].
    rewrite decide_True by reflexivity.
    cbn [mbind option_bind with_value_builder].
    rewrite decide_True by reflexivity.
    cbn [mbind option_bind AppendList].
    rewrite IH, append_lists_cons. reflexivity.
Qed.

Lemma deserialize_list (p : PrimType) (sel : list (Slot (list (Slot Z))))
    (values : list (Slot Z)) (starts : list (Slot nat)) (rest : list byte) :
  Forall (fun c => Z.of_nat (length (snd c)) < 2 ^ 63
                   /\ Forall (fun e => in_range p (snd e)) (snd c)) sel ->
  deserialize_list_items p (Z.of_nat (length sel))
    (concat (wire_list p ∘ snd <$> sel) ++ rest, LargeListBuilder p values starts)
  = Some (rest, LargeListBuilder p (append_lists sel (values, starts)).1
                                   (append_lists sel (values, starts)).2).
Proof.
  intros H. unfold deserialize_list_items. rewrite repeat_n_of_nat.
  revert values starts.
  induction H as [|c sel [Hlen Hc] _ IH]; intros values starts.
  - reflexivity.
  - cbn [length iterate fmap list_fmap concat compose value_builder mbind option_bind].
    unfold wire_list at 1. rewrite <- !app_assoc.
    change 8%nat with (sizeof Int64).
    rewrite get_pod_put; [|unfold in_range; simpl; lia].
    cbn [mbind option_bind].
    rewrite deserialize_numeric by exact Hc.
    cbn [mbind option_bind with_value_builder AppendList].
    rewrite !decide_True by reflexivity.
    cbn [mbind option_bind AppendList].
    rewrite IH, append_lists_cons. reflexivity.
Qed.

(** ** One column through the three dispatchers *)

Lemma take_rows_type (a sel : Array) (offset : list Z) :
  take_rows a offset = Some sel -> array_type sel = array_type a.
Proof.
  destruct a; simpl; intros H;
    try (apply fmap_Some in H; destruct H as (sl & _ & ->); reflexivity);
    injection H as <-; reflexivity.
Qed.

Lemma take_rows_length (a sel : Array) (offset : list Z) :
  take_rows a offset = Some sel -> array_length sel = Z.of_nat (length offset).
Proof.
  destruct a; simpl; intros H;
    try (apply fmap_Some in H; destruct H as (sl & H & ->);
         apply mapM_Some in H; apply Forall2_length in H; simpl; lia);
    injection H as <-; reflexivity.
Qed.

Lemma selected_Forall {A} (P : A -> Prop) (s sl : list A) (offset : list Z) :
  Forall P s -> Forall2 (fun x c => index s x = Some c) offset sl -> Forall P sl.
Proof.
  intros Hs H. induction H as [|x c offset sl Hx _ IH]; constructor; [|exact IH].
  unfold index in Hx. destruct (decide (0 <= x)); [|discriminate].
  eapply Forall_lookup_1; [exact Hs | exact Hx].
Qed.

Lemma take_rows_wf (a sel : Array) (offset : list Z) :
  wf_array a -> take_rows a offset = Some sel -> wf_array sel.
Proof.
  destruct a; simpl; intros Hwf H;
    try (apply fmap_Some in H; destruct H as (sl & H & ->);
         apply mapM_Some in H; simpl; eapply selected_Forall; eassumption);
    injection H as <-; exact I.
Qed.

Lemma take_rows_total (a : Array) (offset : list Z) :
  Forall (fun x => 0 <= x < array_length a) offset ->
  exists sel, take_rows a offset = Some sel.
Proof.
  destruct a; simpl; intros H; eauto;
    destruct (mapM_index_total slots offset H) as [sl ->]; simpl; eauto.
Qed.

Lemma column_paths (a sel : Array) (offset : list Z) (b0 : ArrayBuilder) :
  supported (array_type a) ->
  builder_type b0 = array_type a ->
  take_rows a offset = Some sel ->
  wf_array sel ->
  SelectItems a offset b0 = Some (append_rows b0 sel)
  /\ (forall arc, SerializeSelectedItems arc a offset = Some (arc ++ wire_column sel))
  /\ (forall rest,
        DeserializeSelectedItems (Z.of_nat (length offset)) (wire_column sel ++ rest, b0)
        = Some (rest, append_rows b0 sel)).
Proof.
  intros Hsup Hty Hsel Hwf.
  destruct a as [p s|s|n|p s|name n]; simpl in Hsup; [| | | |contradiction];
    destruct b0 as [p' b0|b0|n'|p' values starts|name']; simpl in Hty; try discriminate;
    try (injection Hty as ->); simpl in Hsel.
  - apply fmap_Some in Hsel. destruct Hsel as (sl & Hsl & ->).
    apply mapM_Some in Hsl. pose proof (Forall2_length _ _ _ Hsl) as Hlen.
    unfold SelectItems, SerializeSelectedItems, DeserializeSelectedItems.
    simpl in *. rewrite Hlen. split; [|split]; intros.
    + apply select_numeric; assumption.
    + apply serialize_numeric_wire; assumption.
    + apply deserialize_numeric; assumption.
  - apply fmap_Some in Hsel. destruct Hsel as (sl & Hsl & ->).
    apply mapM_Some in Hsl. pose proof (Forall2_length _ _ _ Hsl) as Hlen.
    unfold SelectItems, SerializeSelectedItems, DeserializeSelectedItems.
    simpl in *. rewrite Hlen. split; [|split]; intros.
    + apply select_string; assumption.
    + apply serialize_string_wire; assumption.
    + apply deserialize_string; assumption.
  - injection Hsel as <-.
    unfold SelectItems, SerializeSelectedItems, DeserializeSelectedItems. simpl.
    unfold select_null_items, serialize_null_items. simpl.
    rewrite decide_True by lia. rewrite Nat2Z.id.
    split; [|split]; intros; try reflexivity. rewrite app_nil_r. reflexivity.
  - apply fmap_Some in Hsel. destruct Hsel as (sl & Hsl & ->).
    apply mapM_Some in Hsl. pose proof (Forall2_length _ _ _ Hsl) as Hlen.
    unfold SelectItems, SerializeSelectedItems, DeserializeSelectedItems.
    simpl in *. rewrite Hlen. split; [|split]; intros.
    + apply select_list; assumption.
    + apply serialize_list_wire; assumption.
    + apply deserialize_list; assumption.
Qed.

(** ** The column loops *)

Section ColumnLoops.
Variable rb : RecordBatch.
Variable offset : list Z.

Lemma select_loop (cols_done cols : list Array) (done bs : list ArrayBuilder)
    (sels : list Array) :
  columns rb = cols_done ++ cols ->
  length cols_done = length done ->
  aligned offset cols bs sels ->
  for_each (select_column rb offset) (done ++ bs) (seq (length done) (length bs))
  = Some (done ++ zip_with append_rows bs sels).
Proof.
  intros Hcols Hlen [Hb Hs]. revert cols_done done sels Hcols Hlen Hs.
  induction Hb as [|a b cols bs [Hsup Hty] _ IH]; intros cols_done done sels Hcols Hlen Hs.
  - reflexivity.
  - inversion Hs as [|a' sel cols' sels' [Hsel Hwf] Hs']; subst.
    assert (select_column rb offset (done ++ b :: bs) (length done)
            = Some (done ++ append_rows b sel :: bs)) as Hstep.
    { unfold select_column.
      rewrite Hcols, (list_lookup_middle cols_done cols a (length done))
        by (symmetry; exact Hlen).
      simpl. rewrite list_lookup_middle by reflexivity. simpl.
      destruct (column_paths a sel offset b Hsup Hty Hsel Hwf) as (-> & _ & _). simpl.
      rewrite insert_app_r_alt by lia. rewrite Nat.sub_diag. reflexivity. }
    cbn [length seq for_each zip_with]. rewrite Hstep. cbn [mbind option_bind].
    rewrite (cons_middle _ done bs), app_assoc.
    replace (S (length done)) with (length (done ++ [append_rows b sel]))
      by (rewrite length_app; simpl; lia).
    rewrite (IH (cols_done ++ [a]) (done ++ [append_rows b sel]) sels').
    + rewrite <- app_assoc. reflexivity.
    + rewrite Hcols, <- app_assoc. reflexivity.
    + rewrite !length_app. simpl. lia.
    + exact Hs'.
Qed.

Lemma serialize_loop (cols_done cols : list Array) (sels : list Array) (arc : InArchive) :
  columns rb = cols_done ++ cols ->
  Forall (fun a => supported (array_type a)) cols ->
  Forall2 (fun a sel => take_rows a offset = Some sel /\ wf_array sel) cols sels ->
  for_each (serialize_column rb offset) arc (seq (length cols_done) (length cols))
  = Some (arc ++ concat (wire_column <$> sels)).
Proof.
  intros Hcols Hsup Hs. revert cols_done arc Hcols Hsup.
  induction Hs as [|a sel cols sels [Hsel Hwf] _ IH]; intros cols_done arc Hcols Hsup.
  - simpl. rewrite app_nil_r. reflexivity.
  - inversion Hsup as [|a' cols' Ha Hsup']; subst.
    assert (serialize_column rb offset arc (length cols_done)
            = Some (arc ++ wire_column sel)) as Hstep.
    { unfold serialize_column.
      rewrite Hcols, list_lookup_middle by reflexivity. simpl.
      destruct (column_paths a sel offset (MakeBuilder (array_type a)) Ha) as (_ & -> & _);
        [destruct a; reflexivity | exact Hsel | exact Hwf |]. reflexivity. }
    cbn [length seq for_each fmap list_fmap concat]. rewrite Hstep.
    cbn [mbind option_bind].
    replace (S (length cols_done)) with (length (cols_done ++ [a]))
      by (rewrite length_app; simpl; lia).
    rewrite (IH (cols_done ++ [a])).
    + rewrite <- app_assoc. reflexivity.
    + rewrite Hcols, <- app_assoc. reflexivity.
    + exact Hsup'.
Qed.

Lemma deserialize_loop (cols : list Array) (done bs : list ArrayBuilder)
    (sels : list Array) (rest : list byte) :
  aligned offset cols bs sels ->
  for_each (deserialize_column (Z.of_nat (length offset)))
           (concat (wire_column <$> sels) ++ rest, done ++ bs)
           (seq (length done) (length bs))
  = Some (rest, done ++ zip_with append_rows bs sels).
Proof.
  intros [Hb Hs]. revert done sels Hs.
  induction Hb as [|a b cols bs [Hsup Hty] _ IH]; intros done sels Hs.
  - inversion Hs; subst. reflexivity.
  - inversion Hs as [|a' sel cols' sels' [Hsel Hwf] Hs']; subst.
    assert (deserialize_column (Z.of_nat (length offset))
              (wire_column sel ++ concat (wire_column <$> sels') ++ rest, done ++ b :: bs)
              (length done)
            = Some (concat (wire_column <$> sels') ++ rest, done ++ append_rows b sel :: bs))
      as Hstep.
    { unfold deserialize_column.
      rewrite list_lookup_middle by reflexivity. simpl.
      destruct (column_paths a sel offset b Hsup Hty Hsel Hwf) as (_ & _ & ->). simpl.
      rewrite insert_app_r_alt by lia. rewrite Nat.sub_diag. reflexivity. }
    cbn [length seq for_each zip_with fmap list_fmap concat].
    rewrite <- app_assoc, Hstep. cbn [mbind option_bind].
    rewrite (cons_middle _ done bs), app_assoc.
    replace (S (length done)) with (length (done ++ [append_rows b sel]))
      by (rewrite length_app; simpl; lia).
    rewrite (IH (done ++ [append_rows b sel]) sels' Hs').
    rewrite <- app_assoc. reflexivity.
Qed.
End ColumnLoops.

(** ** Whole batches *)

Lemma append_lists_starts (sl : list (Slot (list (Slot Z)))) (values : list (Slot Z))
    (starts : list (Slot nat)) :
  length (append_lists sl (values, starts)).2 = (length starts + length sl)%nat.
Proof.
  revert values starts. induction sl as [|c sl IH]; intros values starts.
  - simpl. lia.
  - rewrite append_lists_cons, IH, length_app. simpl. lia.
Qed.

Lemma list_slots_length (values : list (Slot Z)) (starts : list (Slot nat)) (stop : nat) :
  length (list_slots values starts stop) = length starts.
Proof. induction starts as [|[v s] rest IH]; simpl; [reflexivity | rewrite IH; reflexivity]. Qed.

Lemma rebuilt_length (sel : Array) :
  supported (array_type sel) -> array_length (rebuilt sel) = array_length sel.
Proof.
  destruct sel as [p s|s|n|p s|name n]; unfold rebuilt; simpl; intros Hsup.
  - rewrite length_fmap. reflexivity.
  - rewrite length_fmap. reflexivity.
  - reflexivity.
  - rewrite list_slots_length, append_lists_starts. reflexivity.
  - contradiction.
Qed.


Lemma builder_type_MakeBuilder (t : DataType) : builder_type (MakeBuilder t) = t.
Proof. destruct t; reflexivity. Qed.

Lemma picked_rows (cols : list Array) (offset : list Z) (n : Z) :
  Forall (fun a => array_length a = n) cols ->
  Forall wf_array cols ->
  Forall (fun x => 0 <= x < n) offset ->
  exists sels,
    Forall2 (fun a sel => take_rows a offset = Some sel /\ wf_array sel) cols sels.
Proof.
  intros Hrows Hwf Hoff. induction cols as [|a cols IH].
  - exists []. constructor.
  - inversion Hrows as [|? ? Ha Hrows']; inversion Hwf as [|? ? Hwa Hwf']; subst.
    destruct (IH Hrows' Hwf') as [sels Hsels].
    destruct (take_rows_total a offset Hoff) as [sel Hsel].
    exists (sel :: sels). constructor; [|exact Hsels].
    split; [exact Hsel | eapply take_rows_wf; eassumption].
Qed.

Lemma fresh_builders_aligned (cols sels : list Array) (s : Schema) (offset : list Z) :
  array_type <$> cols = field_type <$> s ->
  Forall (fun f => supported (field_type f)) s ->
  Forall2 (fun a sel => take_rows a offset = Some sel /\ wf_array sel) cols sels ->
  aligned offset cols (MakeBuilder ∘ field_type <$> s) sels.
Proof.
  intros Hty Hsup Hsels. split; [|exact Hsels]. clear Hsels.
  revert s Hty Hsup. induction cols as [|a cols IH]; intros [|f s] Hty Hsup;
    try discriminate; [constructor|].
  simpl in Hty. injection Hty as Ha Hty. inversion Hsup; subst.
  constructor.
  - simpl. rewrite builder_type_MakeBuilder, Ha. split; [assumption | reflexivity].
  - apply IH; assumption.
Qed.

Lemma fresh_builders_finish (cols sels : list Array) (s : Schema) (offset : list Z) :
  array_type <$> cols = field_type <$> s ->
  Forall2 (fun a sel => take_rows a offset = Some sel /\ wf_array sel) cols sels ->
  Finish <$> zip_with append_rows (MakeBuilder ∘ field_type <$> s) sels = rebuilt <$> sels.
Proof.
  intros Hty Hsels. revert s Hty.
  induction Hsels as [|a sel cols sels [Hsel _] _ IH]; intros [|f s] Hty;
    try discriminate; [reflexivity|].
  simpl in Hty. injection Hty as Ha Hty.
  change (Finish (append_rows (MakeBuilder (field_type f)) sel)
            :: (Finish <$> zip_with append_rows (MakeBuilder ∘ field_type <$> s) sels)
          = rebuilt sel :: (rebuilt <$> sels)).
  rewrite (IH s Hty). f_equal.
  unfold rebuilt. rewrite (take_rows_type _ _ _ Hsel), Ha. reflexivity.
Qed.

Lemma same_length_rebuilt (cols sels : list Array) (offset : list Z) :
  Forall (fun a => supported (array_type a)) cols ->
  Forall2 (fun a sel => take_rows a offset = Some sel /\ wf_array sel) cols sels ->
  Forall (fun a => array_length a = Z.of_nat (length offset)) (rebuilt <$> sels).
Proof.
  intros Hsup Hsels. induction Hsels as [|a sel cols sels [Hsel _] _ IH]; simpl.
  - constructor.
  - inversion Hsup; subst. constructor; [|apply IH; assumption].
    rewrite rebuilt_length by (rewrite (take_rows_type _ _ _ Hsel); assumption).
    eapply take_rows_length; eassumption.
Qed.

Lemma same_length_true (fields : list Array) (n : Z) :
  Forall (fun a => array_length a = n) fields -> same_length fields = true.
Proof.
  intros H. destruct H as [|f rest Hf Hrest]; [reflexivity|]. simpl.
  apply forallb_forall. intros g Hg. rewrite Forall_forall in Hrest.
  rewrite (Hrest g) by (apply list_elem_of_In; exact Hg). rewrite Hf. apply Z.eqb_refl.
Qed.

Lemma supported_columns (rb : RecordBatch) :
  array_type <$> columns rb = field_type <$> schema rb ->
  Forall (fun f => supported (field_type f)) (schema rb) ->
  Forall (fun a => supported (array_type a)) (columns rb).
Proof.
  generalize (columns rb) (schema rb). intros cols s Hty Hsup. revert cols Hty.
  induction Hsup as [|f s Hf _ IH]; intros [|a cols] Hty; try discriminate; constructor.
  - simpl in Hty. injection Hty as -> _. exact Hf.
  - simpl in Hty. injection Hty as _ Hty. apply IH. exact Hty.
Qed.


(** The three paths on a conforming batch, in terms of the rows picked. *)
Lemma batch_paths (rb : RecordBatch) (offset : list Z) :
  conforms rb ->
  Forall (fun f => supported (field_type f)) (schema rb) ->
  valid_offsets rb offset ->
  Z.of_nat (length offset) < 2 ^ 63 ->
  exists sels,
    Forall2 (fun a sel => take_rows a offset = Some sel /\ wf_array sel) (columns rb) sels
    /\ SelectRows rb offset = Some (rebuilt_batch (schema rb) sels)
    /\ (forall arc,
          SerializeSelectedRows arc rb offset
          = Some (arc ++ le_split 8 (Z.of_nat (length offset))
                      ++ concat (wire_column <$> sels)))
    /\ (forall rest,
          DeserializeSelectedRows
            (le_split 8 (Z.of_nat (length offset)) ++ concat (wire_column <$> sels) ++ rest)
            (schema rb)
          = Some (rest, rebuilt_batch (schema rb) sels)).
Proof.
  intros [Hty Hrows Hwf Hcount] Hsup Hoff Hlen.
  destruct (picked_rows (columns rb) offset (num_rows rb) Hrows Hwf Hoff) as [sels Hsels].
  pose proof (fresh_builders_aligned _ _ _ _ Hty Hsup Hsels) as Hal.
  pose proof (supported_columns rb Hty Hsup) as Hsupc.
  assert (length (MakeBuilder ∘ field_type <$> schema rb) = length (columns rb)) as Hnb.
  { rewrite length_fmap. rewrite <- (length_fmap field_type), <- Hty, length_fmap. reflexivity. }
  assert (Flush (schema rb) (zip_with append_rows (MakeBuilder ∘ field_type <$> schema rb) sels)
          = Some (rebuilt_batch (schema rb) sels)) as Hflush.
  { unfold Flush. rewrite (fresh_builders_finish _ _ _ _ Hty Hsels).
    rewrite (same_length_true _ _ (same_length_rebuilt _ _ _ Hsupc Hsels)). reflexivity. }
  exists sels. split; [exact Hsels|]. split; [|split].
  - unfold SelectRows, RecordBatchBuilder_Make.
    rewrite decide_True by lia. cbn [mbind option_bind].
    pose proof (select_loop rb offset [] (columns rb) [] _ sels eq_refl eq_refl Hal) as Hloop.
    simpl in Hloop. rewrite Hloop. cbn [mbind option_bind]. exact Hflush.
  - intros arc. unfold SerializeSelectedRows, num_columns.
    pose proof (serialize_loop rb offset [] (columns rb) sels
                  (put_pod Int64 arc (Z.of_nat (length offset))) eq_refl Hsupc Hsels) as Hloop.
    simpl in Hloop. rewrite <- (length_fmap field_type), <- Hty, length_fmap.
    rewrite Hloop. unfold put_pod. rewrite <- app_assoc. reflexivity.
  - intros rest. unfold DeserializeSelectedRows.
    change 8%nat with (sizeof Int64).
    rewrite get_pod_put by (unfold in_range; simpl; lia).
    cbn [mbind option_bind]. unfold RecordBatchBuilder_Make.
    rewrite decide_True by lia. cbn [mbind option_bind].
    pose proof (deserialize_loop offset (columns rb) [] _ sels rest Hal) as Hloop.
    simpl in Hloop. rewrite Hloop. cbn [mbind option_bind].
    rewrite Hflush. reflexivity.
Qed.

(** ** The claims on the codec and the row selector *)

Lemma sample_batch_conforms : conforms sample_batch.
Proof. sample_conforms. Qed.

Lemma sample_schema_supported : Forall (fun f => supported (field_type f)) sample_schema.
Proof. repeat constructor. Qed.

Lemma for_each_abort {St A} (body : St -> A -> option St) (l : list A) (s : St) (x : A) :
  x ∈ l -> (forall s', body s' x = None) -> for_each body s l = None.
Proof.
  intros Hx Hbody. revert s. induction l as [|a l IH]; intros s.
  - apply elem_of_nil in Hx. contradiction.
  - apply elem_of_cons in Hx. cbn [for_each]. destruct Hx as [<-|Hx].
    + rewrite Hbody. reflexivity.
    + destruct (body s a); [apply IH; exact Hx | reflexivity].
Qed.

(** A column outside the closed set of types is fatal to the selector and to
    the serializer alike. *)
Lemma unsupported_aborts (rb : RecordBatch) (offset : list Z) :
  array_type <$> columns rb = field_type <$> schema rb ->
  ~ Forall (fun f => supported (field_type f)) (schema rb) ->
  SelectRows rb offset = None
  /\ forall arc, SerializeSelectedRows arc rb offset = None.
Proof.
  intros Hty Hnot. apply not_Forall_Exists in Hnot; [|intros f; apply _].
  apply Exists_exists in Hnot. destruct Hnot as (f & Hf & Hunsup).
  apply list_elem_of_lookup in Hf. destruct Hf as [k Hk].
  pose proof (lookup_lt_Some _ _ _ Hk) as Hlt.
  assert (exists col name, columns rb !! k = Some col /\ array_type col = Other name)
    as (col & name & Hcol & Hother).
  { pose proof (f_equal (fun l => l !! k) Hty) as Hlook. simpl in Hlook.
    rewrite !list_lookup_fmap, Hk in Hlook. simpl in Hlook.
    destruct (columns rb !! k) as [col|]; [|discriminate]. injection Hlook as Hcol.
    simpl in Hunsup.
    destruct (field_type f) as [| | | |name] eqn:Hft; try (exfalso; apply Hunsup; simpl; exact Logic.I).
    exists col, name. split; [reflexivity | exact Hcol]. }
  assert (k ∈ seq 0 (length (schema rb))) as Hin by (apply elem_of_seq; lia).
  split.
  - unfold SelectRows, RecordBatchBuilder_Make. rewrite decide_True by lia.
    cbn [mbind option_bind]. rewrite length_fmap.
    rewrite (for_each_abort _ _ _ k Hin); [reflexivity|].
    intros builder. unfold select_column. rewrite Hcol. cbn [mbind option_bind].
    destruct (builder !! k); [|reflexivity]. cbn [mbind option_bind].
    unfold SelectItems. rewrite Hother. reflexivity.
  - intros arc. unfold SerializeSelectedRows, num_columns.
    apply (for_each_abort _ _ _ k Hin).
    intros arc'. unfold serialize_column. rewrite Hcol. cbn [mbind option_bind].
    unfold SerializeSelectedItems. rewrite Hother. reflexivity.
Qed.

(** C2.  For every conforming record batch and every list of valid row
    indices, the in-process selection ([SelectRows]) and the serialization of
    the same rows into a fresh archive followed by the deserialization of
    that archive on the batch's schema have the same outcome; over the
    supported column types that outcome is a record batch, the same on both
    paths, and the deserializer leaves no byte unread (a column of another
    type is fatal on both paths). *)
Theorem select_rows_equals_codec (rb : RecordBatch) (offset : list Z) :
  conforms rb ->
  valid_offsets rb offset ->
  Z.of_nat (length offset) < 2 ^ 63 ->
  (arc ← SerializeSelectedRows [] rb offset;
   snd <$> DeserializeSelectedRows arc (schema rb)) = SelectRows rb offset
  /\ (Forall (fun f => supported (field_type f)) (schema rb) ->
      exists out,
        SelectRows rb offset = Some out
        /\ (arc ← SerializeSelectedRows [] rb offset;
            DeserializeSelectedRows arc (schema rb)) = Some ([], out)).
Proof.
  intros Hc Hoff Hlen.
  destruct (decide (Forall (fun f => supported (field_type f)) (schema rb))) as [Hsup|Hnot].
  - destruct (batch_paths rb offset Hc Hsup Hoff Hlen) as (sels & _ & Hsel & Hser & Hdes).
    specialize (Hdes []). rewrite app_nil_r in Hdes.
    split.
    + rewrite Hser, Hsel. cbn [mbind option_bind]. rewrite app_nil_l, Hdes. reflexivity.
    + intros _. exists (rebuilt_batch (schema rb) sels). split; [exact Hsel|].
      rewrite Hser. cbn [mbind option_bind]. rewrite app_nil_l. exact Hdes.
  - destruct (unsupported_aborts rb offset (conforms_types rb Hc) Hnot) as [Hsel Hser].
    split; [|contradiction]. rewrite Hser, Hsel. reflexivity.
Qed.

Lemma select_rows_equals_codec_witness :
  (arc ← SerializeSelectedRows [] sample_batch [1; 1; 0];
   snd <$> DeserializeSelectedRows arc (schema sample_batch))
  = SelectRows sample_batch [1; 1; 0]
  /\ (Forall (fun f => supported (field_type f)) (schema sample_batch) ->
      exists out,
        SelectRows sample_batch [1; 1; 0] = Some out
        /\ (arc ← SerializeSelectedRows [] sample_batch [1; 1; 0];
            DeserializeSelectedRows arc (schema sample_batch)) = Some ([], out)).
Proof.
  apply select_rows_equals_codec.
  - sample_conforms.
  - sample_offsets.
  - simpl. lia.
Defined.



(** ** Round trip over all rows *)

Lemma all_rows_length (n : Z) : length (all_rows n) = Z.to_nat n.
Proof. unfold all_rows. rewrite length_fmap, length_seq. reflexivity. Qed.

Lemma all_rows_valid (n : Z) : Forall (fun x => 0 <= x < n) (all_rows n).
Proof.
  unfold all_rows. apply Forall_fmap, Forall_forall. intros i Hi.
  apply list_elem_of_In, in_seq in Hi. simpl. lia.
Qed.

Lemma index_all {A} (pre post : list A) :
  Forall2 (fun x c => index (pre ++ post) x = Some c)
          (Z.of_nat <$> seq (length pre) (length post)) post.
Proof.
  revert pre. induction post as [|c post IH]; intros pre; [constructor|].
  simpl. constructor.
  - unfold index. rewrite decide_True by lia. rewrite Nat2Z.id.
    apply list_lookup_middle. reflexivity.
  - specialize (IH (pre ++ [c])). rewrite <- app_assoc, length_app in IH.
    simpl in IH. rewrite Nat.add_1_r in IH. exact IH.
Qed.

Lemma mapM_index_all {A} (s : list A) :
  mapM (index s) (all_rows (Z.of_nat (length s))) = Some s.
Proof.
  unfold all_rows. rewrite Nat2Z.id. apply mapM_Some. exact (index_all [] s).
Qed.

Lemma take_rows_all (a : Array) : take_rows a (all_rows (array_length a)) = Some a.
Proof.
  destruct a; simpl; rewrite ?mapM_index_all, ?all_rows_length, ?Nat2Z.id; reflexivity.
Qed.

Lemma valid_slots_rebuilt {A} (s : list (Slot A)) :
  Forall (fun c => fst c = true) s -> (fun c => (true, snd c)) <$> s = s.
Proof.
  intros H. induction H as [|[v x] s Hv _ IH]; [reflexivity|].
  simpl in *. subst v. f_equal. exact IH.
Qed.

Lemma rebuilt_flat (a : Array) : flat (array_type a) -> no_nulls a -> rebuilt a = a.
Proof.
  destruct a as [p s|s|n|p s|name n]; simpl; intros Hflat Hnn; try contradiction;
    unfold rebuilt; simpl; rewrite ?valid_slots_rebuilt by exact Hnn; reflexivity.
Qed.

Lemma flat_supported (s : Schema) :
  Forall (fun f => flat (field_type f)) s -> Forall (fun f => supported (field_type f)) s.
Proof.
  intros H. eapply Forall_impl; [exact H|].
  intros f. unfold flat, supported. destruct (field_type f); tauto.
Qed.

Lemma picked_all (cols sels : list Array) (n : Z) :
  Forall (fun a => array_length a = n) cols ->
  Forall2 (fun a sel => take_rows a (all_rows n) = Some sel /\ wf_array sel) cols sels ->
  sels = cols.
Proof.
  intros Hrows H. induction H as [|a sel cols sels [Hsel _] _ IH]; [reflexivity|].
  inversion Hrows as [|? ? Ha Hrows']; subst.
  rewrite take_rows_all in Hsel. injection Hsel as <-. f_equal. apply IH. exact Hrows'.
Qed.

Lemma rebuilt_all_flat (cols : list Array) (s : Schema) :
  array_type <$> cols = field_type <$> s ->
  Forall (fun f => flat (field_type f)) s ->
  Forall no_nulls cols ->
  rebuilt <$> cols = cols.
Proof.
  intros Hty Hflat Hnn. revert s Hty Hflat.
  induction Hnn as [|a cols Ha _ IH]; intros [|f s] Hty Hflat; try discriminate;
    [reflexivity|].
  simpl in Hty. injection Hty as Hta Hty. inversion Hflat; subst.
  change (rebuilt a :: (rebuilt <$> cols) = a :: cols).
  rewrite (IH s Hty) by assumption. rewrite rebuilt_flat; [reflexivity| |exact Ha].
  rewrite Hta. assumption.
Qed.

(** X21.  Where no list column is involved the round trip is the identity:
    for every schema with at least one column over the numeric types,
    large-utf8 and null, and every record batch conforming to it without
    cleared validity bits, deserializing the bytes produced by serializing
    all rows of the batch consumes all the bytes and yields the batch
    itself: bit-exact for numeric columns, equal by value for string
    columns. *)
Theorem round_trip_flat (rb : RecordBatch) :
  conforms rb ->
  schema rb <> [] ->
  Forall (fun f => flat (field_type f)) (schema rb) ->
  Forall no_nulls (columns rb) ->
  round_trip rb = Some ([], rb).
Proof.
  intros Hc Hne Hflat Hnn. pose proof Hc as [Hty Hrows Hwf Hcount].
  assert (Z.of_nat (length (all_rows (num_rows rb))) < 2 ^ 63) as Hlen
    by (rewrite all_rows_length; lia).
  destruct (batch_paths rb (all_rows (num_rows rb)) Hc (flat_supported _ Hflat)
              (all_rows_valid _) Hlen) as (sels & Hsels & _ & Hser & Hdes).
  rewrite (picked_all _ _ _ Hrows Hsels) in *. clear Hsels.
  unfold round_trip. rewrite Hser. cbn [mbind option_bind]. rewrite app_nil_l.
  specialize (Hdes []). rewrite app_nil_r in Hdes. rewrite Hdes. do 2 f_equal.
  unfold rebuilt_batch. rewrite (rebuilt_all_flat _ _ Hty Hflat Hnn).
  destruct rb as [s n cols]. simpl in *. f_equal.
  destruct (last cols) as [a|] eqn:Hlast; simpl.
  - apply last_Some in Hlast. destruct Hlast as [cols' ->].
    apply Forall_app in Hrows. destruct Hrows as [_ Ha]. inversion Ha; subst. reflexivity.
  - apply last_None in Hlast. subst cols. destruct s; [contradiction | discriminate].
Qed.

Lemma round_trip_flat_witness : round_trip flat_batch = Some ([], flat_batch).
Proof.
  apply round_trip_flat.
  - sample_conforms.
  - discriminate.
  - repeat constructor.
  - repeat constructor.
Defined.

(** What the round trip does to a cleared validity bit, to a batch without
    columns and to a list column. *)
Lemma round_trip_null_slot :
  round_trip null_slot_batch
  = Some ([], {| schema := schema null_slot_batch;
                 num_rows := 2;
                 columns := [ NumericArray Int64 [(true, 10); (true, -3)] ] |}).
Proof. vm_compute. reflexivity. Qed.

Lemma round_trip_no_column :
  round_trip no_column_batch = Some ([], {| schema := []; num_rows := 0; columns := [] |}).
Proof. vm_compute. reflexivity. Qed.

Lemma round_trip_list_batch :
  round_trip list_batch
  = Some ([], {| schema := list_schema;
                 num_rows := 1;
                 columns := [ LargeListArray Int32 [(true, [])] ] |}).
Proof. vm_compute. reflexivity. Qed.

Lemma select_rows_list_batch :
  SelectRows list_batch [0]
  = Some {| schema := list_schema;
            num_rows := 1;
            columns := [ LargeListArray Int32 [(true, [])] ] |}.
Proof. vm_compute. reflexivity. Qed.

Lemma null_slot_batch_conforms : conforms null_slot_batch.
Proof. sample_conforms. Qed.

Lemma list_batch_conforms : conforms list_batch.
Proof. sample_conforms. Qed.

Lemma no_column_batch_conforms : conforms no_column_batch.
Proof. sample_conforms. Qed.

(** Outside of what the design assumes of its input: a conforming batch
    whose [Int64] column has a cleared validity bit comes back with the bit
    set, and a conforming batch of three rows without columns comes back
    with no row. *)
Lemma round_trip_not_identity :
  (conforms null_slot_batch
   /\ Forall (fun f => supported (field_type f)) (schema null_slot_batch)
   /\ round_trip null_slot_batch <> Some ([], null_slot_batch))
  /\ (conforms no_column_batch
      /\ Forall (fun f => supported (field_type f)) (schema no_column_batch)
      /\ round_trip no_column_batch <> Some ([], no_column_batch)).
Proof.
  split; (split; [sample_conforms|]; split; [repeat constructor|]).
  - rewrite round_trip_null_slot. discriminate.
  - rewrite round_trip_no_column. discriminate.
Qed.

(** C1.  The round trip loses the lists.  The one-row batch on the schema
    [(l : large_list<int32>)] whose list is [7, 8, 9] conforms to its
    schema, which is over the supported types, and has no cleared validity
    bit; serializing its row and deserializing the bytes on the same schema
    consumes all the bytes and yields a batch whose list is empty, not the
    batch itself.  (The deserializer appends the elements of a row to the
    child builder before it starts the list slot for them.) *)
Theorem round_trip_loses_list :
  conforms list_batch
  /\ Forall (fun f => supported (field_type f)) (schema list_batch)
  /\ Forall no_nulls (columns list_batch)
  /\ SerializeSelectedRows [] list_batch (all_rows (num_rows list_batch))
     = Some (le_split 8 1 ++ le_split 8 3 ++ le_split 4 7 ++ le_split 4 8 ++ le_split 4 9)
  /\ round_trip list_batch
     = Some ([], {| schema := list_schema;
                    num_rows := 1;
                    columns := [ LargeListArray Int32 [(true, [])] ] |})
  /\ round_trip list_batch <> Some ([], list_batch).
Proof.
  split; [sample_conforms|]. split; [repeat constructor|].
  split; [repeat constructor|]. split; [vm_compute; reflexivity|].
  split; [exact round_trip_list_batch|].
  rewrite round_trip_list_batch. discriminate.
Qed.

(** ** List columns: what the builders hold *)

Lemma append_lists_spec (sel : list (Slot (list (Slot Z)))) (values : list (Slot Z))
    (starts : list (Slot nat)) :
  append_lists sel (values, starts)
  = (values ++ concat ((fun c : Slot (list (Slot Z)) => (fun e : Slot Z => (true, snd e)) <$> snd c) <$> sel),
     starts ++ recorded_starts (length values) sel).
Proof.
  unfold append_lists. revert values starts.
  induction sel as [|c rest IH]; intros values starts.
  - cbn. rewrite !app_nil_r. reflexivity.
  - cbn [foldl fmap list_fmap concat recorded_starts]. cbn [fst snd].
    rewrite IH. rewrite length_app, length_fmap, <- !app_assoc. reflexivity.
Qed.

Lemma list_slots_shifted (rest : list (Slot (list (Slot Z)))) (done : list (Slot Z)) :
  let values := done ++ concat ((fun c : Slot (list (Slot Z)) => (fun e : Slot Z => (true, snd e)) <$> snd c) <$> rest) in
  list_slots values ((true, length done) :: recorded_starts (length done) rest) (length values)
  = ((fun c : Slot (list (Slot Z)) => (true, (fun e : Slot Z => (true, snd e)) <$> snd c)) <$> rest) ++ [(true, [])].
Proof.
  revert done. induction rest as [|c rest IH]; intros done values; subst values.
  - cbn. rewrite app_nil_r, Nat.sub_diag. reflexivity.
  - cbn [fmap list_fmap concat recorded_starts list_slots app].
    f_equal.
    + f_equal. rewrite drop_app_length.
      replace (length done + length (snd c) - length done)%nat
        with (length ((fun e : Slot Z => (true, snd e)) <$> snd c))
        by (rewrite length_fmap; lia).
      apply take_app_length.
    + specialize (IH (done ++ ((fun e : Slot Z => (true, snd e)) <$> snd c))).
      cbn zeta in IH. rewrite length_app, length_fmap, <- app_assoc in IH.
      exact IH.
Qed.

(** Through the selector and through the codec, a list column comes back
    with its lists moved up by one row. *)
Lemma rebuilt_list (p : PrimType) (sel : list (Slot (list (Slot Z)))) :
  rebuilt (LargeListArray p sel) = LargeListArray p (shifted_lists sel).
Proof.
  unfold rebuilt. cbn [array_type MakeBuilder append_rows].
  rewrite append_lists_spec. cbn [fst snd Finish app length]. f_equal.
  destruct sel as [|c rest]; [reflexivity|].
  cbn [fmap list_fmap concat recorded_starts shifted_lists Nat.add].
  pose proof (list_slots_shifted rest ((fun e : Slot Z => (true, snd e)) <$> snd c)) as Hs.
  cbn zeta in Hs. rewrite length_fmap in Hs. exact Hs.
Qed.

(** ** Thread budget *)

Lemma thread_num_no_wrap (hw local : Z) :
  0 <= hw -> 1 <= local -> hw + local - 1 < 2 ^ 31 ->
  thread_num hw local = (hw + local - 1) / local.
Proof.
  intros Hhw Hl Hfit. unfold thread_num, to_unsigned, to_int.
  change (2 ^ 32) with 4294967296 in *. change (2 ^ 31) with 2147483648 in *.
  rewrite (Z.mod_small local) by lia.
  rewrite (Z.mod_small (hw + local)) by lia.
  rewrite (Z.mod_small (hw + local - 1)) by lia.
  assert (0 <= (hw + local - 1) / local <= hw + local - 1) as Hq.
  { split; [apply Z.div_pos; lia|].
    apply Z.div_le_upper_bound; [lia|]. nia. }
  rewrite Z.mod_small by lia.
  destruct (Z.leb_spec 2147483648 ((hw + local - 1) / local)); [lia | reflexivity].
Qed.

Lemma ceiling_quotient (hw local : Z) :
  1 <= local ->
  ((hw + local - 1) / local - 1) * local < hw <= (hw + local - 1) / local * local.
Proof.
  intros Hl. pose proof (Z.div_mod (hw + local - 1) local ltac:(lia)) as Hdm.
  pose proof (Z.mod_pos_bound (hw + local - 1) local ltac:(lia)) as Hm. nia.
Qed.

(** C7, as amended.  The thread budget [T] is the quotient of the hardware
    concurrency by the number of local workers, rounded up, with no lower
    bound; the deserializer pool gets [max(1, (T-2)/2)] workers and the
    serializer pool [max(1, T - 2 - D)], so that each pool has at least one
    worker, the serializer pool is never the smaller one, and the two I/O
    threads and the pools add up to [T] whenever [T] is at least 4. *)
Theorem thread_budget_split (hw local : Z) :
  0 <= hw -> 1 <= local -> hw + local - 1 < 2 ^ 31 ->
  let T := thread_num hw local in
  let S := serialize_thread_num T in
  let D := deserialize_thread_num T in
  (T - 1) * local < hw <= T * local
  /\ D = Z.max 1 ((T - 2) ÷ 2)
  /\ S = Z.max 1 (T - 2 - D)
  /\ 1 <= D <= S
  /\ (4 <= T -> 2 + S + D = T).
Proof.
  intros Hhw Hl Hfit. cbv zeta.
  rewrite (thread_num_no_wrap hw local Hhw Hl Hfit).
  split; [apply ceiling_quotient; exact Hl|].
  generalize ((hw + local - 1) / local). intros T.
  unfold serialize_thread_num, deserialize_thread_num.
  split; [reflexivity|]. split; [reflexivity|].
  Z.quot_rem_to_equations. lia.
Qed.

Lemma thread_budget_split_witness :
  let T := thread_num 8 3 in
  let S := serialize_thread_num T in
  let D := deserialize_thread_num T in
  (T - 1) * 3 < 8 <= T * 3
  /\ D = Z.max 1 ((T - 2) ÷ 2)
  /\ S = Z.max 1 (T - 2 - D)
  /\ 1 <= D <= S
  /\ (4 <= T -> 2 + S + D = T).
Proof. apply (thread_budget_split 8 3); lia. Defined.

(** C7, as stated, fails: with 4 hardware threads and 2 local workers the
    budget is 2, below 3; with 5 hardware threads and 1 local worker the
    budget is 5 and the serializer pool has 2 workers, not [(5-2)/2 = 1]. *)
Lemma thread_budget_not_as_specified :
  thread_num 4 2 = 2
  /\ ~ spec_thread_budget 4 2
  /\ serialize_thread_num (thread_num 5 1) = 2
  /\ deserialize_thread_num (thread_num 5 1) = 1
  /\ ~ spec_thread_budget 5 1.
Proof.
  split; [reflexivity|]. split.
  - unfold spec_thread_budget. change (thread_num 4 2) with 2. cbv zeta. lia.
  - split; [reflexivity|]. split; [reflexivity|].
    unfold spec_thread_budget. change (thread_num 5 1) with 5.
    change (serialize_thread_num 5) with 2. cbv zeta.
    change ((5 - 2) ÷ 2) with 1. lia.
Qed.

(** ** Routers: the offset lists of one batch *)

Lemma all_rows_seqZ (n : Z) : all_rows n = seqZ 0 n.
Proof.
  unfold all_rows, seqZ. apply list_fmap_ext. intros i x _. lia.
Qed.

Lemma elem_of_all_rows (n r : Z) : r ∈ all_rows n <-> 0 <= r < n.
Proof. rewrite all_rows_seqZ, elem_of_seqZ. lia. Qed.

Lemma NoDup_all_rows (n : Z) : NoDup (all_rows n).
Proof. rewrite all_rows_seqZ. apply NoDup_seqZ. Qed.

Lemma all_rows_sorted (n : Z) : StronglySorted Z.lt (all_rows n).
Proof.
  unfold all_rows. generalize (Z.to_nat n) as k. intros k. generalize 0%nat as j.
  induction k as [|k IH]; intros j; simpl; constructor.
  - apply IH.
  - apply Forall_fmap, Forall_forall. intros i Hi.
    apply list_elem_of_In, in_seq in Hi. simpl. lia.
Qed.

Lemma filter_sorted {A} (R : A -> A -> Prop) (P : A -> Prop) `{!forall x, Decision (P x)}
    (l : list A) :
  StronglySorted R l -> StronglySorted R (filter P l).
Proof.
  induction 1 as [|x l Hl IH Hx]; [constructor|].
  rewrite filter_cons. destruct (decide (P x)); [|exact IH].
  constructor; [exact IH|].
  apply Forall_forall. intros y Hy. apply list_elem_of_filter in Hy.
  rewrite Forall_forall in Hx. apply Hx. tauto.
Qed.

Lemma count_occ_filter {A} (eq_dec : forall x y : A, {x = y} + {x <> y})
    (P : A -> Prop) `{!forall x, Decision (P x)} (l : list A) (r : A) :
  NoDup l -> r ∈ l ->
  count_occ eq_dec (filter P l) r = if decide (P r) then 1%nat else 0%nat.
Proof.
  intros Hnd Hr.
  destruct (decide (P r)) as [HP|HP].
  - apply NoDup_count_occ'.
    + apply NoDup_ListNoDup, NoDup_filter. exact Hnd.
    + apply list_elem_of_In, list_elem_of_filter. tauto.
  - apply count_occ_not_In. rewrite <- list_elem_of_In, list_elem_of_filter. tauto.
Qed.

Lemma push_back_lookup (ol : list (list Z)) (f0 : nat) (r : Z) :
  (f0 < length ol)%nat ->
  exists ol',
    push_back ol f0 r = Some ol'
    /\ length ol' = length ol
    /\ forall f l, ol !! f = Some l ->
         ol' !! f = Some (l ++ if decide (f = f0) then [r] else []).
Proof.
  intros Hlt. destruct (lookup_lt_is_Some_2 ol f0 Hlt) as [l0 Hl0].
  exists (<[f0 := l0 ++ [r]]> ol). unfold push_back. rewrite Hl0. simpl.
  split; [reflexivity|]. split; [apply length_insert|].
  intros f l Hl. destruct (decide (f = f0)) as [->|Hne].
  - rewrite list_lookup_insert_eq by exact Hlt. congruence.
  - rewrite list_lookup_insert_ne by congruence. rewrite app_nil_r. exact Hl.
Qed.

Section RouterScans.
Variable oid_type : DataType.
Variable GetPartitionId : Oid -> nat.
Variable GetFid : Z -> nat.

Lemma scan_vertex_rows (id_col : Array) (rows : list Z) (ol : list (list Z)) :
  Forall (fun r => exists f, vertex_fid oid_type GetPartitionId id_col r = Some f
                             /\ (f < length ol)%nat) rows ->
  exists ol',
    for_each (scan_vertex_row oid_type GetPartitionId id_col) ol rows = Some ol'
    /\ length ol' = length ol
    /\ forall f l, ol !! f = Some l ->
         ol' !! f
         = Some (l ++ filter (fun r => vertex_fid oid_type GetPartitionId id_col r = Some f)
                             rows).
Proof.
  intros H. revert ol H. induction rows as [|r rows IH]; intros ol H.
  - exists ol. split; [reflexivity|]. split; [reflexivity|].
    intros f l Hl. rewrite app_nil_r. exact Hl.
  - inversion H as [|? ? (f0 & Hf0 & Hlt) H']; subst.
    destruct (push_back_lookup ol f0 r Hlt) as (ol1 & Hpush & Hlen1 & Hlook1).
    rewrite <- Hlen1 in H'.
    destruct (IH ol1 H') as (ol' & Hrun & Hlen' & Hlook').
    exists ol'. split; [|split].
    + assert (scan_vertex_row oid_type GetPartitionId id_col ol r = Some ol1) as Hrow
        by (unfold scan_vertex_row; rewrite Hf0; exact Hpush).
      cbn [for_each]. rewrite Hrow. exact Hrun.
    + lia.
    + intros f l Hl. rewrite (Hlook' f _ (Hlook1 f l Hl)). f_equal.
      rewrite <- app_assoc. f_equal. rewrite filter_cons, Hf0.
      destruct (decide (f = f0)) as [->|Hne].
      * rewrite decide_True by reflexivity. reflexivity.
      * rewrite decide_False by congruence. reflexivity.
Qed.

Lemma scan_edge_rows (src_col dst_col : list Z) (rows : list Z) (ol : list (list Z)) :
  Forall (fun r => exists sf df, edge_fids GetFid src_col dst_col r = Some (sf, df)
                                 /\ (sf < length ol)%nat /\ (df < length ol)%nat) rows ->
  exists ol',
    for_each (scan_edge_row GetFid src_col dst_col) ol rows = Some ol'
    /\ length ol' = length ol
    /\ forall f l, ol !! f = Some l ->
         ol' !! f = Some (l ++ filter (edge_routed GetFid src_col dst_col f) rows).
Proof.
  intros H. revert ol H. induction rows as [|r rows IH]; intros ol H.
  - exists ol. split; [reflexivity|]. split; [reflexivity|].
    intros f l Hl. rewrite app_nil_r. exact Hl.
  - inversion H as [|? ? (sf & df & Hfids & Hsf & Hdf) H']; subst.
    destruct (push_back_lookup ol sf r Hsf) as (ol1 & Hpush1 & Hlen1 & Hlook1).
    assert (exists ol2,
               scan_edge_row GetFid src_col dst_col ol r = Some ol2
               /\ length ol2 = length ol
               /\ forall f l, ol !! f = Some l ->
                    ol2 !! f = Some (l ++ if decide (f = sf \/ f = df) then [r] else []))
      as (ol2 & Hrow & Hlen2 & Hlook2).
    { unfold scan_edge_row. rewrite Hfids. cbn [mbind option_bind]. rewrite Hpush1.
      cbn [mbind option_bind]. destruct (decide (sf <> df)) as [Hne|Heq].
      - rewrite <- Hlen1 in Hdf.
        destruct (push_back_lookup ol1 df r Hdf) as (ol2 & Hpush2 & Hlen2 & Hlook2).
        exists ol2. split; [exact Hpush2|]. split; [lia|].
        intros f l Hl. rewrite (Hlook2 f _ (Hlook1 f l Hl)). f_equal.
        rewrite <- app_assoc. f_equal.
        repeat case_decide; try reflexivity; try tauto; congruence.
      - apply dec_stable in Heq. subst df.
        exists ol1. split; [reflexivity|]. split; [exact Hlen1|].
        intros f l Hl. rewrite (Hlook1 f l Hl). f_equal. f_equal.
        repeat case_decide; try reflexivity; tauto. }
    rewrite <- Hlen2 in H'.
    destruct (IH ol2 H') as (ol' & Hrun & Hlen' & Hlook').
    exists ol'. split; [|split].
    + cbn [for_each]. rewrite Hrow. exact Hrun.
    + lia.
    + intros f l Hl. rewrite (Hlook' f _ (Hlook2 f l Hl)). f_equal.
      rewrite <- app_assoc. f_equal.
      assert (edge_routed GetFid src_col dst_col f r <-> f = sf \/ f = df) as Hiff
        by (unfold edge_routed; rewrite Hfids; reflexivity).
      destruct (decide (f = sf \/ f = df)).
      * rewrite filter_cons_True by (apply Hiff; assumption). reflexivity.
      * rewrite filter_cons_False by (rewrite Hiff; assumption). reflexivity.
Qed.
End RouterScans.

Section RouterBatches.
Variable oid_type : DataType.
Variable GetPartitionId : Oid -> nat.
Variable vid_type : PrimType.
Variable GetFid : Z -> nat.

Lemma scan_vertex_batch_closed (fragments : nat) (rb : RecordBatch) (id_col : Array) :
  vertex_routable oid_type GetPartitionId fragments rb id_col ->
  exists ol,
    scan_vertex_batch oid_type GetPartitionId fragments rb = Some ol
    /\ length ol = fragments
    /\ forall f, (f < fragments)%nat ->
         ol !! f = Some (vertex_offsets oid_type GetPartitionId id_col (num_rows rb) f).
Proof.
  intros [Hcol Hrows].
  destruct (scan_vertex_rows oid_type GetPartitionId id_col
              (all_rows (num_rows rb)) (resize fragments)) as (ol & Hrun & Hlen & Hlook).
  { apply Forall_forall. intros r Hr. apply elem_of_all_rows in Hr.
    unfold resize. rewrite length_replicate. apply Hrows. exact Hr. }
  exists ol. unfold scan_vertex_batch. rewrite Hcol. cbn [mbind option_bind].
  split; [exact Hrun|]. split.
  - rewrite Hlen. apply length_replicate.
  - intros f Hf. apply (Hlook f []). apply lookup_replicate_2. exact Hf.
Qed.

Lemma scan_edge_batch_closed (src_col_id dst_col_id : Z) (fragments : nat)
    (rb : RecordBatch) (src_col dst_col : list Z) :
  edge_routable vid_type GetFid src_col_id dst_col_id fragments rb src_col dst_col ->
  exists ol,
    scan_edge_batch vid_type GetFid src_col_id dst_col_id fragments rb = Some ol
    /\ length ol = fragments
    /\ forall f, (f < fragments)%nat ->
         ol !! f = Some (edge_offsets GetFid src_col dst_col (num_rows rb) f).
Proof.
  intros (Hsrc & Hdst & Hrows).
  destruct (scan_edge_rows GetFid src_col dst_col
              (all_rows (num_rows rb)) (resize fragments)) as (ol & Hrun & Hlen & Hlook).
  { apply Forall_forall. intros r Hr. apply elem_of_all_rows in Hr.
    unfold resize. rewrite length_replicate. apply Hrows. exact Hr. }
  exists ol. unfold scan_edge_batch. rewrite Hsrc, Hdst. cbn [mbind option_bind].
  split; [exact Hrun|]. split.
  - rewrite Hlen. apply length_replicate.
  - intros f Hf. apply (Hlook f []). apply lookup_replicate_2. exact Hf.
Qed.
End RouterBatches.

(** Offset lists that are a filter of the row ids are increasing and in
    range. *)
Lemma filtered_rows_sorted (P : Z -> Prop) `{!forall x, Decision (P x)} (n : Z) :
  StronglySorted Z.lt (filter P (all_rows n))
  /\ Forall (fun x => 0 <= x < n) (filter P (all_rows n)).
Proof.
  split.
  - apply filter_sorted, all_rows_sorted.
  - apply Forall_forall. intros x Hx. apply list_elem_of_filter in Hx.
    apply elem_of_all_rows. tauto.
Qed.

(** Occurrences of a row across all the lists of a batch. *)
Lemma count_occ_indexed {A} (eq_dec : forall x y : A, {x = y} + {x <> y})
    (g : nat -> list A) (P : nat -> Prop) `{!forall x, Decision (P x)}
    (l : list nat) (r : A) :
  (forall f, f ∈ l -> count_occ eq_dec (g f) r = if decide (P f) then 1%nat else 0%nat) ->
  count_occ eq_dec (concat (g <$> l)) r = length (filter P l).
Proof.
  induction l as [|f l IH]; intros Hg; [reflexivity|].
  rewrite fmap_cons. cbn [concat]. rewrite count_occ_app, filter_cons.
  rewrite (Hg f) by (apply elem_of_cons; left; reflexivity).
  rewrite IH by (intros f' Hf'; apply Hg, elem_of_cons; right; exact Hf').
  destruct (decide (P f)); reflexivity.
Qed.

Lemma lists_by_index {A} (ol : list (list A)) (g : nat -> list A) :
  (forall f, (f < length ol)%nat -> ol !! f = Some (g f)) ->
  ol = g <$> seq 0 (length ol).
Proof.
  intros H. apply list_eq. intros i.
  rewrite list_lookup_fmap.
  destruct (decide (i < length ol)%nat) as [Hi|Hi].
  - rewrite (H i Hi), lookup_seq_lt by exact Hi. reflexivity.
  - rewrite lookup_ge_None_2 by lia. rewrite lookup_seq_ge by lia. reflexivity.
Qed.

Lemma filter_one (fragments a : nat) :
  (a < fragments)%nat -> length (filter (fun f => f = a) (seq 0 fragments)) = 1%nat.
Proof.
  intros Ha.
  assert (filter (fun f => f = a) (seq 0 fragments) ≡ₚ [a]) as ->; [|reflexivity].
  apply NoDup_Permutation.
  - apply NoDup_filter, NoDup_seq.
  - apply NoDup_singleton.
  - intros f. rewrite list_elem_of_filter, elem_of_seq, list_elem_of_singleton. lia.
Qed.

Lemma filter_one_or_two (fragments a b : nat) :
  (a < fragments)%nat -> (b < fragments)%nat ->
  length (filter (fun f => f = a \/ f = b) (seq 0 fragments))
  = if decide (a = b) then 1%nat else 2%nat.
Proof.
  intros Ha Hb. destruct (decide (a = b)) as [->|Hne].
  - assert (filter (fun f => f = b \/ f = b) (seq 0 fragments) ≡ₚ [b]) as ->; [|reflexivity].
    apply NoDup_Permutation.
    + apply NoDup_filter, NoDup_seq.
    + apply NoDup_singleton.
    + intros f. rewrite list_elem_of_filter, elem_of_seq, list_elem_of_singleton. lia.
  - assert (filter (fun f => f = a \/ f = b) (seq 0 fragments) ≡ₚ [a; b]) as ->; [|reflexivity].
    apply NoDup_Permutation.
    + apply NoDup_filter, NoDup_seq.
    + apply NoDup_cons. split; [|apply NoDup_singleton].
      rewrite list_elem_of_singleton. exact Hne.
    + intros f. rewrite list_elem_of_filter, elem_of_seq, !elem_of_cons, elem_of_nil. lia.
Qed.

(** ** The claims on the offset lists *)

Lemma sample_vertex_routable :
  vertex_routable (Prim Int64) sample_partitioner 2 sample_vertex_batch
    (NumericArray Int64 [(true, 1); (true, 2); (true, 3)]).
Proof.
  split; [reflexivity|]. intros r Hr. simpl in Hr.
  assert (r = 0 \/ r = 1 \/ r = 2) as [->|[->| ->]] by lia;
    eexists; (split; [reflexivity | vm_compute; lia]).
Qed.

Lemma sample_edge_routable :
  edge_routable UInt64 sample_id_parser 0 1 2 sample_edge_batch
    [1; 4294967301] [4294967298; 4294967303].
Proof.
  split; [reflexivity|]. split; [reflexivity|]. intros r Hr. simpl in Hr.
  assert (r = 0 \/ r = 1) as [->| ->] by lia;
    eexists; eexists; (split; [reflexivity | vm_compute; lia]).
Qed.

(** C10.  For a batch whose rows the router can read and map to one of the
    [fragments] fragments, the scan of the vertex router and the scan of the
    edge router each return a vector of exactly [fragments] offset lists,
    every one of which is strictly increasing and holds only row indices in
    [0, row count). *)
Theorem offset_lists_invariant (oid_type : DataType) (GetPartitionId : Oid -> nat)
    (vid_type : PrimType) (GetFid : Z -> nat) (src_col_id dst_col_id : Z)
    (fragments : nat) (vb : RecordBatch) (id_col : Array)
    (eb : RecordBatch) (src_col dst_col : list Z) :
  vertex_routable oid_type GetPartitionId fragments vb id_col ->
  edge_routable vid_type GetFid src_col_id dst_col_id fragments eb src_col dst_col ->
  (exists ol,
      scan_vertex_batch oid_type GetPartitionId fragments vb = Some ol
      /\ length ol = fragments
      /\ Forall (fun l => StronglySorted Z.lt l
                          /\ Forall (fun x => 0 <= x < num_rows vb) l) ol)
  /\ (exists ol,
         scan_edge_batch vid_type GetFid src_col_id dst_col_id fragments eb = Some ol
         /\ length ol = fragments
         /\ Forall (fun l => StronglySorted Z.lt l
                             /\ Forall (fun x => 0 <= x < num_rows eb) l) ol).
Proof.
  intros Hv He. split.
  - destruct (scan_vertex_batch_closed _ _ _ _ _ Hv) as (ol & Hrun & Hlen & Hlook).
    exists ol. split; [exact Hrun|]. split; [exact Hlen|].
    apply Forall_lookup. intros f l Hl.
    pose proof (lookup_lt_Some _ _ _ Hl) as Hf. rewrite Hlen in Hf.
    rewrite (Hlook f Hf) in Hl. injection Hl as <-. apply filtered_rows_sorted.
  - destruct (scan_edge_batch_closed _ _ _ _ _ _ _ _ He) as (ol & Hrun & Hlen & Hlook).
    exists ol. split; [exact Hrun|]. split; [exact Hlen|].
    apply Forall_lookup. intros f l Hl.
    pose proof (lookup_lt_Some _ _ _ Hl) as Hf. rewrite Hlen in Hf.
    rewrite (Hlook f Hf) in Hl. injection Hl as <-. apply filtered_rows_sorted.
Qed.

Lemma offset_lists_invariant_witness :
  (exists ol,
      scan_vertex_batch (Prim Int64) sample_partitioner 2 sample_vertex_batch = Some ol
      /\ length ol = 2%nat
      /\ Forall (fun l => StronglySorted Z.lt l
                          /\ Forall (fun x => 0 <= x < num_rows sample_vertex_batch) l) ol)
  /\ (exists ol,
         scan_edge_batch UInt64 sample_id_parser 0 1 2 sample_edge_batch = Some ol
         /\ length ol = 2%nat
         /\ Forall (fun l => StronglySorted Z.lt l
                             /\ Forall (fun x => 0 <= x < num_rows sample_edge_batch) l) ol).
Proof.
  exact (offset_lists_invariant _ _ _ _ _ _ _ _ _ _ _ _
           sample_vertex_routable sample_edge_routable).
Defined.

(** C4.  In the scan of the edge router, with [sf] and [df] the fragments
    parsed from the source and the destination id of a row, the row index
    occurs once in the offset list of [sf], once in that of [df], and in no
    other list; over all the lists of the batch it occurs twice when the two
    fragments differ and exactly once when they are equal. *)
Theorem edge_rows_routed (vid_type : PrimType) (GetFid : Z -> nat)
    (src_col_id dst_col_id : Z) (fragments : nat) (eb : RecordBatch)
    (src_col dst_col : list Z) :
  edge_routable vid_type GetFid src_col_id dst_col_id fragments eb src_col dst_col ->
  exists ol,
    scan_edge_batch vid_type GetFid src_col_id dst_col_id fragments eb = Some ol
    /\ forall r sf df,
         0 <= r < num_rows eb ->
         edge_fids GetFid src_col dst_col r = Some (sf, df) ->
         (forall f l, ol !! f = Some l ->
            count_occ Z.eq_dec l r = if decide (f = sf \/ f = df) then 1%nat else 0%nat)
         /\ count_occ Z.eq_dec (concat ol) r = if decide (sf = df) then 1%nat else 2%nat.
Proof.
  intros He.
  destruct (scan_edge_batch_closed _ _ _ _ _ _ _ _ He) as (ol & Hrun & Hlen & Hlook).
  exists ol. split; [exact Hrun|]. intros r sf df Hr Hfids.
  assert (forall f, count_occ Z.eq_dec (edge_offsets GetFid src_col dst_col (num_rows eb) f) r
                    = if decide (f = sf \/ f = df) then 1%nat else 0%nat) as Hcount.
  { intros f. unfold edge_offsets.
    rewrite count_occ_filter by (apply NoDup_all_rows || (apply elem_of_all_rows; exact Hr)).
    assert (edge_routed GetFid src_col dst_col f r <-> f = sf \/ f = df) as Hiff
      by (unfold edge_routed; rewrite Hfids; reflexivity).
    repeat case_decide; try reflexivity; tauto. }
  split.
  - intros f l Hl. pose proof (lookup_lt_Some _ _ _ Hl) as Hf. rewrite Hlen in Hf.
    rewrite (Hlook f Hf) in Hl. injection Hl as <-. apply Hcount.
  - rewrite (lists_by_index ol (edge_offsets GetFid src_col dst_col (num_rows eb)))
      by (rewrite Hlen; exact Hlook).
    rewrite (count_occ_indexed Z.eq_dec _ (fun f => f = sf \/ f = df))
      by (intros f _; apply Hcount).
    destruct He as (_ & _ & Hrows). destruct (Hrows r Hr) as (sf' & df' & Hfids' & Hsf & Hdf).
    rewrite Hfids in Hfids'. injection Hfids' as <- <-.
    rewrite Hlen. apply filter_one_or_two; assumption.
Qed.

Lemma edge_rows_routed_witness :
  exists ol,
    scan_edge_batch UInt64 sample_id_parser 0 1 2 sample_edge_batch = Some ol
    /\ forall r sf df,
         0 <= r < num_rows sample_edge_batch ->
         edge_fids sample_id_parser [1; 4294967301] [4294967298; 4294967303] r
         = Some (sf, df) ->
         (forall f l, ol !! f = Some l ->
            count_occ Z.eq_dec l r = if decide (f = sf \/ f = df) then 1%nat else 0%nat)
         /\ count_occ Z.eq_dec (concat ol) r = if decide (sf = df) then 1%nat else 2%nat.
Proof. exact (edge_rows_routed _ _ _ _ _ _ _ _ sample_edge_routable). Defined.

(** ** Schema barrier *)

Section SchemaBarrierProofs.
Context {Buffer : Type}.
Variable SerializeSchema : Schema -> option Buffer.
Variable ReadSchema : Buffer -> option Schema.
Hypothesis SerializeSchema_ok : forall s, is_Some (SerializeSchema s).
Hypothesis ReadSchema_SerializeSchema :
  forall s b, SerializeSchema s = Some b -> ReadSchema b = Some s.

Lemma flag_sum_zero (group : list Schema) : flag_sum SerializeSchema group = 0.
Proof.
  unfold flag_sum. induction group as [|s group IH]; [reflexivity|].
  rewrite fmap_cons. cbn [foldr]. rewrite IH. unfold serialize_flag.
  destruct (SerializeSchema_ok s) as [b ->]. reflexivity.
Qed.

(** The peer the receive loop of [w] reads at stride [i]. *)
Lemma recv_step_peer (group : list Schema) (cs : CommSpec) (w : nat) (s : Schema)
    (acc : bool) (i : Z) :
  worker_id cs = Z.of_nat w -> worker_num cs = Z.of_nat (length group) ->
  (w < length group)%nat ->
  1 <= i < Z.of_nat (length group) ->
  exists src s',
    src = Z.to_nat (Z.rem (Z.of_nat w + Z.of_nat (length group) - i)
                          (Z.of_nat (length group)))
    /\ group !! src = Some s'
    /\ recv_step ReadSchema s cs (sent_buffer SerializeSchema group) acc i
       = Some (acc && bool_decide (s' = s)).
Proof.
  intros Hid Hnum Hw Hi. set (W := Z.of_nat (length group)) in *.
  assert (0 <= Z.rem (Z.of_nat w + W - i) W < W) as Hsrc.
  { rewrite Z.rem_mod_nonneg by lia. apply Z.mod_pos_bound. lia. }
  destruct (lookup_lt_is_Some_2 group (Z.to_nat (Z.rem (Z.of_nat w + W - i) W)))
    as [s' Hs']; [lia|].
  exists (Z.to_nat (Z.rem (Z.of_nat w + W - i) W)), s'.
  split; [reflexivity|]. split; [exact Hs'|].
  unfold recv_step, sent_buffer. rewrite Hid, Hnum.
  unfold index. rewrite decide_True by lia. rewrite Hs'. cbn [mbind option_bind].
  destruct (SerializeSchema_ok s') as [b Hb]. rewrite Hb. cbn [mbind option_bind].
  rewrite (ReadSchema_SerializeSchema s' b Hb). reflexivity.
Qed.

(** The accumulator is true only if every peer read by the loop has the
    schema of [w]. *)
Lemma accumulator_false (group : list Schema) (cs : CommSpec) (w : nat) (s : Schema)
    (strides : list Z) (acc : bool) :
  worker_id cs = Z.of_nat w -> worker_num cs = Z.of_nat (length group) ->
  (w < length group)%nat ->
  Forall (fun i => 1 <= i < Z.of_nat (length group)) strides ->
  exists b,
    for_each (recv_step ReadSchema s cs (sent_buffer SerializeSchema group)) acc strides
    = Some b
    /\ (b = true ->
        acc = true
        /\ forall i, i ∈ strides ->
             group !! Z.to_nat (Z.rem (Z.of_nat w + Z.of_nat (length group) - i)
                                      (Z.of_nat (length group))) = Some s).
Proof.
  intros Hid Hnum Hw Hstr. revert acc. induction Hstr as [|i strides Hi _ IH]; intros acc.
  - exists acc. split; [reflexivity|]. intros ->. split; [reflexivity|].
    intros i Hi. apply elem_of_nil in Hi. contradiction.
  - destruct (recv_step_peer group cs w s acc i Hid Hnum Hw Hi)
      as (src & s' & -> & Hs' & Hstep).
    destruct (IH (acc && bool_decide (s' = s))) as (b & Hrun & Hb).
    exists b. split; [cbn [for_each]; rewrite Hstep; exact Hrun|].
    intros ->. destruct (Hb eq_refl) as [Hacc Hall].
    apply andb_true_iff in Hacc. destruct Hacc as [-> Heq].
    apply bool_decide_eq_true in Heq. subst s'.
    split; [reflexivity|]. intros j Hj. apply elem_of_cons in Hj.
    destruct Hj as [->|Hj]; [exact Hs' | apply Hall; exact Hj].
Qed.

(** Every other peer is read at some stride. *)
Lemma stride_of_peer (W w t : Z) :
  0 <= w < W -> 0 <= t < W -> t <> w ->
  exists i, 1 <= i < W /\ Z.rem (w + W - i) W = t.
Proof.
  intros Hw Ht Hne. destruct (Z_lt_le_dec t w).
  - exists (w - t). split; [lia|].
    rewrite Z.rem_mod_nonneg by lia.
    replace (w + W - (w - t)) with (t + 1 * W) by lia.
    rewrite Z.mod_add by lia. apply Z.mod_small. lia.
  - exists (w - t + W). split; [lia|].
    rewrite Z.rem_mod_nonneg by lia.
    replace (w + W - (w - t + W)) with t by lia. apply Z.mod_small. lia.
Qed.

Lemma barrier_detects (group : list Schema) (w t : nat) (s st : Schema) :
  group !! w = Some s -> group !! t = Some st -> st <> s ->
  barrier_accumulator SerializeSchema ReadSchema group w = Some false.
Proof.
  intros Hs Ht Hne. unfold barrier_accumulator, schema_accumulator. rewrite Hs.
  cbn [mbind option_bind peer_spec worker_num].
  pose proof (lookup_lt_Some _ _ _ Hs) as Hw. pose proof (lookup_lt_Some _ _ _ Ht) as Htl.
  destruct (accumulator_false group (peer_spec group w) w s
              (seqZ 1 (Z.of_nat (length group) - 1)) true eq_refl eq_refl Hw)
    as (b & Hrun & Hb).
  { apply Forall_forall. intros i Hi. apply elem_of_seqZ in Hi. lia. }
  rewrite Hrun. destruct b; [|reflexivity]. exfalso.
  destruct (Hb eq_refl) as [_ Hall].
  assert (t <> w) as Htw by (intros ->; congruence).
  destruct (stride_of_peer (Z.of_nat (length group)) (Z.of_nat w) (Z.of_nat t))
    as (i & Hi & Hrem); [lia | lia | lia |].
  specialize (Hall i). rewrite Hrem, Nat2Z.id in Hall.
  rewrite Hall in Ht by (apply elem_of_seqZ; lia). congruence.
Qed.

(** With one schema throughout the group the barrier lets every peer pass. *)
Lemma accumulator_true (group : list Schema) (cs : CommSpec) (w : nat) (s : Schema)
    (strides : list Z) :
  worker_id cs = Z.of_nat w -> worker_num cs = Z.of_nat (length group) ->
  (w < length group)%nat ->
  Forall (fun s' => s' = s) group ->
  Forall (fun i => 1 <= i < Z.of_nat (length group)) strides ->
  for_each (recv_step ReadSchema s cs (sent_buffer SerializeSchema group)) true strides
  = Some true.
Proof.
  intros Hid Hnum Hw Hall Hstr. induction Hstr as [|i strides Hi _ IH]; [reflexivity|].
  destruct (recv_step_peer group cs w s true i Hid Hnum Hw Hi)
    as (src & s' & -> & Hs' & Hstep).
  cbn [for_each]. rewrite Hstep.
  rewrite (Forall_lookup_1 _ _ _ _ Hall Hs'). rewrite bool_decide_eq_true_2 by reflexivity.
  exact IH.
Qed.

Lemma barrier_passes (group : list Schema) (cs : CommSpec) (w : nat) (s : Schema) :
  worker_id cs = Z.of_nat w -> worker_num cs = Z.of_nat (length group) ->
  (w < length group)%nat ->
  Forall (fun s' => s' = s) group ->
  SchemaConsistent SerializeSchema ReadSchema s cs (flag_sum SerializeSchema group)
    (sent_buffer SerializeSchema group) = Some (Ok ()).
Proof.
  intros Hid Hnum Hw Hall. unfold SchemaConsistent, schema_accumulator.
  destruct (SerializeSchema_ok s) as [b ->]. rewrite flag_sum_zero.
  rewrite decide_False by lia.
  rewrite (accumulator_true group cs w s _ Hid Hnum Hw Hall); [reflexivity|].
  apply Forall_forall. intros i Hi. apply elem_of_seqZ in Hi. lia.
Qed.
End SchemaBarrierProofs.

(** C5.  When the schema of every peer serializes and the serialized form
    reads back as the schema, and two peers of the group present unequal
    schemas, then at every peer the AND accumulator of the receive loop ends
    false and the barrier returns the invalid-operation error; no peer
    returns success. *)
Theorem schema_mismatch_detected_everywhere (Buffer : Type)
    (SerializeSchema : Schema -> option Buffer) (ReadSchema : Buffer -> option Schema)
    (group : list Schema) (p q : nat) (sp sq : Schema) :
  (forall s, is_Some (SerializeSchema s)) ->
  (forall s b, SerializeSchema s = Some b -> ReadSchema b = Some s) ->
  group !! p = Some sp -> group !! q = Some sq -> sp <> sq ->
  forall w, (w < length group)%nat ->
    barrier_accumulator SerializeSchema ReadSchema group w = Some false
    /\ barrier_result SerializeSchema ReadSchema group w
       = Some (Error kInvalidOperationError)
    /\ barrier_result SerializeSchema ReadSchema group w <> Some (Ok ()).
Proof.
  intros Hser Hread Hp Hq Hne w Hw.
  destruct (lookup_lt_is_Some_2 group w Hw) as [s Hs].
  assert (barrier_accumulator SerializeSchema ReadSchema group w = Some false) as Hacc.
  { destruct (decide (sp = s)) as [->|Hps].
    - apply (barrier_detects _ _ Hser Hread group w q s sq Hs Hq). congruence.
    - apply (barrier_detects _ _ Hser Hread group w p s sp Hs Hp). congruence. }
  split; [exact Hacc|].
  assert (barrier_result SerializeSchema ReadSchema group w
          = Some (Error kInvalidOperationError)) as Hres.
  { unfold barrier_result, SchemaConsistent. unfold barrier_accumulator in Hacc.
    rewrite Hs in *. cbn [mbind option_bind] in *.
    destruct (Hser s) as [b ->]. rewrite (flag_sum_zero _ Hser).
    rewrite decide_False by lia. rewrite Hacc. reflexivity. }
  split; [exact Hres|]. rewrite Hres. discriminate.
Qed.

Lemma schema_mismatch_detected_everywhere_witness :
  barrier_accumulator (Buffer := Schema) Some Some mismatched_group 1 = Some false
  /\ barrier_result (Buffer := Schema) Some Some mismatched_group 1
     = Some (Error kInvalidOperationError)
  /\ barrier_result (Buffer := Schema) Some Some mismatched_group 1 <> Some (Ok ()).
Proof.
  apply (schema_mismatch_detected_everywhere Schema Some Some mismatched_group 0 1
           [ {| field_name := "id"; field_type := Prim Int64 |} ]
           [ {| field_name := "id"; field_type := Prim Int32 |} ]).
  - intros s. exists s. reflexivity.
  - intros s b H. symmetry. exact H.
  - reflexivity.
  - reflexivity.
  - discriminate.
  - simpl. lia.
Defined.

(** When the schema of some peer does not serialize, every peer returns the
    arrow error. *)
Lemma flag_sum_nonneg {Buffer : Type} (SerializeSchema : Schema -> option Buffer)
    (group : list Schema) :
  0 <= flag_sum SerializeSchema group.
Proof.
  unfold flag_sum. induction group as [|s group IH]; [reflexivity|].
  rewrite fmap_cons. cbn [foldr]. unfold serialize_flag at 1.
  destruct (SerializeSchema s); lia.
Qed.

Lemma flag_sum_pos {Buffer : Type} (SerializeSchema : Schema -> option Buffer)
    (group : list Schema) (p : nat) (sp : Schema) :
  group !! p = Some sp -> SerializeSchema sp = None ->
  0 < flag_sum SerializeSchema group.
Proof.
  intros Hp Hfail. revert p Hp. induction group as [|s group IH]; intros p Hp.
  - discriminate.
  - pose proof (flag_sum_nonneg SerializeSchema group) as Hnn.
    unfold flag_sum in *. rewrite fmap_cons. cbn [foldr].
    destruct p as [|p]; simpl in Hp.
    + injection Hp as ->. unfold serialize_flag at 1. rewrite Hfail. lia.
    + specialize (IH p Hp). unfold serialize_flag at 1.
      destruct (SerializeSchema s); lia.
Qed.

Lemma barrier_serialize_failure {Buffer : Type} (SerializeSchema : Schema -> option Buffer)
    (ReadSchema : Buffer -> option Schema) (group : list Schema) (p : nat) (sp : Schema) :
  group !! p = Some sp -> SerializeSchema sp = None ->
  forall w, (w < length group)%nat ->
    barrier_result SerializeSchema ReadSchema group w = Some (Error kArrowError).
Proof.
  intros Hp Hfail w Hw.
  pose proof (flag_sum_pos SerializeSchema group p sp Hp Hfail) as Hsum.
  destruct (lookup_lt_is_Some_2 group w Hw) as [s Hs].
  unfold barrier_result, SchemaConsistent. rewrite Hs. cbn [mbind option_bind].
  destruct (SerializeSchema s); [|reflexivity].
  rewrite decide_True by lia. reflexivity.
Qed.

(** ** Shuffle engine *)

Lemma mapM_shift {A B} (l : list A) (f : nat -> option B) (g : A -> option B) (k : nat) :
  (forall i x, l !! i = Some x -> f (k + i)%nat = g x) ->
  mapM f (seq k (length l)) = mapM g l.
Proof.
  revert k. induction l as [|x l IH]; intros k H; [reflexivity|].
  cbn [length seq mapM]. rewrite <- (H 0%nat x eq_refl), Nat.add_0_r.
  rewrite (IH (S k)); [reflexivity|].
  intros i y Hy. rewrite <- (H (S i) y Hy). f_equal. lia.
Qed.

Lemma mapM_indices {B} (batches : list RecordBatch) (offset_lists : list (list (list Z)))
    (body : RecordBatch -> list (list Z) -> option B) :
  length batches = length offset_lists ->
  mapM (fun i => rb ← batches !! i; ols ← offset_lists !! i; body rb ols)
       (seq 0 (length batches))
  = mapM (fun p => body p.1 p.2) (zip batches offset_lists).
Proof.
  intros Hlen.
  replace (length batches) with (length (zip batches offset_lists))
    by (rewrite length_zip_with; lia).
  apply mapM_shift. intros i [rb ols] Hi.
  apply lookup_zip_with_Some in Hi. destruct Hi as (rb' & ols' & Heq & Hrb & Hols).
  injection Heq as <- <-. simpl. rewrite Hrb, Hols. reflexivity.
Qed.

Lemma Forall2_mapM_zip {A B C} (P : A -> B -> Prop) (Q : A -> B -> C -> Prop)
    (g : A * B -> option C) (l1 : list A) (l2 : list B) :
  Forall2 P l1 l2 ->
  (forall x y, P x y -> exists z, g (x, y) = Some z /\ Q x y z) ->
  exists zs, mapM g (zip l1 l2) = Some zs
             /\ length zs = length l1
             /\ forall i x y, l1 !! i = Some x -> l2 !! i = Some y ->
                  exists z, zs !! i = Some z /\ g (x, y) = Some z /\ Q x y z.
Proof.
  intros H Hg. induction H as [|x y l1 l2 Hxy _ IH].
  - exists []. split; [reflexivity|]. split; [reflexivity|]. intros i x y Hx. discriminate.
  - destruct (Hg x y Hxy) as (z & Hz & HQ). destruct IH as (zs & Hzs & Hlen & Hlook).
    exists (z :: zs). split; [|split].
    + cbn [zip zip_with mapM]. rewrite Hz, Hzs. reflexivity.
    + simpl. lia.
    + intros [|i] x' y' Hx' Hy'; simpl in *.
      * injection Hx' as <-. injection Hy' as <-. exists z. auto.
      * apply Hlook; assumption.
Qed.

Lemma remote_fragment (wid W i : Z) :
  0 <= wid < W -> 1 <= i < W ->
  0 <= Z.rem (wid + i) W < W /\ Z.rem (wid + i) W <> wid.
Proof.
  intros Hw Hi. rewrite Z.rem_mod_nonneg by lia.
  destruct (Z_lt_le_dec (wid + i) W).
  - rewrite Z.mod_small by lia. lia.
  - replace (wid + i) with (wid + i - W + 1 * W) by lia.
    rewrite Z.mod_add by lia. rewrite Z.mod_small by lia. lia.
Qed.

Section EngineProofs.
Variable s : Schema.
Variable cs : CommSpec.
Hypothesis Hcs : wf_comm_spec cs.
Hypothesis Hsup : Forall (fun f => supported (field_type f)) s.

Lemma serialize_item_spec (rb : RecordBatch) (ols : list (list Z)) (i : Z) :
  engine_input s cs rb ols ->
  1 <= i < worker_num cs ->
  exists f o out,
    f = Z.to_nat (Z.rem (worker_id cs + i) (worker_num cs))
    /\ f <> fid cs /\ (f < fnum cs)%nat
    /\ ols !! f = Some o
    /\ SelectRows rb o = Some out
    /\ serialize_item cs rb ols i
       = Some (f, from_option id [] (SerializeSelectedRows [] rb o))
    /\ DeserializeSelectedRows (from_option id [] (SerializeSelectedRows [] rb o)) s
       = Some ([], out).
Proof.
  intros (Hconf & Hs & Hlen & Hoffs) Hi. destruct Hcs as [HW Hwid Hfid Hfnum].
  destruct (remote_fragment (worker_id cs) (worker_num cs) i Hwid Hi) as [Hrange Hne].
  set (f := Z.to_nat (Z.rem (worker_id cs + i) (worker_num cs))).
  assert (f < fnum cs)%nat as Hf by (unfold f; lia).
  destruct (lookup_lt_is_Some_2 ols f ltac:(lia)) as [o Ho].
  pose proof (Forall_lookup_1 _ _ _ _ Hoffs Ho) as [Hvalid Hcount].
  subst s.
  destruct (batch_paths rb o Hconf Hsup Hvalid Hcount) as (sels & _ & Hsel & Hser & Hdes).
  exists f, o, (rebuilt_batch (schema rb) sels).
  split; [reflexivity|]. split; [unfold f, WorkerToFrag in *; lia|]. split; [exact Hf|].
  split; [exact Ho|]. split; [exact Hsel|].
  unfold serialize_item, WorkerToFrag. fold f. rewrite Ho. cbn [mbind option_bind].
  rewrite (Hser []). cbn [mbind option_bind from_option id app].
  split; [reflexivity|]. specialize (Hdes []). rewrite app_nil_r in Hdes. exact Hdes.
Qed.
End EngineProofs.

Section EngineOutput.
Variable s : Schema.
Variable cs : CommSpec.
Hypothesis Hcs : wf_comm_spec cs.
Hypothesis Hsup : Forall (fun f => supported (field_type f)) s.

(** The queue items of one batch: one per remote fragment, none for the
    worker's own. *)
Lemma serialize_strides (rb : RecordBatch) (ols : list (list Z)) (strides : list Z) :
  engine_input s cs rb ols ->
  Forall (fun i => 1 <= i < worker_num cs) strides ->
  exists items,
    mapM (serialize_item cs rb ols) strides = Some items
    /\ Forall2 (fun i item =>
                  item.1 = Z.to_nat (Z.rem (worker_id cs + i) (worker_num cs))
                  /\ item.1 <> fid cs
                  /\ exists o out,
                       ols !! item.1 = Some o
                       /\ SerializeSelectedRows [] rb o = Some item.2
                       /\ SelectRows rb o = Some out
                       /\ DeserializeSelectedRows item.2 s = Some ([], out))
               strides items.
Proof.
  intros Hin Hstr. induction Hstr as [|i strides Hi _ IH].
  - exists []. split; [reflexivity | constructor].
  - destruct IH as (items & Hitems & Hall).
    destruct (serialize_item_spec s cs Hcs Hsup rb ols i Hin Hi)
      as (f & o & out & Hf & Hne & _ & Ho & Hsel & Hitem & Hdes).
    exists ((f, from_option id [] (SerializeSelectedRows [] rb o)) :: items).
    split; [cbn [mapM]; rewrite Hitem, Hitems; reflexivity|].
    constructor; [|exact Hall]. cbn [fst snd].
    split; [exact Hf|]. split; [exact Hne|]. exists o, out.
    split; [exact Ho|]. split; [|split; [exact Hsel | exact Hdes]].
    destruct Hin as (Hconf & Hs & _ & Hoffs).
    pose proof (Forall_lookup_1 _ _ _ _ Hoffs Ho) as [Hvalid Hcount]. subst s.
    destruct (batch_paths rb o Hconf Hsup Hvalid Hcount) as (sels & _ & _ & Hser & _).
    rewrite (Hser []). reflexivity.
Qed.

Lemma outbound_spec (threads : Z) (batches : list RecordBatch)
    (offset_lists : list (list (list Z))) :
  0 < threads ->
  Forall2 (engine_input s cs) batches offset_lists ->
  exists items,
    outbound cs threads batches offset_lists = Some (concat items)
    /\ length items = length batches
    /\ forall i rb ols, batches !! i = Some rb -> offset_lists !! i = Some ols ->
         exists its, items !! i = Some its
                     /\ mapM (serialize_item cs rb ols) (seqZ 1 (worker_num cs - 1)) = Some its.
Proof.
  intros Hthreads Hin. unfold outbound. rewrite decide_True by exact Hthreads.
  unfold serialize_batch.
  rewrite (mapM_indices batches offset_lists
             (fun rb ols => if decide (1 <= worker_num cs)
                            then mapM (serialize_item cs rb ols) (seqZ 1 (worker_num cs - 1))
                            else None))
    by (eapply Forall2_length; exact Hin).
  destruct (Forall2_mapM_zip (engine_input s cs)
              (fun rb ols its =>
                 mapM (serialize_item cs rb ols) (seqZ 1 (worker_num cs - 1)) = Some its)
              (fun p => if decide (1 <= worker_num cs)
                        then mapM (serialize_item cs p.1 p.2) (seqZ 1 (worker_num cs - 1))
                        else None)
              batches offset_lists Hin) as (items & Hitems & Hlen & Hlook).
  { intros rb ols Hrb. cbn [fst snd].
    rewrite decide_True by (destruct Hcs; assumption).
    destruct (serialize_strides rb ols (seqZ 1 (worker_num cs - 1)) Hrb) as (its & Hits & _).
    { apply Forall_forall. intros i Hi. apply elem_of_seqZ in Hi. lia. }
    exists its. split; exact Hits. }
  exists items. rewrite Hitems. split; [reflexivity|]. split; [exact Hlen|].
  intros i rb ols Hrb Hols. destruct (Hlook i rb ols Hrb Hols) as (its & Hi & _ & Hits).
  exists its. split; assumption.
Qed.

Lemma local_slices (batches : list RecordBatch) (offset_lists : list (list (list Z))) :
  Forall2 (engine_input s cs) batches offset_lists ->
  exists selected,
    mapM (local_slice cs batches offset_lists) (seq 0 (length batches)) = Some selected
    /\ length selected = length batches
    /\ forall i rb ols, batches !! i = Some rb -> offset_lists !! i = Some ols ->
         exists o out, ols !! fid cs = Some o
                       /\ SelectRows rb o = Some out
                       /\ selected !! i = Some out.
Proof.
  intros Hin. unfold local_slice.
  rewrite (mapM_indices batches offset_lists
             (fun rb ols => o ← ols !! fid cs; SelectRows rb o))
    by (eapply Forall2_length; exact Hin).
  destruct (Forall2_mapM_zip (engine_input s cs)
              (fun rb ols out => exists o, ols !! fid cs = Some o /\ SelectRows rb o = Some out)
              (fun p => o ← p.2 !! fid cs; SelectRows p.1 o)
              batches offset_lists Hin) as (selected & Hsel & Hlen & Hlook).
  { intros rb ols (Hconf & Hs & Hlen & Hoffs). cbn [fst snd].
    destruct Hcs as [HW Hwid Hfid Hfnum].
    destruct (lookup_lt_is_Some_2 ols (fid cs)) as [o Ho];
      [unfold WorkerToFrag in *; lia|].
    pose proof (Forall_lookup_1 _ _ _ _ Hoffs Ho) as [Hvalid Hcount]. subst s.
    destruct (batch_paths rb o Hconf Hsup Hvalid Hcount) as (sels & _ & Hselect & _).
    exists (rebuilt_batch (schema rb) sels).
    split; [rewrite Ho; exact Hselect|]. exists o. split; [exact Ho | exact Hselect]. }
  exists selected. split; [exact Hsel|]. split; [exact Hlen|].
  intros i rb ols Hrb Hols.
  destruct (Hlook i rb ols Hrb Hols) as (out & Hi & _ & o & Ho & Hselect).
  exists o, out. auto.
Qed.

Lemma pools_have_a_worker (threads : Z) :
  0 < serialize_thread_num threads /\ 0 < deserialize_thread_num threads.
Proof. unfold serialize_thread_num, deserialize_thread_num. lia. Qed.
End EngineOutput.

(** C6.  On batches of the shared schema with one offset list per fragment,
    and with exactly [N_rx] decodable archives received, where [N_rx] is the
    all-reduced batch count minus the local one, the engine returns; its
    output vector is the [N_rx] batches decoded from the received archives
    followed by one locally selected batch per input batch, in input order;
    and no item of the outbound queue is addressed to the worker's own
    fragment. *)
Theorem shuffle_engine_output (s : Schema) (cs : CommSpec) (batches : list RecordBatch)
    (offset_lists : list (list (list Z))) (hw total : Z) (rx : list OutArchive) :
  wf_comm_spec cs ->
  Forall (fun f => supported (field_type f)) s ->
  Forall2 (engine_input s cs) batches offset_lists ->
  Z.of_nat (length rx) = total - Z.of_nat (length batches) ->
  Forall (fun arc => is_Some (DeserializeSelectedRows arc s)) rx ->
  exists msg_out wire_batches selected,
    ShuffleTableByOffsetLists s batches offset_lists cs hw total rx
    = Some (msg_out, wire_batches ++ selected)
    /\ Z.of_nat (length wire_batches) = total - Z.of_nat (length batches)
    /\ Forall2 (fun arc rb => snd <$> DeserializeSelectedRows arc s = Some rb)
               rx wire_batches
    /\ length selected = length batches
    /\ (forall i rb ols, batches !! i = Some rb -> offset_lists !! i = Some ols ->
          exists o out, ols !! fid cs = Some o
                        /\ SelectRows rb o = Some out
                        /\ selected !! i = Some out)
    /\ Forall (fun item => item.1 <> fid cs) msg_out.
Proof.
  intros Hcs Hsup Hin Hrx Hdec.
  destruct (pools_have_a_worker (thread_num hw (local_num cs))) as [HS HD].
  destruct (outbound_spec s cs Hcs Hsup _ batches offset_lists HS Hin)
    as (items & Hout & Hlen & Hitems).
  destruct (local_slices s cs Hcs Hsup batches offset_lists Hin)
    as (selected & Hsel & Hlensel & Hlook).
  assert (exists wire_batches,
             mapM (fun arc => snd <$> DeserializeSelectedRows arc s) rx = Some wire_batches)
    as [wire_batches Hwire].
  { apply mapM_is_Some. eapply Forall_impl; [exact Hdec|].
    intros arc [[rest rb] Harc]. simpl. rewrite Harc. eexists. reflexivity. }
  exists (concat items), wire_batches, selected.
  pose proof (proj1 (mapM_Some _ _ _) Hwire) as Hall.
  split; [|split; [|split; [|split; [|split]]]].
  - unfold ShuffleTableByOffsetLists. rewrite Hout. cbn [mbind option_bind].
    rewrite decide_True by (split; [exact Hrx | exact HD]).
    rewrite Hwire. cbn [mbind option_bind]. rewrite Hsel. reflexivity.
  - rewrite <- (Forall2_length _ _ _ Hall). exact Hrx.
  - exact Hall.
  - exact Hlensel.
  - exact Hlook.
  - apply Forall_concat. apply Forall_lookup. intros i its Hi.
    pose proof (lookup_lt_Some _ _ _ Hi) as Hlt. rewrite Hlen in Hlt.
    destruct (lookup_lt_is_Some_2 batches i Hlt) as [rb Hrb].
    destruct (lookup_lt_is_Some_2 offset_lists i) as [ols Hols];
      [rewrite <- (Forall2_length _ _ _ Hin); exact Hlt|].
    destruct (Hitems i rb ols Hrb Hols) as (its' & Hi' & Hits).
    rewrite Hi in Hi'. injection Hi' as <-.
    destruct (serialize_strides s cs Hcs Hsup rb ols (seqZ 1 (worker_num cs - 1)))
      as (its' & Hits' & Hforall).
    { eapply Forall2_lookup_lr; eassumption. }
    { apply Forall_forall. intros j Hj. apply elem_of_seqZ in Hj. lia. }
    rewrite Hits in Hits'. injection Hits' as <-.
    clear -Hforall. induction Hforall as [|j it strides its (_ & Hne & _) _ IH];
      constructor; assumption.
Qed.

Lemma shuffle_engine_output_witness :
  exists msg_out wire_batches selected,
    ShuffleTableByOffsetLists vertex_schema [vertex_batch_0] sample_offset_lists
      sample_comm_spec 8 2 sample_rx
    = Some (msg_out, wire_batches ++ selected)
    /\ Z.of_nat (length wire_batches) = 2 - Z.of_nat (length [vertex_batch_0])
    /\ Forall2 (fun arc rb => snd <$> DeserializeSelectedRows arc vertex_schema = Some rb)
               sample_rx wire_batches
    /\ length selected = length [vertex_batch_0]
    /\ (forall i rb ols,
          [vertex_batch_0] !! i = Some rb -> sample_offset_lists !! i = Some ols ->
          exists o out, ols !! fid sample_comm_spec = Some o
                        /\ SelectRows rb o = Some out
                        /\ selected !! i = Some out)
    /\ Forall (fun item => item.1 <> fid sample_comm_spec) msg_out.
Proof.
  apply (shuffle_engine_output vertex_schema sample_comm_spec [vertex_batch_0]
           sample_offset_lists 8 2 sample_rx).
  - split; cbn; unfold WorkerToFrag; lia.
  - repeat constructor.
  - apply List.Forall2_cons; [|apply List.Forall2_nil].
    split; [sample_conforms|]. split; [reflexivity|]. split; [reflexivity|].
    repeat (apply List.Forall_cons || apply List.Forall_nil);
      (split; [sample_offsets | simpl; lia]).
  - reflexivity.
  - apply List.Forall_cons; [|apply List.Forall_nil]. vm_compute. eexists. reflexivity.
Defined.

(** ** The group: what one worker sends to another *)

Lemma Forall2_concat {A B} (P : A -> B -> Prop) (ls1 : list (list A)) (ls2 : list (list B)) :
  Forall2 (Forall2 P) ls1 ls2 -> Forall2 P (concat ls1) (concat ls2).
Proof. induction 1; simpl; [constructor | apply Forall2_app; assumption]. Qed.

Lemma filter_concat {A} (P : A -> Prop) `{!forall x, Decision (P x)} (ls : list (list A)) :
  filter P (concat ls) = concat (filter P <$> ls).
Proof.
  induction ls as [|l ls IH]; [reflexivity|].
  simpl. rewrite filter_app, IH. reflexivity.
Qed.

Lemma fmap_concat {A B} (f : A -> B) (ls : list (list A)) :
  f <$> concat ls = concat ((fun l : list A => f <$> l) <$> ls).
Proof.
  induction ls as [|l ls IH]; [reflexivity|].
  simpl. rewrite fmap_app, IH. reflexivity.
Qed.

(** The stride at which the serializer loop of [w] reaches [v]. *)
Lemma stride_to (W w v : Z) :
  0 <= w < W -> 0 <= v < W -> w <> v ->
  exists j0,
    1 <= j0 < W /\ Z.rem (w + j0) W = v
    /\ filter (fun j => Z.to_nat (Z.rem (w + j) W) = Z.to_nat v) (seqZ 1 (W - 1)) = [j0].
Proof.
  intros Hw Hv Hne.
  assert (forall j, 1 <= j < W ->
            Z.rem (w + j) W = if decide (w + j < W) then w + j else w + j - W) as Hrem.
  { intros j Hj. rewrite Z.rem_mod_nonneg by lia. destruct (decide (w + j < W)).
    - apply Z.mod_small. lia.
    - replace (w + j) with (w + j - W + 1 * W) at 1 by lia.
      rewrite Z.mod_add by lia. apply Z.mod_small. lia. }
  exists (if decide (w < v) then v - w else v - w + W).
  split; [destruct (decide (w < v)); lia|]. split.
  - rewrite Hrem by (destruct (decide (w < v)); lia).
    destruct (decide (w < v)); case_decide; lia.
  - apply Permutation_singleton_r. apply NoDup_Permutation.
    + apply NoDup_filter, NoDup_seqZ.
    + apply NoDup_singleton.
    + intros j. rewrite list_elem_of_filter, elem_of_seqZ, list_elem_of_singleton.
      split.
      * intros [Hj Hrange]. rewrite Hrem in Hj by lia.
        destruct (decide (w < v)); case_decide; lia.
      * intros ->. split; [|destruct (decide (w < v)); lia].
        rewrite Hrem by (destruct (decide (w < v)); lia).
        destruct (decide (w < v)); case_decide; lia.
Qed.

Lemma no_stride_to_self (W w : Z) :
  0 <= w < W ->
  filter (fun j => Z.to_nat (Z.rem (w + j) W) = Z.to_nat w) (seqZ 1 (W - 1)) = [].
Proof.
  intros Hw. apply elem_of_nil_inv. intros j Hj.
  apply list_elem_of_filter in Hj. destruct Hj as [Hj Hrange].
  apply elem_of_seqZ in Hrange.
  destruct (remote_fragment w W j Hw ltac:(lia)) as [Hr Hne]. lia.
Qed.

Section Delivery.
Variable s : Schema.
Variable cs : CommSpec.
Hypothesis Hcs : wf_comm_spec cs.
Hypothesis Hsup : Forall (fun f => supported (field_type f)) s.

(** Of the queue items of one batch, exactly one goes to each other worker:
    the serialization of the rows routed to that worker's fragment. *)
Lemma batch_delivered (rb : RecordBatch) (ols : list (list Z)) (its : list (nat * InArchive))
    (v : nat) :
  engine_input s cs rb ols ->
  (v < fnum cs)%nat -> v <> fid cs ->
  mapM (serialize_item cs rb ols) (seqZ 1 (worker_num cs - 1)) = Some its ->
  exists arc o out,
    snd <$> filter (fun item => FragToWorker item.1 = Z.of_nat v) its = [arc]
    /\ ols !! v = Some o
    /\ SelectRows rb o = Some out
    /\ DeserializeSelectedRows arc s = Some ([], out).
Proof.
  intros Hin Hv Hne Hits.
  destruct (serialize_strides s cs Hcs Hsup rb ols (seqZ 1 (worker_num cs - 1)) Hin)
    as (its' & Hits' & Hall).
  { apply Forall_forall. intros j Hj. apply elem_of_seqZ in Hj. lia. }
  rewrite Hits in Hits'. injection Hits' as <-.
  destruct Hcs as [HW Hwid Hfid Hfnum].
  destruct (stride_to (worker_num cs) (worker_id cs) (Z.of_nat v))
    as (j0 & Hj0 & Hrem & Hfilter); [lia | lia | unfold WorkerToFrag in *; lia |].
  pose proof (Forall2_filter _
                (fun j => Z.to_nat (Z.rem (worker_id cs + j) (worker_num cs))
                          = Z.to_nat (Z.of_nat v))
                (fun item : nat * list byte => FragToWorker item.1 = Z.of_nat v)
                _ _
                (fun j item (H : item.1 = Z.to_nat (Z.rem (worker_id cs + j) (worker_num cs))
                                 /\ item.1 <> fid cs
                                 /\ exists o out,
                                      ols !! item.1 = Some o
                                      /\ SerializeSelectedRows [] rb o = Some item.2
                                      /\ SelectRows rb o = Some out
                                      /\ DeserializeSelectedRows item.2 s = Some ([], out)) =>
                   ltac:(destruct H as [-> _]; unfold FragToWorker; lia))
                Hall) as Hfiltered.
  rewrite Hfilter in Hfiltered.
  apply Forall2_cons_inv_l in Hfiltered.
  destruct Hfiltered as (it & k & (Hit & _ & o & out & Ho & _ & Hsel & Hdes) & Hnil & Heq).
  apply Forall2_nil_inv_l in Hnil. subst k.
  exists it.2, o, out. rewrite Heq. split; [reflexivity|].
  rewrite Hit, Hrem, Nat2Z.id in Ho. auto.
Qed.

Lemma batch_not_delivered_to_self (rb : RecordBatch) (ols : list (list Z))
    (its : list (nat * InArchive)) :
  engine_input s cs rb ols ->
  mapM (serialize_item cs rb ols) (seqZ 1 (worker_num cs - 1)) = Some its ->
  filter (fun item => FragToWorker item.1 = Z.of_nat (fid cs)) its = [].
Proof.
  intros Hin Hits.
  destruct (serialize_strides s cs Hcs Hsup rb ols (seqZ 1 (worker_num cs - 1)) Hin)
    as (its' & Hits' & Hall).
  { apply Forall_forall. intros j Hj. apply elem_of_seqZ in Hj. lia. }
  rewrite Hits in Hits'. injection Hits' as <-.
  apply elem_of_nil_inv. intros it Hit. apply list_elem_of_filter in Hit.
  destruct Hit as [Hdst Hit]. apply list_elem_of_lookup in Hit. destruct Hit as [i Hi].
  destruct (Forall2_lookup_r _ _ _ _ _ Hall Hi) as (j & _ & _ & Hne & _).
  unfold FragToWorker in Hdst. lia.
Qed.
End Delivery.

Section PeerDelivery.
Variable scan : nat -> RecordBatch -> option (list (list Z)).
Variable s : Schema.
Variable cs : CommSpec.
Hypothesis Hcs : wf_comm_spec cs.
Hypothesis Hsup : Forall (fun f => supported (field_type f)) s.

Lemma routed_lookup (rb : RecordBatch) (ols : list (list Z)) (v : nat) (o : list Z) :
  scan (fnum cs) rb = Some ols -> ols !! v = Some o -> routed scan (fnum cs) rb v = o.
Proof. intros Hscan Ho. unfold routed. rewrite Hscan. simpl. rewrite Ho. reflexivity. Qed.

Lemma routed_selected (rb : RecordBatch) (ols : list (list Z)) (v : nat) :
  scan (fnum cs) rb = Some ols -> engine_input s cs rb ols -> (v < fnum cs)%nat ->
  exists out, SelectRows rb (routed scan (fnum cs) rb v) = Some out /\ schema out = s.
Proof.
  intros Hscan (Hconf & Hs & Hlen & Hoffs) Hv.
  destruct (lookup_lt_is_Some_2 ols v ltac:(lia)) as [o Ho].
  rewrite (routed_lookup rb ols v o Hscan Ho).
  pose proof (Forall_lookup_1 _ _ _ _ Hoffs Ho) as [Hvalid Hcount]. subst s.
  destruct (batch_paths rb o Hconf Hsup Hvalid Hcount) as (sels & _ & Hsel & _).
  exists (rebuilt_batch (schema rb) sels). split; [exact Hsel | reflexivity].
Qed.

(** The queue of a worker, batch by batch, against the rows it routes to [v]. *)
Lemma queue_delivery (batches : list RecordBatch) (offset_lists : list (list (list Z)))
    (items : list (list (nat * InArchive))) (v : nat) :
  Forall2 (fun rb ols => scan (fnum cs) rb = Some ols /\ engine_input s cs rb ols)
          batches offset_lists ->
  mapM (fun p => if decide (1 <= worker_num cs)
                 then mapM (serialize_item cs p.1 p.2) (seqZ 1 (worker_num cs - 1))
                 else None)
       (zip batches offset_lists) = Some items ->
  (v < fnum cs)%nat ->
  exists outs,
    Forall2 (fun rb out => SelectRows rb (routed scan (fnum cs) rb v) = Some out
                           /\ schema out = s) batches outs
    /\ Forall2 (fun arc out => DeserializeSelectedRows arc s = Some ([], out))
               (delivered v (concat items))
               (if decide (v = fid cs) then [] else outs).
Proof.
  intros Hin Hitems Hv. revert items Hitems.
  induction Hin as [|rb ols batches offset_lists [Hscan Hrb] _ IH]; intros items Hitems.
  - injection Hitems as <-. exists []. split; [constructor|].
    destruct (decide (v = fid cs)); constructor.
  - cbn [zip zip_with mapM] in Hitems. cbn [fst snd] in Hitems.
    rewrite decide_True in Hitems by (destruct Hcs; assumption).
    destruct (mapM (serialize_item cs rb ols) (seqZ 1 (worker_num cs - 1)))
      as [its|] eqn:Hits; [|discriminate].
    cbn [mbind option_bind] in Hitems.
    destruct (mapM _ (zip_with pair batches offset_lists)) as [items'|] eqn:Hrest;
      [|discriminate].
    injection Hitems as <-.
    destruct (IH items' eq_refl) as (outs & Houts & Hdel).
    destruct (routed_selected rb ols v Hscan Hrb Hv) as (out & Hout & Hsch).
    exists (out :: outs). split; [constructor; [split; assumption | exact Houts]|].
    unfold delivered in *. cbn [concat]. rewrite filter_app, fmap_app.
    destruct (decide (v = fid cs)) as [->|Hne].
    + rewrite (batch_not_delivered_to_self s cs Hcs Hsup rb ols its Hrb Hits). exact Hdel.
    + destruct (batch_delivered s cs Hcs Hsup rb ols its v Hrb Hv Hne Hits)
        as (arc & o & out' & -> & Ho & Hsel & Hdes).
      rewrite (routed_lookup rb ols v o Hscan Ho) in Hout.
      rewrite Hsel in Hout. injection Hout as ->.
      constructor; [exact Hdes | exact Hdel].
Qed.
End PeerDelivery.

(** ** The group: a whole shuffle *)

Lemma thread_num_pos (hardware local : Z) :
  1 <= hardware -> 1 <= local -> hardware + local - 1 < 2 ^ 31 ->
  0 < thread_num hardware local.
Proof.
  intros Hh Hl Hfit. rewrite thread_num_no_wrap by lia.
  pose proof (ceiling_quotient hardware local Hl). nia.
Qed.

Lemma mapM_Permutation {A B} (f : A -> option B) (l1 l2 : list A) (k2 : list B) :
  l1 ≡ₚ l2 -> mapM f l2 = Some k2 ->
  exists k1, mapM f l1 = Some k1 /\ k1 ≡ₚ k2.
Proof.
  intros Hperm. revert k2.
  induction Hperm as [|x l1 l2 _ IH|x y l|l1 l2 l3 _ IH1 _ IH2]; intros k2 H.
  - exists k2. split; [exact H | reflexivity].
  - cbn [mapM] in *. destruct (f x) as [y|]; [|discriminate].
    cbn [mbind option_bind] in *.
    destruct (mapM f l2) as [k|] eqn:Hk; [|discriminate]. injection H as <-.
    destruct (IH k eq_refl) as (k1 & -> & Hk1).
    exists (y :: k1). split; [reflexivity | constructor; exact Hk1].
  - cbn [mapM] in *. destruct (f x) as [x'|]; [|discriminate].
    destruct (f y) as [y'|]; [|discriminate]. cbn [mbind option_bind] in *.
    destruct (mapM f l) as [k|]; [|discriminate]. injection H as <-.
    exists (y' :: x' :: k). split; [reflexivity | constructor].
  - destruct (IH2 k2 H) as (k & Hk & Hperm2).
    destruct (IH1 k Hk) as (k1 & Hk1 & Hperm1).
    exists k1. split; [exact Hk1 | etransitivity; eassumption].
Qed.

Lemma concat_without_block {A} (blocks : list (list A)) (v : nat) (b : list A) :
  blocks !! v = Some b ->
  concat (<[v := []]> blocks) ++ b ≡ₚ concat blocks.
Proof.
  intros Hv. pose proof (lookup_lt_Some _ _ _ Hv) as Hlt.
  rewrite insert_take_drop by exact Hlt.
  rewrite <- (take_drop_middle blocks v b Hv) at 3.
  rewrite !concat_app. cbn [concat app].
  rewrite <- app_assoc. apply Permutation_app_head, Permutation_app_comm.
Qed.

Section GroupProofs.
Context {Buffer : Type}.
Variable SerializeSchema : Schema -> option Buffer.
Variable ReadSchema : Buffer -> option Schema.
Hypothesis SerializeSchema_ok : forall s, is_Some (SerializeSchema s).
Hypothesis ReadSchema_SerializeSchema :
  forall s b, SerializeSchema s = Some b -> ReadSchema b = Some s.
Variable scan : nat -> RecordBatch -> option (list (list Z)).
Variable hardware : Z.
Variable local : Z.
Hypothesis Hhardware : 1 <= hardware.
Hypothesis Hlocal : 1 <= local.
Hypothesis Hfit : hardware + local - 1 < 2 ^ 31.
Variable s : Schema.
Variable group : list Table.
Hypothesis Hsup : Forall (fun f => supported (field_type f)) s.
Hypothesis Hscannable : scannable scan local s group.

Lemma group_spec_wf (w : nat) :
  (w < length group)%nat -> wf_comm_spec (group_spec local group w).
Proof.
  intros Hw. split; unfold group_spec, WorkerToFrag; cbn; lia.
Qed.

Lemma scan_all (w : nat) (t : Table) :
  group !! w = Some t ->
  exists offset_lists,
    scan_batches (thread_num hardware local) (scan (length group)) (TableToRecordBatches t)
    = Some offset_lists
    /\ Forall2 (fun rb ols => scan (length group) rb = Some ols
                              /\ engine_input s (group_spec local group w) rb ols)
               (TableToRecordBatches t) offset_lists.
Proof.
  intros Ht. destruct (Hscannable w t Ht) as [_ Hall].
  unfold scan_batches.
  rewrite decide_True by (apply thread_num_pos; assumption).
  induction Hall as [|rb batches (ols & Hscan & Hin) _ (offset_lists & Hm & Hf)].
  - exists []. split; [reflexivity | constructor].
  - exists (ols :: offset_lists). split.
    + cbn [mapM]. rewrite Hscan, Hm. reflexivity.
    + constructor; [split; assumption | exact Hf].
Qed.

(** What worker [w] sends to [v], against the rows of its batches that it
    routes to [v]. *)
Lemma peer_delivery (w v : nat) (t : Table) :
  group !! w = Some t -> (v < length group)%nat ->
  exists queue outs,
    peer_outbound scan hardware local group w = Some queue
    /\ Forall2 (fun rb out => SelectRows rb (routed scan (length group) rb v) = Some out
                              /\ schema out = s)
               (TableToRecordBatches t) outs
    /\ Forall2 (fun arc out => DeserializeSelectedRows arc s = Some ([], out))
               (delivered v queue) (if decide (v = w) then [] else outs).
Proof.
  intros Ht Hv. pose proof (lookup_lt_Some _ _ _ Ht) as Hw.
  destruct (scan_all w t Ht) as (offset_lists & Hscan & Hin).
  pose proof (group_spec_wf w Hw) as Hcs.
  destruct (pools_have_a_worker (thread_num hardware local)) as [HS _].
  unfold peer_outbound. rewrite Ht. cbn [mbind option_bind]. rewrite Hscan.
  cbn [mbind option_bind]. unfold outbound. rewrite decide_True by exact HS.
  unfold serialize_batch.
  rewrite (mapM_indices (TableToRecordBatches t) offset_lists
             (fun rb ols =>
                if decide (1 <= worker_num (group_spec local group w))
                then mapM (serialize_item (group_spec local group w) rb ols)
                          (seqZ 1 (worker_num (group_spec local group w) - 1))
                else None))
    by (eapply Forall2_length; exact Hin).
  destruct (mapM _ (zip (TableToRecordBatches t) offset_lists)) as [items|] eqn:Hitems.
  - destruct (queue_delivery scan s (group_spec local group w) Hcs Hsup
                _ _ items v Hin Hitems Hv) as (outs & Houts & Hdel).
    exists (concat items), outs. split; [reflexivity|]. split; [exact Houts | exact Hdel].
  - exfalso.
    destruct (Forall2_mapM_zip
                (fun rb ols => scan (length group) rb = Some ols
                               /\ engine_input s (group_spec local group w) rb ols)
                (fun _ _ _ => True)
                (fun p => if decide (1 <= worker_num (group_spec local group w))
                          then mapM (serialize_item (group_spec local group w) p.1 p.2)
                                    (seqZ 1 (worker_num (group_spec local group w) - 1))
                          else None)
                _ _ Hin) as (items & Hsome & _).
    { intros rb ols [_ Hrb]. cbn [fst snd].
      rewrite decide_True by (destruct Hcs; assumption).
      destruct (serialize_strides s _ Hcs Hsup rb ols
                  (seqZ 1 (worker_num (group_spec local group w) - 1)) Hrb)
        as (its & Hits & _).
      { apply Forall_forall. intros i Hi. apply elem_of_seqZ in Hi. lia. }
      exists its. split; [exact Hits | exact I]. }
    rewrite Hitems in Hsome. discriminate.
Qed.

Lemma all_deliveries (v : nat) (ws : list nat) :
  (v < length group)%nat ->
  Forall (fun w => (w < length group)%nat) ws ->
  exists qbs : list (list (nat * list byte) * list RecordBatch),
    Forall2 (fun w qb =>
               peer_outbound scan hardware local group w = Some qb.1
               /\ (exists t, group !! w = Some t
                             /\ Forall2 (fun rb out =>
                                           SelectRows rb (routed scan (length group) rb v)
                                           = Some out /\ schema out = s)
                                        (TableToRecordBatches t) qb.2)
               /\ Forall2 (fun arc out => DeserializeSelectedRows arc s = Some ([], out))
                          (delivered v qb.1) (if decide (v = w) then [] else qb.2))
            ws qbs.
Proof.
  intros Hv Hws. induction Hws as [|w ws Hw _ (qbs & IH)].
  - exists []. constructor.
  - destruct (lookup_lt_is_Some_2 group w Hw) as [t Ht].
    destruct (peer_delivery w v t Ht Hv) as (queue & outs & Hq & Houts & Hdel).
    exists ((queue, outs) :: qbs). constructor; [|exact IH].
    cbn [fst snd]. split; [exact Hq|]. split; [|exact Hdel]. exists t. auto.
Qed.

(** The queues of all workers and, block by block, the rows each worker
    routes to [v]. *)
Lemma group_deliveries (v : nat) :
  (v < length group)%nat ->
  exists (queues : list (list (nat * list byte))) (blocks : list (list RecordBatch)),
    mapM (peer_outbound scan hardware local group) (seq 0 (length group)) = Some queues
    /\ length blocks = length group
    /\ Forall2 (fun t outs =>
                  Forall2 (fun rb out =>
                             SelectRows rb (routed scan (length group) rb v) = Some out
                             /\ schema out = s)
                          (TableToRecordBatches t) outs)
               group blocks
    /\ Forall2 (Forall2 (fun arc out => DeserializeSelectedRows arc s = Some ([], out)))
               (delivered v <$> queues) (<[v := []]> blocks).
Proof.
  intros Hv.
  destruct (all_deliveries v (seq 0 (length group)) Hv) as (qbs & Hall).
  { apply Forall_forall. intros w Hw. apply elem_of_seq in Hw. lia. }
  pose proof (Forall2_length _ _ _ Hall) as Hlen. rewrite length_seq in Hlen.
  exists (fst <$> qbs), (snd <$> qbs).
  split; [|split; [|split]].
  - apply mapM_Some. apply Forall2_fmap_r.
    eapply Forall2_impl; [exact Hall|]. intros w qb (Hq & _). exact Hq.
  - rewrite length_fmap. lia.
  - apply Forall2_same_length_lookup_2; [rewrite length_fmap; lia|].
    intros w t outs Ht Houts. rewrite list_lookup_fmap in Houts.
    destruct (qbs !! w) as [qb|] eqn:Hqb; [|discriminate]. injection Houts as <-.
    pose proof (lookup_lt_Some _ _ _ Ht) as Hw.
    pose proof (Forall2_lookup_lr _ _ _ w w qb Hall (lookup_seq_lt _ _ _ Hw) Hqb)
      as (_ & (t' & Ht' & Hsel) & _).
    simpl in Ht'. rewrite Ht in Ht'. injection Ht' as <-. exact Hsel.
  - apply Forall2_same_length_lookup_2;
      [rewrite length_fmap, length_insert, !length_fmap; reflexivity|].
    intros w arcs outs Harcs Houts. rewrite list_lookup_fmap in Harcs.
    rewrite list_lookup_fmap in Harcs.
    destruct (qbs !! w) as [qb|] eqn:Hqb; [|discriminate]. injection Harcs as <-.
    pose proof (lookup_lt_Some _ _ _ Hqb) as Hw. rewrite <- Hlen in Hw.
    pose proof (Forall2_lookup_lr _ _ _ w w qb Hall (lookup_seq_lt _ _ _ Hw) Hqb)
      as (_ & _ & Hdel).
    simpl in Hdel. destruct (decide (v = w)) as [->|Hne].
    + rewrite list_lookup_insert_eq in Houts by (rewrite length_fmap; lia).
      injection Houts as <-. exact Hdel.
    + rewrite list_lookup_insert_ne in Houts by exact Hne.
      rewrite list_lookup_fmap, Hqb in Houts. injection Houts as <-. exact Hdel.
Qed.

Lemma total_batches :
  foldr Z.add 0 ((fun t => Z.of_nat (length (TableToRecordBatches t))) <$> group)
  = Z.of_nat (length (all_batches group)).
Proof.
  unfold all_batches. clear. induction group as [|t g IH]; [reflexivity|].
  rewrite !fmap_cons. cbn [foldr concat]. rewrite IH, length_app. lia.
Qed.

Lemma group_schemas : Forall (fun s' => s' = s) (table_schema <$> group).
Proof.
  apply Forall_forall. intros s' Hs'. apply list_elem_of_fmap in Hs'.
  destruct Hs' as (t & -> & Ht). apply list_elem_of_lookup in Ht. destruct Ht as [w Hw].
  exact (proj1 (Hscannable w t Hw)).
Qed.

(** The table built from batches of the shared schema. *)
Lemma built_table (R : list RecordBatch) :
  Forall (fun e => schema e = s) R ->
  match filter (fun e => num_rows e <> 0) R with
  | [] => Some (Ok (EmptyTableBuilder_Build s))
  | _ :: _ =>
      tmp_table ← RecordBatchesToTable (filter (fun e => num_rows e <> 0) R);
      Some (Ok (CombineChunks tmp_table))
  end = Some (Ok (build_table s (filter (fun e => num_rows e <> 0) R))).
Proof.
  intros HR.
  assert (Forall (fun e => schema e = s) (filter (fun e => num_rows e <> 0) R)) as HF.
  { apply Forall_forall. intros e He. apply list_elem_of_filter in He.
    rewrite Forall_forall in HR. apply HR. tauto. }
  destruct (filter (fun e => num_rows e <> 0) R) as [|e l]; [reflexivity|].
  unfold RecordBatchesToTable. inversion HF as [|? ? He Hl]; subst.
  rewrite decide_True by (apply Forall_forall; intros e' He';
                          rewrite Forall_forall in HF; rewrite (HF e' He'); reflexivity).
  reflexivity.
Qed.

(** One run of worker [v]. *)
Lemma run_result (v : nat) (t : Table) (queues : list (list (nat * list byte)))
    (blocks : list (list RecordBatch)) (rx : list (list byte)) :
  group !! v = Some t ->
  length blocks = length group ->
  Forall2 (fun t outs =>
             Forall2 (fun rb out =>
                        SelectRows rb (routed scan (length group) rb v) = Some out
                        /\ schema out = s)
                     (TableToRecordBatches t) outs)
          group blocks ->
  Forall2 (Forall2 (fun arc out => DeserializeSelectedRows arc s = Some ([], out)))
          (delivered v <$> queues) (<[v := []]> blocks) ->
  rx ≡ₚ concat (delivered v <$> queues) ->
  exists queue R,
    shuffle_table SerializeSchema ReadSchema scan (group_spec local group v) t
      (group_env SerializeSchema hardware group rx)
    = Some (queue, Ok (build_table s (filter (fun e => num_rows e <> 0) R)))
    /\ R ≡ₚ concat blocks.
Proof.
  intros Ht Hlen Hblocks Hdel Hrx.
  pose proof (lookup_lt_Some _ _ _ Ht) as Hv.
  pose proof (group_spec_wf v Hv) as Hcs.
  destruct (Hscannable v t Ht) as [Hschema _].
  destruct (scan_all v t Ht) as (offset_lists & Hscan & Hin).
  destruct (Forall2_lookup_l _ _ _ v t Hblocks Ht) as (bv & Hbv & Hsel).
  (* the archives decode to the rows the peers routed here *)
  pose proof (Forall2_concat _ _ _ Hdel) as Hdec.
  assert (mapM (fun arc => snd <$> DeserializeSelectedRows arc s)
               (concat (delivered v <$> queues))
          = Some (concat (<[v := []]> blocks))) as Hsent.
  { apply mapM_Some. eapply Forall2_impl; [exact Hdec|].
    intros arc out H. simpl. rewrite H. reflexivity. }
  destruct (mapM_Permutation _ _ _ _ Hrx Hsent) as (decoded & Hdecoded & Hperm).
  (* the number of archives is the number of batches of the peers *)
  assert (Z.of_nat (length rx)
          = total_record_batches (group_env SerializeSchema hardware group rx)
            - Z.of_nat (length (TableToRecordBatches t))) as Hcount.
  { cbn [total_record_batches group_env]. rewrite total_batches.
    rewrite (Permutation_length Hrx), (Forall2_length _ _ _ Hdec).
    pose proof (Permutation_length (concat_without_block blocks v bv Hbv)) as Hl.
    rewrite length_app in Hl.
    assert (length (concat blocks) = length (all_batches group)) as Hall.
    { symmetry. unfold all_batches. eapply Forall2_length. apply Forall2_concat.
      apply Forall2_fmap_l. exact Hblocks. }
    rewrite (Forall2_length _ _ _ Hsel). lia. }
  (* the self-slices are the rows this worker routes to itself *)
  destruct (local_slices s _ Hcs Hsup _ _
              (Forall2_impl _ _ _ _ Hin (fun rb ols H => proj2 H)))
    as (selected & Hselected & Hlensel & Hlook).
  assert (selected = bv) as ->.
  { eapply (Forall2_unique _ (TableToRecordBatches t)); [|exact Hsel|].
    - apply Forall2_same_length_lookup_2; [lia|].
      intros i rb out Hrb Hout.
      destruct (Forall2_lookup_l _ _ _ i rb Hin Hrb) as (ols & Hols & Hscanrb & Hrbin).
      destruct (Hlook i rb ols Hrb Hols) as (o & out' & Ho & Hselrb & Hout').
      rewrite Hout in Hout'. injection Hout' as <-.
      cbn [fid group_spec] in Ho.
      pose proof (routed_lookup scan (group_spec local group v) rb ols v o Hscanrb Ho) as Hr.
      cbn [fnum group_spec] in Hr. rewrite Hr.
      split; [exact Hselrb|]. destruct Hrbin as (_ & Hs & _).
      unfold SelectRows, Flush in Hselrb. rewrite <- Hs. clear -Hselrb.
      destruct (RecordBatchBuilder_Make _ _); [|discriminate]. simpl in Hselrb.
      destruct (for_each _ _ _); [|discriminate]. simpl in Hselrb.
      destruct (same_length _); [|discriminate]. injection Hselrb as <-. reflexivity.
    - intros rb y1 y2 [H1 _] [H2 _]. congruence. }
  destruct (pools_have_a_worker (thread_num hardware (local_num (group_spec local group v))))
    as [HS HD].
  destruct (outbound_spec s _ Hcs Hsup _ _ _ HS
              (Forall2_impl _ _ _ _ Hin (fun rb ols H => proj2 H)))
    as (items & Hout & _).
  exists (concat items), (decoded ++ bv). split.
  - unfold shuffle_table. rewrite Hschema.
    cbn [flag_total schema_buffers group_env].
    rewrite (barrier_passes SerializeSchema ReadSchema SerializeSchema_ok
               ReadSchema_SerializeSchema (table_schema <$> group)
               (group_spec local group v) v s eq_refl
               ltac:(cbn; rewrite length_fmap; reflexivity)
               ltac:(rewrite length_fmap; exact Hv) group_schemas).
    cbn [mbind option_bind]. cbn [hardware_concurrency group_env local_num group_spec].
    cbn [fnum group_spec]. rewrite Hscan. cbn [mbind option_bind].
    unfold ShuffleTableByOffsetLists.
    rewrite Hout. cbn [mbind option_bind].
    rewrite decide_True by (split; [exact Hcount | exact HD]).
    cbn [received group_env]. rewrite Hdecoded. cbn [mbind option_bind].
    rewrite Hselected. cbn [mbind option_bind].
    pose proof (built_table (decoded ++ bv)) as Hbuilt.
    destruct (filter (fun e => num_rows e <> 0) (decoded ++ bv)) as [|e l] eqn:Hf.
    + reflexivity.
    + assert (Forall (fun e => schema e = s) (decoded ++ bv)) as Hsch.
      { apply Forall_app. split.
        - rewrite Hperm. apply Forall_concat. apply Forall_forall. intros blk Hblk.
          apply list_elem_of_lookup in Hblk. destruct Hblk as [w Hw].
          destruct (decide (w = v)) as [->|Hne].
          + rewrite list_lookup_insert_eq in Hw by lia. injection Hw as <-. constructor.
          + rewrite list_lookup_insert_ne in Hw by congruence.
            destruct (Forall2_lookup_r _ _ _ w blk Hblocks Hw) as (t' & _ & Hsel').
            eapply Forall2_Forall_r; [exact Hsel'|].
            apply Forall_forall. intros rb _ out [_ Hs]. exact Hs.
        - eapply Forall2_Forall_r; [exact Hsel|].
          apply Forall_forall. intros rb _ out [_ Hs]. exact Hs. }
      specialize (Hbuilt Hsch). cbn [mbind option_bind] in Hbuilt.
      destruct (RecordBatchesToTable (e :: l)) as [tmp|]; [|discriminate].
      cbn [mbind option_bind] in *. injection Hbuilt as Hbuilt.
      rewrite Hbuilt. reflexivity.
  - rewrite Hperm. apply concat_without_block. exact Hbv.
Qed.

(** Every arrival order gives worker [v] a table, and the table is built
    from the batches selected, out of every input batch of the group, by the
    offset list for [v]. *)
Lemma group_shuffle (v : nat) :
  (v < length group)%nat ->
  (exists res, shuffle_run SerializeSchema ReadSchema scan hardware local group v res)
  /\ forall res,
       shuffle_run SerializeSchema ReadSchema scan hardware local group v res ->
       exists R R0,
         Forall2 (fun rb out =>
                    SelectRows rb (routed scan (length group) rb v) = Some out
                    /\ schema out = s)
                 (all_batches group) R0
         /\ R ≡ₚ R0
         /\ res = Ok (build_table s (filter (fun e => num_rows e <> 0) R)).
Proof.
  intros Hv. destruct (lookup_lt_is_Some_2 group v Hv) as [t Ht].
  destruct (group_deliveries v Hv) as (queues & blocks & Hm & Hlen & Hblocks & Hdel).
  assert (sent_to scan hardware local group v = Some (concat (delivered v <$> queues)))
    as Hsent by (unfold sent_to; rewrite Hm; reflexivity).
  assert (Forall2 (fun rb out =>
                     SelectRows rb (routed scan (length group) rb v) = Some out
                     /\ schema out = s)
                  (all_batches group) (concat blocks)) as Hall.
  { unfold all_batches. apply Forall2_concat, Forall2_fmap_l. exact Hblocks. }
  split.
  - destruct (run_result v t queues blocks _ Ht Hlen Hblocks Hdel (reflexivity _))
      as (queue & R & Hrun & _).
    eexists. exists t, (concat (delivered v <$> queues)), (concat (delivered v <$> queues)),
      queue.
    split; [exact Ht|]. split; [exact Hsent|]. split; [reflexivity | exact Hrun].
  - intros res (t' & sent & rx & queue & Ht' & Hsent' & Hrx & Hrun).
    rewrite Ht in Ht'. injection Ht' as <-.
    rewrite Hsent in Hsent'. injection Hsent' as <-.
    destruct (run_result v t queues blocks rx Ht Hlen Hblocks Hdel Hrx)
      as (queue' & R & Hrun' & HR).
    rewrite Hrun in Hrun'. injection Hrun' as _ ->.
    exists R, (concat blocks). auto.
Qed.
End GroupProofs.

(** ** The routers in the group *)

Lemma filtered_rows_good (P : Z -> Prop) `{!forall x, Decision (P x)} (rb : RecordBatch) :
  0 <= num_rows rb < 2 ^ 63 ->
  good_offsets rb (filter P (all_rows (num_rows rb))).
Proof.
  intros Hn. split.
  - apply filtered_rows_sorted.
  - pose proof (length_filter P (all_rows (num_rows rb))) as Hle.
    rewrite all_rows_length in Hle. lia.
Qed.

Lemma vertex_engine_input (oid_type : DataType) (GetPartitionId : Oid -> nat)
    (s : Schema) (cs : CommSpec) (rb : RecordBatch) (id_col : Array) :
  conforms rb -> schema rb = s ->
  vertex_routable oid_type GetPartitionId (fnum cs) rb id_col ->
  exists ols,
    scan_vertex_batch oid_type GetPartitionId (fnum cs) rb = Some ols
    /\ engine_input s cs rb ols
    /\ forall f, (f < fnum cs)%nat ->
         routed (scan_vertex_batch oid_type GetPartitionId) (fnum cs) rb f
         = vertex_offsets oid_type GetPartitionId id_col (num_rows rb) f.
Proof.
  intros Hconf Hs Hroute.
  destruct (scan_vertex_batch_closed _ _ _ _ _ Hroute) as (ols & Hscan & Hlen & Hlook).
  exists ols. split; [exact Hscan|]. split.
  - split; [exact Hconf|]. split; [exact Hs|]. split; [exact Hlen|].
    apply Forall_lookup. intros f l Hl.
    pose proof (lookup_lt_Some _ _ _ Hl) as Hf. rewrite Hlen in Hf.
    rewrite (Hlook f Hf) in Hl. injection Hl as <-.
    apply filtered_rows_good. destruct Hconf. assumption.
  - intros f Hf. unfold routed. rewrite Hscan. simpl. rewrite (Hlook f Hf). reflexivity.
Qed.

Lemma edge_engine_input (vid_type : PrimType) (GetFid : Z -> nat)
    (src_col_id dst_col_id : Z) (s : Schema) (cs : CommSpec) (rb : RecordBatch)
    (src_col dst_col : list Z) :
  conforms rb -> schema rb = s ->
  edge_routable vid_type GetFid src_col_id dst_col_id (fnum cs) rb src_col dst_col ->
  exists ols,
    scan_edge_batch vid_type GetFid src_col_id dst_col_id (fnum cs) rb = Some ols
    /\ engine_input s cs rb ols
    /\ forall f, (f < fnum cs)%nat ->
         routed (scan_edge_batch vid_type GetFid src_col_id dst_col_id) (fnum cs) rb f
         = edge_offsets GetFid src_col dst_col (num_rows rb) f.
Proof.
  intros Hconf Hs Hroute.
  destruct (scan_edge_batch_closed _ _ _ _ _ _ _ _ Hroute) as (ols & Hscan & Hlen & Hlook).
  exists ols. split; [exact Hscan|]. split.
  - split; [exact Hconf|]. split; [exact Hs|]. split; [exact Hlen|].
    apply Forall_lookup. intros f l Hl.
    pose proof (lookup_lt_Some _ _ _ Hl) as Hf. rewrite Hlen in Hf.
    rewrite (Hlook f Hf) in Hl. injection Hl as <-.
    apply filtered_rows_good. destruct Hconf. assumption.
  - intros f Hf. unfold routed. rewrite Hscan. simpl. rewrite (Hlook f Hf). reflexivity.
Qed.

Lemma vertex_group_scannable (oid_type : DataType) (GetPartitionId : Oid -> nat)
    (local : Z) (s : Schema) (group : list Table) :
  vertex_group oid_type GetPartitionId s group ->
  scannable (scan_vertex_batch oid_type GetPartitionId) local s group.
Proof.
  intros Hg w t Ht. destruct (Hg w t Ht) as [Hs Hall]. split; [exact Hs|].
  eapply Forall_impl; [exact Hall|]. intros rb (Hconf & Hsch & id_col & Hroute).
  destruct (vertex_engine_input oid_type GetPartitionId s (group_spec local group w)
              rb id_col Hconf Hsch Hroute) as (ols & Hscan & Hin & _).
  exists ols. split; assumption.
Qed.

Lemma edge_group_scannable (vid_type : PrimType) (GetFid : Z -> nat)
    (src_col_id dst_col_id : Z) (local : Z) (s : Schema) (group : list Table) :
  edge_group vid_type GetFid src_col_id dst_col_id s group ->
  scannable (scan_edge_batch vid_type GetFid src_col_id dst_col_id) local s group.
Proof.
  intros Hg w t Ht. destruct (Hg w t Ht) as [Hs Hall]. split; [exact Hs|].
  eapply Forall_impl; [exact Hall|]. intros rb (Hconf & Hsch & src & dst & Hroute).
  destruct (edge_engine_input vid_type GetFid src_col_id dst_col_id s
              (group_spec local group w) rb src dst Hconf Hsch Hroute)
    as (ols & Hscan & Hin & _).
  exists ols. split; assumption.
Qed.

Lemma elem_of_all_batches (group : list Table) (rb : RecordBatch) :
  rb ∈ all_batches group ->
  exists w t, group !! w = Some t /\ rb ∈ TableToRecordBatches t.
Proof.
  unfold all_batches. intros H. apply list_elem_of_In, in_concat in H.
  destruct H as (l & Hl & Hrb). apply list_elem_of_In, list_elem_of_fmap in Hl.
  destruct Hl as (t & -> & Ht). apply list_elem_of_lookup in Ht. destruct Ht as [w Hw].
  exists w, t. split; [exact Hw | apply list_elem_of_In; exact Hrb].
Qed.

(** ** Plain batches through the row selector *)

Lemma take_rows_no_nulls (a sel : Array) (offset : list Z) :
  no_nulls a -> take_rows a offset = Some sel -> no_nulls sel.
Proof.
  destruct a; simpl; intros Hnn H;
    try (apply fmap_Some in H; destruct H as (sl & H & ->);
         apply mapM_Some in H; simpl; eapply selected_Forall; eassumption);
    injection H as <-; exact I.
Qed.

Lemma select_rows_plain (rb : RecordBatch) (offset : list Z) :
  conforms rb -> plain_batch rb -> good_offsets rb offset ->
  SelectRows rb offset = Some (pick_rows rb offset).
Proof.
  intros Hconf (Hne & Hflat & Hnn) [Hvalid Hcount].
  destruct (batch_paths rb offset Hconf (flat_supported _ Hflat) Hvalid Hcount)
    as (sels & Hsels & -> & _).
  f_equal. destruct Hconf as [Hty Hrows Hwf Hn].
  assert (rebuilt <$> sels = (fun a => default a (take_rows a offset)) <$> columns rb
          /\ Forall (fun a => array_length a = Z.of_nat (length offset)) (rebuilt <$> sels))
    as [Hcols Hlens].
  { clear Hne Hrows Hwf Hn. revert Hty Hflat Hnn Hsels.
    generalize (columns rb) (schema rb). intros cols s Hty Hflat Hnn Hsels. revert s Hty Hflat.
    induction Hsels as [|a sel cols sels [Hsel Hwsel] _ IH]; intros [|f s] Hty Hflat;
      try discriminate; [split; [reflexivity | constructor]|].
    simpl in Hty. injection Hty as Ha Hty.
    inversion Hflat; subst. inversion Hnn; subst.
    destruct (IH ltac:(assumption) s Hty ltac:(assumption)) as [IHc IHl].
    assert (rebuilt sel = sel) as Hre.
    { apply rebuilt_flat.
      - rewrite (take_rows_type _ _ _ Hsel), Ha. assumption.
      - eapply take_rows_no_nulls; eassumption. }
    rewrite !fmap_cons. rewrite Hre, IHc, Hsel. split; [reflexivity|].
    constructor; [eapply take_rows_length; eassumption|].
    rewrite <- IHc. exact IHl. }
  unfold rebuilt_batch, pick_rows. rewrite Hcols. f_equal.
  rewrite <- Hcols.
  destruct (last (rebuilt <$> sels)) as [a|] eqn:Hlast; simpl.
  - apply last_Some in Hlast. destruct Hlast as [l' Hl']. rewrite Hl' in Hlens.
    apply Forall_app in Hlens. destruct Hlens as [_ Ha]. inversion Ha; subst. assumption.
  - apply last_None in Hlast. apply fmap_nil_inv in Hlast. subst sels.
    apply Forall2_nil_inv_r in Hsels. rewrite Hsels in Hty.
    symmetry in Hty. apply fmap_nil_inv in Hty. contradiction.
Qed.

Lemma build_table_schema (s : Schema) (batches_in : list RecordBatch) :
  table_schema (build_table s batches_in) = s.
Proof. destruct batches_in; reflexivity. Qed.

(** ** The claims on the routers in the group *)

Lemma vertex_batch_0_conforms : conforms vertex_batch_0.
Proof. sample_conforms. Qed.

Lemma vertex_batch_1_conforms : conforms vertex_batch_1.
Proof. sample_conforms. Qed.

Lemma sample_edge_batch_conforms : conforms sample_edge_batch.
Proof. sample_conforms. Qed.

Lemma sample_vertex_group_ok :
  vertex_group (Prim Int64) sample_partitioner vertex_schema sample_vertex_group.
Proof.
  intros w t Ht. destruct w as [|[|w]]; simpl in Ht; [| |discriminate];
    injection Ht as <-; (split; [reflexivity|]);
    (apply List.Forall_cons; [|apply List.Forall_nil]).
  - split; [exact vertex_batch_0_conforms|]. split; [reflexivity|].
    exists (NumericArray Int64 [(true, 1); (true, 2)]). split; [reflexivity|].
    intros r Hr. simpl in Hr.
    assert (r = 0 \/ r = 1) as [->| ->] by lia;
      eexists; (split; [reflexivity | vm_compute; lia]).
  - split; [exact vertex_batch_1_conforms|]. split; [reflexivity|].
    exists (NumericArray Int64 [(true, 3)]). split; [reflexivity|].
    intros r Hr. simpl in Hr. assert (r = 0) as -> by lia.
    eexists; (split; [reflexivity | vm_compute; lia]).
Qed.

Lemma sample_edge_group_ok :
  edge_group UInt64 sample_id_parser 0 1 (schema sample_edge_batch) sample_edge_group.
Proof.
  intros w t Ht. destruct w as [|[|w]]; simpl in Ht; [| |discriminate];
    injection Ht as <-; (split; [reflexivity|]); [|apply List.Forall_nil].
  apply List.Forall_cons; [|apply List.Forall_nil].
  split; [exact sample_edge_batch_conforms|]. split; [reflexivity|].
  exists [1; 4294967301], [4294967298; 4294967303]. exact sample_edge_routable.
Qed.

(** X19.  In a group of workers holding vertex tables on one schema over
    the supported types, whose keys the partitioner maps to fragments of the
    group: (a) the scan of every input batch appends the index of every row
    to exactly one offset list, the one of the fragment the partitioner
    gives for the row's value in column 0; (b) every worker [v] gets a
    table, whatever the order in which the archives arrive, and that table
    is built from the batches the row selector returns, for every input
    batch of every worker, on the rows whose key is partitioned to [v]. *)
Theorem vertex_rows_delivered_once {Buffer : Type}
    (SerializeSchema : Schema -> option Buffer) (ReadSchema : Buffer -> option Schema)
    (oid_type : DataType) (GetPartitionId : Oid -> nat) (hardware local : Z)
    (s : Schema) (group : list Table) (v : nat) :
  (forall s, is_Some (SerializeSchema s)) ->
  (forall s b, SerializeSchema s = Some b -> ReadSchema b = Some s) ->
  1 <= hardware -> 1 <= local -> hardware + local - 1 < 2 ^ 31 ->
  Forall (fun f => supported (field_type f)) s ->
  vertex_group oid_type GetPartitionId s group ->
  (v < length group)%nat ->
  (forall rb id_col r,
      rb ∈ all_batches group -> columns rb !! 0%nat = Some id_col ->
      0 <= r < num_rows rb ->
      exists ols f,
        scan_vertex_batch oid_type GetPartitionId (length group) rb = Some ols
        /\ vertex_fid oid_type GetPartitionId id_col r = Some f
        /\ (f < length group)%nat
        /\ (forall f' l, ols !! f' = Some l ->
              count_occ Z.eq_dec l r = if decide (f' = f) then 1%nat else 0%nat)
        /\ count_occ Z.eq_dec (concat ols) r = 1%nat)
  /\ (exists res,
         shuffle_run SerializeSchema ReadSchema
           (scan_vertex_batch oid_type GetPartitionId) hardware local group v res)
  /\ (forall res,
         shuffle_run SerializeSchema ReadSchema
           (scan_vertex_batch oid_type GetPartitionId) hardware local group v res ->
         exists R R0,
           Forall2 (fun rb out =>
                      exists id_col,
                        columns rb !! 0%nat = Some id_col
                        /\ SelectRows rb (vertex_offsets oid_type GetPartitionId id_col
                                            (num_rows rb) v) = Some out)
                   (all_batches group) R0
           /\ R ≡ₚ R0
           /\ res = Ok (build_table s (filter (fun e => num_rows e <> 0) R))).
Proof.
  intros Hser Hread Hhw Hlocal Hfit Hsup Hgroup Hv.
  assert (forall rb, rb ∈ all_batches group ->
            exists id_col ols,
              vertex_routable oid_type GetPartitionId (length group) rb id_col
              /\ scan_vertex_batch oid_type GetPartitionId (length group) rb = Some ols
              /\ length ols = length group
              /\ (forall f, (f < length group)%nat ->
                    ols !! f = Some (vertex_offsets oid_type GetPartitionId id_col
                                       (num_rows rb) f))) as Hclosed.
  { intros rb Hrb. apply elem_of_all_batches in Hrb. destruct Hrb as (w & t & Ht & Hrb).
    destruct (Hgroup w t Ht) as [_ Hall]. rewrite Forall_forall in Hall.
    destruct (Hall rb Hrb) as (_ & _ & id_col & Hroute).
    destruct (scan_vertex_batch_closed _ _ _ _ _ Hroute) as (ols & Hscan & Hlen & Hlook).
    exists id_col, ols. auto. }
  split; [|split].
  - intros rb id_col r Hrb Hcol Hr.
    destruct (Hclosed rb Hrb) as (id_col' & ols & [Hcol' Hrows] & Hscan & Hlen & Hlook).
    rewrite Hcol in Hcol'. injection Hcol' as <-.
    destruct (Hrows r Hr) as (f & Hf & Hlt).
    exists ols, f. split; [exact Hscan|]. split; [exact Hf|]. split; [exact Hlt|].
    assert (forall f',
              count_occ Z.eq_dec
                (vertex_offsets oid_type GetPartitionId id_col (num_rows rb) f') r
              = if decide (f' = f) then 1%nat else 0%nat) as Hcount.
    { intros f'. unfold vertex_offsets.
      rewrite count_occ_filter by (apply NoDup_all_rows || (apply elem_of_all_rows; exact Hr)).
      rewrite Hf. repeat case_decide; try reflexivity; congruence. }
    split.
    + intros f' l Hl. pose proof (lookup_lt_Some _ _ _ Hl) as Hf'. rewrite Hlen in Hf'.
      rewrite (Hlook f' Hf') in Hl. injection Hl as <-. apply Hcount.
    + rewrite (lists_by_index ols
                 (vertex_offsets oid_type GetPartitionId id_col (num_rows rb)))
        by (rewrite Hlen; exact Hlook).
      rewrite (count_occ_indexed Z.eq_dec _ (fun f' => f' = f))
        by (intros f' _; apply Hcount).
      rewrite Hlen. apply filter_one. exact Hlt.
  - exact (proj1 (group_shuffle SerializeSchema ReadSchema Hser Hread _ hardware local
                    Hhw Hlocal Hfit s group Hsup
                    (vertex_group_scannable _ _ local s group Hgroup) v Hv)).
  - intros res Hrun.
    destruct (proj2 (group_shuffle SerializeSchema ReadSchema Hser Hread _ hardware local
                       Hhw Hlocal Hfit s group Hsup
                       (vertex_group_scannable _ _ local s group Hgroup) v Hv) res Hrun)
      as (R & R0 & Hall & Hperm & Hres).
    exists R, R0. split; [|split; assumption].
    apply Forall2_same_length_lookup_2; [eapply Forall2_length; exact Hall|].
    intros i rb out Hrb Hout.
    destruct (Forall2_lookup_lr _ _ _ i rb out Hall Hrb Hout) as [Hsel _].
    destruct (Hclosed rb (list_elem_of_lookup_2 _ _ _ Hrb))
      as (id_col & ols & [Hcol _] & Hscan & _ & Hlook).
    exists id_col. split; [exact Hcol|].
    unfold routed in Hsel. rewrite Hscan in Hsel. simpl in Hsel.
    rewrite (Hlook v Hv) in Hsel. exact Hsel.
Qed.

Lemma vertex_rows_delivered_once_witness :
  (forall rb id_col r,
      rb ∈ all_batches sample_vertex_group -> columns rb !! 0%nat = Some id_col ->
      0 <= r < num_rows rb ->
      exists ols f,
        scan_vertex_batch (Prim Int64) sample_partitioner (length sample_vertex_group) rb
        = Some ols
        /\ vertex_fid (Prim Int64) sample_partitioner id_col r = Some f
        /\ (f < length sample_vertex_group)%nat
        /\ (forall f' l, ols !! f' = Some l ->
              count_occ Z.eq_dec l r = if decide (f' = f) then 1%nat else 0%nat)
        /\ count_occ Z.eq_dec (concat ols) r = 1%nat)
  /\ (exists res,
         shuffle_run (Buffer := Schema) Some Some
           (scan_vertex_batch (Prim Int64) sample_partitioner) 8 1 sample_vertex_group 1 res)
  /\ (forall res,
         shuffle_run (Buffer := Schema) Some Some
           (scan_vertex_batch (Prim Int64) sample_partitioner) 8 1 sample_vertex_group 1 res ->
         exists R R0,
           Forall2 (fun rb out =>
                      exists id_col,
                        columns rb !! 0%nat = Some id_col
                        /\ SelectRows rb (vertex_offsets (Prim Int64) sample_partitioner id_col
                                            (num_rows rb) 1) = Some out)
                   (all_batches sample_vertex_group) R0
           /\ R ≡ₚ R0
           /\ res = Ok (build_table vertex_schema (filter (fun e => num_rows e <> 0) R))).
Proof.
  apply (vertex_rows_delivered_once (Buffer := Schema) Some Some (Prim Int64)
           sample_partitioner 8 1 vertex_schema sample_vertex_group 1).
  - intros s. exists s. reflexivity.
  - intros s b H. symmetry. exact H.
  - lia.
  - lia.
  - simpl. lia.
  - repeat constructor.
  - exact sample_vertex_group_ok.
  - simpl. lia.
Defined.

Lemma list_vertex_group_ok :
  vertex_group (Prim Int64) to_fragment_1 (schema keyed_list_batch) list_vertex_group.
Proof.
  intros w t Ht. destruct w as [|[|w]]; simpl in Ht; [| |discriminate];
    injection Ht as <-; (split; [reflexivity|]); [|apply List.Forall_nil].
  apply List.Forall_cons; [|apply List.Forall_nil].
  split; [sample_conforms|]. split; [reflexivity|].
  exists (NumericArray Int64 [(true, 10)]). split; [reflexivity|].
  intros r Hr. simpl in Hr. assert (r = 0) as -> by lia.
  eexists; (split; [reflexivity | vm_compute; lia]).
Qed.

(** C3.  The input row does not arrive.  Two workers hold vertex tables on
    the schema [(id : int64, l : large_list<int32>)], without cleared
    validity bits: worker 0 the one row [(10, [7, 8, 9])], worker 1 none;
    the partitioner maps the key to the fragment 1.  The scan appends the
    row index to exactly the offset list of the fragment 1, and one archive
    goes to worker 1, as the claim says.  But worker 0 returns the empty
    table and worker 1, in every run, the table of the one row [(10, [])]:
    the row [(10, [7, 8, 9])] is in the output of no worker. *)
Theorem vertex_row_arrives_without_list :
  vertex_group (Prim Int64) to_fragment_1 (schema keyed_list_batch) list_vertex_group
  /\ Forall (fun rb => Forall no_nulls (columns rb)) (all_batches list_vertex_group)
  /\ scan_vertex_batch (Prim Int64) to_fragment_1 2 keyed_list_batch = Some [ []; [0] ]
  /\ sent_to (scan_vertex_batch (Prim Int64) to_fragment_1) 8 1 list_vertex_group 1
     = Some list_group_sent
  /\ length list_group_sent = 1%nat
  /\ (exists queue,
        list_group_run 0 []
        = Some (queue, Ok (EmptyTableBuilder_Build (schema keyed_list_batch))))
  /\ (forall res,
        shuffle_run (Buffer := Schema) Some Some
          (scan_vertex_batch (Prim Int64) to_fragment_1) 8 1 list_vertex_group 1 res ->
        res = Ok {| table_schema := schema keyed_list_batch;
                    table_batches :=
                      [ {| schema := schema keyed_list_batch;
                           num_rows := 1;
                           columns := [ NumericArray Int64 [(true, 10)];
                                        LargeListArray Int32 [(true, [])] ] |} ] |})
  /\ list_group_run 1 list_group_sent
     = Some ([], Ok {| table_schema := schema keyed_list_batch;
                       table_batches :=
                         [ {| schema := schema keyed_list_batch;
                              num_rows := 1;
                              columns := [ NumericArray Int64 [(true, 10)];
                                           LargeListArray Int32 [(true, [])] ] |} ] |})
  /\ {| schema := schema keyed_list_batch;
        num_rows := 1;
        columns := [ NumericArray Int64 [(true, 10)];
                     LargeListArray Int32 [(true, [])] ] |} <> keyed_list_batch.
Proof.
  split; [exact list_vertex_group_ok|].
  split; [repeat constructor|].
  split; [vm_compute; reflexivity|].
  split; [vm_compute; reflexivity|].
  split; [vm_compute; reflexivity|].
  split; [eexists; vm_compute; reflexivity|].
  split; [|split; [vm_compute; reflexivity | discriminate]].
  intros res (t & sent & rx & queue & Ht & Hsent & Hrx & Hrun).
  change (list_vertex_group !! 1%nat)
    with (Some {| table_schema := schema keyed_list_batch; table_batches := [] |}) in Ht.
  injection Ht as <-.
  assert (sent = list_group_sent) as ->.
  { assert (sent_to (scan_vertex_batch (Prim Int64) to_fragment_1) 8 1 list_vertex_group 1
            = Some list_group_sent) as E by (vm_compute; reflexivity).
    rewrite E in Hsent. injection Hsent as <-. reflexivity. }
  assert (exists arc, list_group_sent = [arc]) as [arc Harc]
    by (eexists; vm_compute; reflexivity).
  rewrite Harc in Hrx. apply Permutation_singleton_r in Hrx. subst rx.
  rewrite <- Harc in Hrun.
  assert (shuffle_table (Buffer := Schema) Some Some
            (scan_vertex_batch (Prim Int64) to_fragment_1)
            (group_spec 1 list_vertex_group 1)
            {| table_schema := schema keyed_list_batch; table_batches := [] |}
            (group_env (Buffer := Schema) Some 8 list_vertex_group list_group_sent)
          = Some ([], Ok {| table_schema := schema keyed_list_batch;
                            table_batches :=
                              [ {| schema := schema keyed_list_batch;
                                   num_rows := 1;
                                   columns := [ NumericArray Int64 [(true, 10)];
                                                LargeListArray Int32 [(true, [])] ] |} ] |}))
    as E by (vm_compute; reflexivity).
  pose proof (eq_trans (eq_sym E) Hrun) as Heq. injection Heq as _ <-. reflexivity.
Qed.

Lemma Forall2_fmap_eq {A B} (g : A -> B) (l : list A) (k : list B) :
  Forall2 (fun x y => y = g x) l k -> k = g <$> l.
Proof. induction 1 as [|x y l k -> _ IH]; [reflexivity|]. rewrite fmap_cons, IH. reflexivity. Qed.

(** Plain tables through the shuffle, for either router. *)
Lemma plain_group_shuffle {Buffer : Type}
    (SerializeSchema : Schema -> option Buffer) (ReadSchema : Buffer -> option Schema)
    (scan : nat -> RecordBatch -> option (list (list Z))) (hardware local : Z)
    (s : Schema) (group : list Table) (v : nat) :
  (forall s, is_Some (SerializeSchema s)) ->
  (forall s b, SerializeSchema s = Some b -> ReadSchema b = Some s) ->
  1 <= hardware -> 1 <= local -> hardware + local - 1 < 2 ^ 31 ->
  Forall (fun f => supported (field_type f)) s ->
  scannable scan local s group ->
  Forall plain_batch (all_batches group) ->
  (v < length group)%nat ->
  (exists res, shuffle_run SerializeSchema ReadSchema scan hardware local group v res)
  /\ forall res,
       shuffle_run SerializeSchema ReadSchema scan hardware local group v res ->
       exists table_out R,
         res = Ok table_out
         /\ table_schema table_out = s
         /\ table_out = build_table s (filter (fun e => num_rows e <> 0) R)
         /\ R ≡ₚ (fun rb => pick_rows rb (routed scan (length group) rb v))
                  <$> all_batches group
         /\ (Forall (fun rb => routed scan (length group) rb v = []) (all_batches group) ->
             table_out = EmptyTableBuilder_Build s).
Proof.
  intros Hser Hread Hhw Hlocal Hfit Hsup Hscan Hplain Hv.
  destruct (group_shuffle SerializeSchema ReadSchema Hser Hread scan hardware local
              Hhw Hlocal Hfit s group Hsup Hscan v Hv) as [Hex Hall].
  split; [exact Hex|]. intros res Hrun.
  destruct (Hall res Hrun) as (R & R0 & HR0 & Hperm & ->).
  assert (R0 = (fun rb => pick_rows rb (routed scan (length group) rb v))
                 <$> all_batches group) as ->.
  { apply Forall2_fmap_eq.
    apply Forall2_same_length_lookup_2; [eapply Forall2_length; exact HR0|].
    intros i rb out Hrb Hout.
    destruct (Forall2_lookup_lr _ _ _ i rb out HR0 Hrb Hout) as [Hsel _].
    pose proof (list_elem_of_lookup_2 _ _ _ Hrb) as Hin.
    pose proof Hin as Hin'. apply elem_of_all_batches in Hin'.
    destruct Hin' as (w & t & Ht & Hrbt).
    destruct (Hscan w t Ht) as [_ Hbatches]. rewrite Forall_forall in Hbatches.
    destruct (Hbatches rb Hrbt) as (ols & Hols & Hconf & _ & Hlen & Hoffs).
    rewrite Forall_forall in Hplain.
    destruct (lookup_lt_is_Some_2 ols v) as [o Ho]; [cbn in Hlen; lia|].
    assert (routed scan (length group) rb v = o) as Hr
      by (unfold routed; rewrite Hols; simpl; rewrite Ho; reflexivity).
    rewrite Hr in *.
    rewrite (select_rows_plain rb o Hconf (Hplain rb Hin) (Forall_lookup_1 _ _ _ _ Hoffs Ho))
      in Hsel.
    injection Hsel as <-. reflexivity. }
  eexists. exists R. split; [reflexivity|]. split; [apply build_table_schema|].
  split; [reflexivity|]. split; [exact Hperm|].
  intros Hempty.
  assert (filter (fun e => num_rows e <> 0) R = []) as ->; [|reflexivity].
  apply elem_of_nil_inv. intros e He. apply list_elem_of_filter in He.
  destruct He as [Hrows He]. rewrite Hperm in He. apply list_elem_of_fmap in He.
  destruct He as (rb & -> & Hrb). rewrite Forall_forall in Hempty.
  rewrite (Hempty rb Hrb) in Hrows. apply Hrows. reflexivity.
Qed.

Lemma sample_vertex_group_plain : Forall plain_batch (all_batches sample_vertex_group).
Proof.
  repeat (apply List.Forall_cons || apply List.Forall_nil);
    (split; [discriminate | split; repeat constructor]).
Qed.

Lemma sample_edge_group_plain : Forall plain_batch (all_batches sample_edge_group).
Proof.
  repeat (apply List.Forall_cons || apply List.Forall_nil);
    (split; [discriminate | split; repeat constructor]).
Qed.

(** X20.  For tables over numeric, string and null columns
    without cleared validity bits, in a group on one schema: both
    [ShufflePropertyVertexTable] and [ShufflePropertyEdgeTable] return, at
    every worker and for every arrival order, a table whose schema is the
    input schema and which is built from exactly the rows that the offset
    lists of the input batches of the group assign to the worker's fragment
    (batch by batch, in some order of the batches); when every such offset
    list is empty the returned table is the empty table of that schema. *)
Theorem shuffled_table_contents {Buffer : Type}
    (SerializeSchema : Schema -> option Buffer) (ReadSchema : Buffer -> option Schema)
    (oid_type : DataType) (GetPartitionId : Oid -> nat)
    (vid_type : PrimType) (GetFid : Z -> nat) (src_col_id dst_col_id : Z)
    (hardware local : Z)
    (vs : Schema) (vgroup : list Table) (v : nat)
    (es : Schema) (egroup : list Table) (u : nat) :
  (forall s, is_Some (SerializeSchema s)) ->
  (forall s b, SerializeSchema s = Some b -> ReadSchema b = Some s) ->
  1 <= hardware -> 1 <= local -> hardware + local - 1 < 2 ^ 31 ->
  Forall (fun f => flat (field_type f)) vs ->
  vertex_group oid_type GetPartitionId vs vgroup ->
  Forall plain_batch (all_batches vgroup) ->
  (v < length vgroup)%nat ->
  Forall (fun f => flat (field_type f)) es ->
  edge_group vid_type GetFid src_col_id dst_col_id es egroup ->
  Forall plain_batch (all_batches egroup) ->
  (u < length egroup)%nat ->
  let vscan := scan_vertex_batch oid_type GetPartitionId in
  let escan := scan_edge_batch vid_type GetFid src_col_id dst_col_id in
  ((exists res, shuffle_run SerializeSchema ReadSchema vscan hardware local vgroup v res)
   /\ forall res,
        shuffle_run SerializeSchema ReadSchema vscan hardware local vgroup v res ->
        exists table_out R,
          res = Ok table_out
          /\ table_schema table_out = vs
          /\ table_out = build_table vs (filter (fun e => num_rows e <> 0) R)
          /\ R ≡ₚ (fun rb => pick_rows rb (routed vscan (length vgroup) rb v))
                   <$> all_batches vgroup
          /\ (Forall (fun rb => routed vscan (length vgroup) rb v = []) (all_batches vgroup) ->
              table_out = EmptyTableBuilder_Build vs))
  /\ ((exists res, shuffle_run SerializeSchema ReadSchema escan hardware local egroup u res)
      /\ forall res,
           shuffle_run SerializeSchema ReadSchema escan hardware local egroup u res ->
           exists table_out R,
             res = Ok table_out
             /\ table_schema table_out = es
             /\ table_out = build_table es (filter (fun e => num_rows e <> 0) R)
             /\ R ≡ₚ (fun rb => pick_rows rb (routed escan (length egroup) rb u))
                      <$> all_batches egroup
             /\ (Forall (fun rb => routed escan (length egroup) rb u = [])
                        (all_batches egroup) ->
                 table_out = EmptyTableBuilder_Build es)).
Proof.
  intros Hser Hread Hhw Hlocal Hfit Hvs Hvg Hvp Hv Hes Heg Hep Hu vscan escan. split.
  - exact (plain_group_shuffle SerializeSchema ReadSchema vscan hardware local vs vgroup v
             Hser Hread Hhw Hlocal Hfit (flat_supported _ Hvs)
             (vertex_group_scannable _ _ local vs vgroup Hvg) Hvp Hv).
  - exact (plain_group_shuffle SerializeSchema ReadSchema escan hardware local es egroup u
             Hser Hread Hhw Hlocal Hfit (flat_supported _ Hes)
             (edge_group_scannable _ _ _ _ local es egroup Heg) Hep Hu).
Qed.

Lemma shuffled_table_contents_witness :
  let vscan := scan_vertex_batch (Prim Int64) sample_partitioner in
  let escan := scan_edge_batch UInt64 sample_id_parser 0 1 in
  ((exists res, shuffle_run (Buffer := Schema) Some Some vscan 8 1 sample_vertex_group 0 res)
   /\ forall res,
        shuffle_run (Buffer := Schema) Some Some vscan 8 1 sample_vertex_group 0 res ->
        exists table_out R,
          res = Ok table_out
          /\ table_schema table_out = vertex_schema
          /\ table_out = build_table vertex_schema (filter (fun e => num_rows e <> 0) R)
          /\ R ≡ₚ (fun rb => pick_rows rb (routed vscan (length sample_vertex_group) rb 0))
                   <$> all_batches sample_vertex_group
          /\ (Forall (fun rb => routed vscan (length sample_vertex_group) rb 0 = [])
                     (all_batches sample_vertex_group) ->
              table_out = EmptyTableBuilder_Build vertex_schema))
  /\ ((exists res, shuffle_run (Buffer := Schema) Some Some escan 8 1 sample_edge_group 1 res)
      /\ forall res,
           shuffle_run (Buffer := Schema) Some Some escan 8 1 sample_edge_group 1 res ->
           exists table_out R,
             res = Ok table_out
             /\ table_schema table_out = schema sample_edge_batch
             /\ table_out = build_table (schema sample_edge_batch)
                              (filter (fun e => num_rows e <> 0) R)
             /\ R ≡ₚ (fun rb => pick_rows rb (routed escan (length sample_edge_group) rb 1))
                      <$> all_batches sample_edge_group
             /\ (Forall (fun rb => routed escan (length sample_edge_group) rb 1 = [])
                        (all_batches sample_edge_group) ->
                 table_out = EmptyTableBuilder_Build (schema sample_edge_batch))).
Proof.
  apply (shuffled_table_contents (Buffer := Schema) Some Some (Prim Int64) sample_partitioner
           UInt64 sample_id_parser 0 1 8 1
           vertex_schema sample_vertex_group 0
           (schema sample_edge_batch) sample_edge_group 1).
  - intros s. exists s. reflexivity.
  - intros s b H. symmetry. exact H.
  - lia.
  - lia.
  - simpl. lia.
  - repeat constructor.
  - exact sample_vertex_group_ok.
  - exact sample_vertex_group_plain.
  - simpl. lia.
  - repeat constructor.
  - exact sample_edge_group_ok.
  - exact sample_edge_group_plain.
  - simpl. lia.
Defined.

(** Outside of what the design assumes of its input: a worker alone in its
    group, all of whose rows are assigned to its own fragment, returns a
    table in which the cleared validity bit of the second row is set. *)
Lemma shuffle_changes_null_slot :
  exists table_out,
    run_alone null_slot_table = Some ([], Ok table_out)
    /\ table_batches table_out
       = [ {| schema := schema null_slot_batch;
              num_rows := 2;
              columns := [ NumericArray Int64 [(true, 10); (true, -3)] ] |} ]
    /\ table_batches table_out <> table_batches null_slot_table.
Proof.
  eexists. split; [vm_compute; reflexivity|]. split; [reflexivity|]. discriminate.
Qed.

(** C9.  The returned table does not hold the rows assigned to the worker.
    A worker alone in its group holds the vertex table of the one row
    [(10, [7, 8, 9])] on the schema [(id : int64, l : large_list<int32>)],
    without cleared validity bits, and the row is assigned to the worker's
    own fragment.  The router returns a table on the schema of the input,
    but its one row is [(10, [])]: the list of the row is lost (the row
    selector appends the elements of a row to the child builder before it
    starts the list slot for them). *)
Theorem shuffle_empties_list :
  conforms keyed_list_batch
  /\ Forall no_nulls (columns keyed_list_batch)
  /\ scan_vertex_batch (Prim Int64) (fun _ => 0%nat) 1 keyed_list_batch = Some [ [0] ]
  /\ exists table_out,
       run_alone keyed_list_table = Some ([], Ok table_out)
       /\ table_schema table_out = table_schema keyed_list_table
       /\ table_batches table_out
          = [ {| schema := schema keyed_list_batch;
                 num_rows := 1;
                 columns := [ NumericArray Int64 [(true, 10)];
                              LargeListArray Int32 [(true, [])] ] |} ]
       /\ table_batches table_out <> table_batches keyed_list_table.
Proof.
  split; [sample_conforms|]. split; [repeat constructor|].
  split; [vm_compute; reflexivity|].
  eexists. split; [vm_compute; reflexivity|]. split; [reflexivity|].
  split; [reflexivity | discriminate].
Qed.

(** Where the platform reports no hardware thread, no scan thread is started,
    the offset lists stay without their per-fragment lists and the engine
    reads outside of them: the run of a table with a batch has no defined
    outcome. *)
Lemma scan_needs_a_thread :
  ShufflePropertyVertexTable (Buffer := Schema) Some Some (Prim Int64) (fun _ => 0%nat)
    (group_spec 1 [null_slot_table] 0) null_slot_table
    (group_env (Buffer := Schema) Some 0 [null_slot_table] []) = None.
Proof. vm_compute. reflexivity. Qed.

(** * Further properties of the code *)

(** ** Strings in archives *)

(** X1.  [operator<<] for a string view appends to the archive, leaving the
    bytes already written as they are, and [operator>>] reads back from what
    was appended the string that was written and leaves the bytes after it
    unread; the string must be shorter than 2^64 bytes, the range of its
    length prefix. *)
Theorem string_view_round_trip (arc val rest : list byte) :
  Z.of_nat (length val) < 2 ^ 64 ->
  put_string_view arc val = arc ++ put_string_view [] val
  /\ get_string_view (put_string_view [] val ++ rest) = Some (val, rest).
Proof.
  intros Hlen. unfold put_string_view, put_pod. split.
  - rewrite app_nil_l, app_assoc. reflexivity.
  - rewrite app_nil_l. unfold get_string_view. rewrite <- app_assoc.
    rewrite get_pod_put; [|unfold in_range; simpl; lia].
    cbn [mbind option_bind]. rewrite Nat2Z.id. apply GetBytes_app.
Qed.

Lemma string_view_round_trip_witness :
  put_string_view [Byte.x01] [Byte.x61; Byte.x62]
  = [Byte.x01] ++ put_string_view [] [Byte.x61; Byte.x62]
  /\ get_string_view (put_string_view [] [Byte.x61; Byte.x62] ++ [Byte.xff])
     = Some ([Byte.x61; Byte.x62], [Byte.xff]).
Proof. apply string_view_round_trip. simpl. lia. Defined.

(** ** Buffers between two peers *)

(** X2.  [SendArrowBuffer] adds its messages behind those already under way,
    and [RecvArrowBuffer] takes from the front exactly the messages one send
    has added and returns the buffer that was sent; for an empty buffer only
    the size travels, and the receiver waits for nothing more. *)
Theorem arrow_buffer_delivery (buffer : list byte) (chan rest : list Message) :
  SendArrowBuffer buffer chan = chan ++ SendArrowBuffer buffer []
  /\ RecvArrowBuffer (SendArrowBuffer buffer [] ++ rest) = Some (buffer, rest)
  /\ (buffer = [] -> SendArrowBuffer buffer [] = [Int64Message 0]).
Proof.
  unfold SendArrowBuffer. destruct buffer as [|b buffer].
  - cbn [length]. rewrite !decide_False by (simpl; lia).
    split; [reflexivity|]. split; [|reflexivity].
    cbn [app RecvArrowBuffer]. rewrite decide_True by (simpl; lia).
    rewrite decide_False by (simpl; lia). reflexivity.
  - rewrite !decide_True by (cbn [length]; lia).
    split; [rewrite app_nil_l, <- app_assoc; reflexivity|].
    split; [|discriminate].
    cbn [app RecvArrowBuffer]. rewrite decide_True by lia.
    rewrite decide_True by (cbn [length]; lia).
    rewrite decide_True by reflexivity. reflexivity.
Qed.

(** ** Schema barrier: the other outcomes *)

(** X3.  When every schema has an IPC form that reads back as the schema, a
    peer of the barrier returns success exactly when every peer of the group
    presents the schema it presents itself. *)
Theorem schema_barrier_success {Buffer : Type}
    (SerializeSchema : Schema -> option Buffer) (ReadSchema : Buffer -> option Schema)
    (group : list Schema) (w : nat) (s : Schema) :
  (forall s, is_Some (SerializeSchema s)) ->
  (forall s b, SerializeSchema s = Some b -> ReadSchema b = Some s) ->
  group !! w = Some s ->
  barrier_result SerializeSchema ReadSchema group w = Some (Ok ())
  <-> Forall (fun s' => s' = s) group.
Proof.
  intros Hser Hread Hw.
  pose proof (lookup_lt_Some _ _ _ Hw) as Hlt.
  split.
  - intros Hres.
    destruct (decide (Forall (fun s' => s' = s) group)) as [Hall|Hnot]; [exact Hall|].
    exfalso. apply not_Forall_Exists in Hnot; [|intros x; apply _].
    apply Exists_exists in Hnot. destruct Hnot as (st & Hst & Hne).
    apply list_elem_of_lookup in Hst. destruct Hst as [t Ht].
    pose proof (barrier_detects _ _ Hser Hread group w t s st Hw Ht Hne) as Hacc.
    unfold barrier_result, SchemaConsistent in Hres.
    unfold barrier_accumulator in Hacc.
    rewrite Hw in *. cbn [mbind option_bind] in *.
    destruct (Hser s) as [b Hb]. rewrite Hb in Hres.
    rewrite (flag_sum_zero _ Hser) in Hres.
    rewrite decide_False in Hres by lia. rewrite Hacc in Hres. discriminate.
  - intros Hall. unfold barrier_result. rewrite Hw. cbn [mbind option_bind].
    apply (barrier_passes _ _ Hser Hread group (peer_spec group w) w s);
      [reflexivity | reflexivity | exact Hlt | exact Hall].
Qed.

Lemma schema_barrier_success_witness :
  barrier_result (Buffer := Schema) Some Some [vertex_schema; vertex_schema] 1 = Some (Ok ())
  <-> Forall (fun s' => s' = vertex_schema) [vertex_schema; vertex_schema].
Proof.
  apply (schema_barrier_success Some Some [vertex_schema; vertex_schema] 1 vertex_schema).
  - intros s. exists s. reflexivity.
  - intros s b H. symmetry. exact H.
  - reflexivity.
Defined.

(** X4.  When the schema of some peer has no IPC form, every peer of the
    group returns the arrow error, whatever the other schemas are: those
    whose own schema serialized learn of the failure from the all-reduced
    flag and leave before the exchange of the buffers. *)
Theorem schema_serialization_failure {Buffer : Type}
    (SerializeSchema : Schema -> option Buffer) (ReadSchema : Buffer -> option Schema)
    (group : list Schema) (p : nat) (sp : Schema) :
  group !! p = Some sp -> SerializeSchema sp = None ->
  forall w s, group !! w = Some s ->
    barrier_result SerializeSchema ReadSchema group w = Some (Error kArrowError)
    /\ forall recv, SchemaConsistent SerializeSchema ReadSchema s (peer_spec group w)
                      (flag_sum SerializeSchema group) recv
                    = Some (Error kArrowError).
Proof.
  intros Hp Hfail w s Hw.
  pose proof (flag_sum_pos SerializeSchema group p sp Hp Hfail) as Hsum.
  assert (forall recv, SchemaConsistent SerializeSchema ReadSchema s (peer_spec group w)
                         (flag_sum SerializeSchema group) recv
                       = Some (Error kArrowError)) as Hany.
  { intros recv. unfold SchemaConsistent.
    destruct (SerializeSchema s); [|reflexivity].
    rewrite decide_True by lia. reflexivity. }
  split; [|exact Hany].
  unfold barrier_result. rewrite Hw. cbn [mbind option_bind]. apply Hany.
Qed.

Lemma schema_serialization_failure_witness :
  barrier_result picky_serializer Some unserializable_group 0 = Some (Error kArrowError)
  /\ forall recv,
       SchemaConsistent picky_serializer Some
         [ {| field_name := "id"; field_type := Prim Int64 |} ]
         (peer_spec unserializable_group 0)
         (flag_sum picky_serializer unserializable_group) recv
       = Some (Error kArrowError).
Proof.
  apply (schema_serialization_failure picky_serializer Some unserializable_group 1 []);
    reflexivity.
Defined.

(** ** Codec and row selector: validity, lists, empty selections *)

Lemma rebuilt_no_nulls (sel : Array) : no_nulls (rebuilt sel).
Proof.
  destruct sel as [p s|s|n|p s|name n].
  - unfold rebuilt. simpl. apply Forall_fmap, Forall_true. reflexivity.
  - unfold rebuilt. simpl. apply Forall_fmap, Forall_true. reflexivity.
  - exact Logic.I.
  - rewrite rebuilt_list. destruct s as [|c rest]; simpl; [constructor|].
    apply Forall_app. split.
    + apply Forall_fmap, Forall_true. intros c'. simpl. split; [reflexivity|].
      apply Forall_fmap, Forall_true. reflexivity.
    + repeat constructor.
  - exact Logic.I.
Qed.

(** X5.  Over the supported column types, neither the row selector nor the
    codec ever yields a null slot: the batch they both return for a
    conforming batch and valid row indices has every validity bit set, in
    its numeric, string and list columns and in the elements of its
    lists. *)
Theorem outputs_have_no_null_slot (rb : RecordBatch) (offset : list Z) :
  conforms rb ->
  Forall (fun f => supported (field_type f)) (schema rb) ->
  valid_offsets rb offset ->
  Z.of_nat (length offset) < 2 ^ 63 ->
  exists out,
    SelectRows rb offset = Some out
    /\ (arc ← SerializeSelectedRows [] rb offset;
        DeserializeSelectedRows arc (schema rb)) = Some ([], out)
    /\ Forall no_nulls (columns out).
Proof.
  intros Hc Hsup Hoff Hlen.
  destruct (batch_paths rb offset Hc Hsup Hoff Hlen) as (sels & _ & Hsel & Hser & Hdes).
  exists (rebuilt_batch (schema rb) sels). split; [exact Hsel|]. split.
  - rewrite Hser. cbn [mbind option_bind]. rewrite app_nil_l.
    specialize (Hdes []). rewrite app_nil_r in Hdes. exact Hdes.
  - cbn [rebuilt_batch columns]. apply Forall_fmap, Forall_true. intros sel.
    apply rebuilt_no_nulls.
Qed.

Lemma outputs_have_no_null_slot_witness :
  exists out,
    SelectRows sample_batch [1; 1; 0] = Some out
    /\ (arc ← SerializeSelectedRows [] sample_batch [1; 1; 0];
        DeserializeSelectedRows arc (schema sample_batch)) = Some ([], out)
    /\ Forall no_nulls (columns out).
Proof.
  apply outputs_have_no_null_slot.
  - sample_conforms.
  - repeat constructor.
  - sample_offsets.
  - simpl. lia.
Defined.

Lemma rebuilt_flat_valid (a : Array) : flat (array_type a) -> rebuilt a = all_valid a.
Proof. destruct a; simpl; intros H; try contradiction; reflexivity. Qed.

Lemma flat_columns_rebuilt (cols sels : list Array) (s : Schema) (offset : list Z) :
  array_type <$> cols = field_type <$> s ->
  Forall (fun f => flat (field_type f)) s ->
  Forall2 (fun a sel => take_rows a offset = Some sel /\ wf_array sel) cols sels ->
  mapM (fun a => take_rows a offset) cols = Some sels
  /\ rebuilt <$> sels = all_valid <$> sels.
Proof.
  intros Hty Hflat Hsels. split.
  - apply mapM_Some. eapply Forall2_impl; [exact Hsels|]. intros a sel [H _]. exact H.
  - revert s Hty Hflat.
    induction Hsels as [|a sel cols sels [Hsel _] _ IH]; intros [|f s] Hty Hflat;
      try discriminate; [reflexivity|].
    simpl in Hty. injection Hty as Ha Hty. inversion Hflat; subst.
    rewrite !fmap_cons. f_equal; [|eapply IH; eassumption].
    apply rebuilt_flat_valid. rewrite (take_rows_type _ _ _ Hsel), Ha. assumption.
Qed.

(** X6.  Over numeric, string and null columns the row selector returns, for
    a conforming batch with at least one column and any valid row indices,
    the rows at those indices in the order of the indices, repeated where an
    index is repeated, with the raw value of every slot and every validity
    bit set; the codec returns the same batch and leaves no byte unread. *)
Theorem select_rows_flat (rb : RecordBatch) (offset : list Z) :
  conforms rb ->
  schema rb <> [] ->
  Forall (fun f => flat (field_type f)) (schema rb) ->
  good_offsets rb offset ->
  exists picked,
    mapM (fun a => take_rows a offset) (columns rb) = Some picked
    /\ SelectRows rb offset
       = Some {| schema := schema rb;
                 num_rows := Z.of_nat (length offset);
                 columns := all_valid <$> picked |}
    /\ (arc ← SerializeSelectedRows [] rb offset;
        DeserializeSelectedRows arc (schema rb))
       = Some ([], {| schema := schema rb;
                      num_rows := Z.of_nat (length offset);
                      columns := all_valid <$> picked |}).
Proof.
  intros Hc Hne Hflat [Hvalid Hcount].
  destruct (batch_paths rb offset Hc (flat_supported _ Hflat) Hvalid Hcount)
    as (sels & Hsels & Hsel & Hser & Hdes).
  pose proof Hc as [Hty _ _ _].
  destruct (flat_columns_rebuilt _ _ _ _ Hty Hflat Hsels) as [Hpicked Hcols].
  assert (rebuilt_batch (schema rb) sels
          = {| schema := schema rb;
               num_rows := Z.of_nat (length offset);
               columns := all_valid <$> sels |}) as Hout.
  { unfold rebuilt_batch.
    pose proof (same_length_rebuilt _ _ _
                  (supported_columns rb Hty (flat_supported _ Hflat)) Hsels) as Hlens.
    rewrite <- Hcols. f_equal.
    destruct (last (rebuilt <$> sels)) as [a|] eqn:Hlast; simpl.
    - apply last_Some in Hlast. destruct Hlast as [l' Hl']. rewrite Hl' in Hlens.
      apply Forall_app in Hlens. destruct Hlens as [_ Ha]. inversion Ha; subst. assumption.
    - apply last_None in Hlast. apply fmap_nil_inv in Hlast. subst sels.
      apply Forall2_nil_inv_r in Hsels. rewrite Hsels in Hty.
      symmetry in Hty. apply fmap_nil_inv in Hty. contradiction. }
  exists sels. split; [exact Hpicked|]. rewrite <- Hout. split; [exact Hsel|].
  rewrite Hser. cbn [mbind option_bind]. rewrite app_nil_l.
  specialize (Hdes []). rewrite app_nil_r in Hdes. exact Hdes.
Qed.

Lemma select_rows_flat_witness :
  exists picked,
    mapM (fun a => take_rows a [1; 1; 0]) (columns null_slot_batch) = Some picked
    /\ SelectRows null_slot_batch [1; 1; 0]
       = Some {| schema := schema null_slot_batch;
                 num_rows := Z.of_nat (length [1; 1; 0]);
                 columns := all_valid <$> picked |}
    /\ (arc ← SerializeSelectedRows [] null_slot_batch [1; 1; 0];
        DeserializeSelectedRows arc (schema null_slot_batch))
       = Some ([], {| schema := schema null_slot_batch;
                      num_rows := Z.of_nat (length [1; 1; 0]);
                      columns := all_valid <$> picked |}).
Proof.
  apply select_rows_flat.
  - sample_conforms.
  - discriminate.
  - repeat constructor.
  - split; [sample_offsets | simpl; lia].
Defined.

(** X7.  A list column does not come back row by row: through the row
    selector, for a conforming batch and valid row indices, the column holds
    in every slot the elements of the row picked next, and no element in its
    last slot (the elements of a row are appended before the slot for them
    is started). *)
Theorem list_column_shift (rb : RecordBatch) (offset : list Z) (k : nat) (p : PrimType)
    (slots : list (Slot (list (Slot Z)))) :
  conforms rb ->
  Forall (fun f => supported (field_type f)) (schema rb) ->
  valid_offsets rb offset ->
  Z.of_nat (length offset) < 2 ^ 63 ->
  columns rb !! k = Some (LargeListArray p slots) ->
  exists out picked,
    SelectRows rb offset = Some out
    /\ mapM (index slots) offset = Some picked
    /\ columns out !! k = Some (LargeListArray p (shifted_lists picked)).
Proof.
  intros Hc Hsup Hoff Hlen Hk.
  destruct (batch_paths rb offset Hc Hsup Hoff Hlen) as (sels & Hsels & Hsel & _).
  destruct (Forall2_lookup_l _ _ _ _ _ Hsels Hk) as (sel & Hsk & Htake & _).
  cbn [take_rows] in Htake. apply fmap_Some in Htake.
  destruct Htake as (picked & Hpicked & ->).
  exists (rebuilt_batch (schema rb) sels), picked.
  split; [exact Hsel|]. split; [exact Hpicked|].
  cbn [rebuilt_batch columns]. rewrite list_lookup_fmap, Hsk. cbn [fmap option_fmap option_map].
  rewrite rebuilt_list. reflexivity.
Qed.

Lemma list_column_shift_witness :
  exists out picked,
    SelectRows sample_batch [0; 1] = Some out
    /\ mapM (index [(true, [(true, 7); (true, 8); (true, 9)]); (true, [(true, 1)])]) [0; 1]
       = Some picked
    /\ columns out !! 1%nat = Some (LargeListArray Int32 (shifted_lists picked)).
Proof.
  apply (list_column_shift sample_batch [0; 1] 1 Int32).
  - sample_conforms.
  - repeat constructor.
  - sample_offsets.
  - simpl. lia.
  - reflexivity.
Defined.

(** X8.  Messages are self-delimiting: a message serialized into an archive
    that already holds another one leaves the first as it is, and the
    deserializer, called twice on the archive with the schema, returns the
    two row selections in the order they were written and leaves no byte. *)
Theorem messages_decode_in_sequence (s : Schema) (rb1 rb2 : RecordBatch)
    (offset1 offset2 : list Z) :
  Forall (fun f => supported (field_type f)) s ->
  conforms rb1 -> schema rb1 = s -> good_offsets rb1 offset1 ->
  conforms rb2 -> schema rb2 = s -> good_offsets rb2 offset2 ->
  exists msg1 msg2 out1 out2,
    SerializeSelectedRows [] rb1 offset1 = Some msg1
    /\ SerializeSelectedRows msg1 rb2 offset2 = Some (msg1 ++ msg2)
    /\ DeserializeSelectedRows (msg1 ++ msg2) s = Some (msg2, out1)
    /\ DeserializeSelectedRows msg2 s = Some ([], out2)
    /\ SelectRows rb1 offset1 = Some out1
    /\ SelectRows rb2 offset2 = Some out2.
Proof.
  intros Hsup Hc1 Hs1 [Hv1 Hn1] Hc2 Hs2 [Hv2 Hn2]. subst s.
  destruct (batch_paths rb1 offset1 Hc1 Hsup Hv1 Hn1) as (sels1 & _ & Hsel1 & Hser1 & Hdes1).
  rewrite <- Hs2 in Hsup.
  destruct (batch_paths rb2 offset2 Hc2 Hsup Hv2 Hn2) as (sels2 & _ & Hsel2 & Hser2 & Hdes2).
  exists (le_split 8 (Z.of_nat (length offset1)) ++ concat (wire_column <$> sels1)),
         (le_split 8 (Z.of_nat (length offset2)) ++ concat (wire_column <$> sels2)),
         (rebuilt_batch (schema rb1) sels1), (rebuilt_batch (schema rb2) sels2).
  split; [rewrite Hser1; reflexivity|].
  split; [rewrite Hser2; reflexivity|].
  split; [rewrite <- app_assoc; apply Hdes1|].
  split; [|split; [exact Hsel1 | exact Hsel2]].
  rewrite <- Hs2. specialize (Hdes2 []). rewrite app_nil_r in Hdes2. exact Hdes2.
Qed.

Lemma messages_decode_in_sequence_witness :
  exists msg1 msg2 out1 out2,
    SerializeSelectedRows [] sample_batch [1] = Some msg1
    /\ SerializeSelectedRows msg1 sample_batch [0; 0] = Some (msg1 ++ msg2)
    /\ DeserializeSelectedRows (msg1 ++ msg2) sample_schema = Some (msg2, out1)
    /\ DeserializeSelectedRows msg2 sample_schema = Some ([], out2)
    /\ SelectRows sample_batch [1] = Some out1
    /\ SelectRows sample_batch [0; 0] = Some out2.
Proof.
  apply messages_decode_in_sequence.
  - repeat constructor.
  - sample_conforms.
  - reflexivity.
  - split; [sample_offsets | simpl; lia].
  - sample_conforms.
  - reflexivity.
  - split; [sample_offsets | simpl; lia].
Defined.

Lemma take_no_row (a sel : Array) :
  take_rows a [] = Some sel ->
  rebuilt sel = Finish (MakeBuilder (array_type a)) /\ wire_column sel = [].
Proof.
  destruct a; cbn; intros H; injection H as <-; split; reflexivity.
Qed.

Lemma fresh_array_length (t : DataType) : array_length (Finish (MakeBuilder t)) = 0.
Proof. destruct t; reflexivity. Qed.

(** X9.  The empty selection.  For a conforming batch over the supported
    types and no row index, the message is the count zero alone, eight zero
    bytes whatever the columns are; the row selector, and the deserializer
    on those eight bytes, return the batch of no rows on the same schema,
    whose columns are those of fresh builders. *)
Theorem empty_selection (rb : RecordBatch) (arc rest : list byte) :
  conforms rb ->
  Forall (fun f => supported (field_type f)) (schema rb) ->
  let empty_batch :=
    {| schema := schema rb;
       num_rows := 0;
       columns := (fun f => Finish (MakeBuilder (field_type f))) <$> schema rb |} in
  SerializeSelectedRows arc rb [] = Some (arc ++ le_split 8 0)
  /\ SelectRows rb [] = Some empty_batch
  /\ DeserializeSelectedRows (le_split 8 0 ++ rest) (schema rb) = Some (rest, empty_batch).
Proof.
  intros Hc Hsup empty_batch.
  assert (valid_offsets rb []) as Hoff by constructor.
  assert (Z.of_nat (length (@nil Z)) < 2 ^ 63) as Hlen by (simpl; lia).
  destruct (batch_paths rb [] Hc Hsup Hoff Hlen) as (sels & Hsels & Hsel & Hser & Hdes).
  pose proof Hc as [Hty _ _ _].
  assert (rebuilt <$> sels = (fun f => Finish (MakeBuilder (field_type f))) <$> schema rb
          /\ concat (wire_column <$> sels) = []) as [Hcols Hwire].
  { revert Hty. generalize (schema rb). clear -Hsels.
    induction Hsels as [|a sel cols sels [Hsel _] _ IH]; intros [|f s] Hty;
      try discriminate; [split; reflexivity|].
    simpl in Hty. injection Hty as Ha Hty.
    destruct (take_no_row _ _ Hsel) as [Hre Hw]. destruct (IH s Hty) as [IHc IHw].
    rewrite !fmap_cons. rewrite Hre, Ha, IHc. cbn [concat]. rewrite Hw, IHw.
    split; reflexivity. }
  assert (rebuilt_batch (schema rb) sels = empty_batch) as Hout.
  { unfold rebuilt_batch, empty_batch. rewrite Hcols. f_equal.
    rewrite fmap_last. destruct (last (schema rb)) as [f|]; simpl; [|reflexivity].
    apply fresh_array_length. }
  rewrite Hwire in Hser, Hdes. rewrite Hout in Hsel, Hdes. cbn [length Z.of_nat] in *.
  split; [|split].
  - rewrite Hser, app_nil_r. reflexivity.
  - exact Hsel.
  - specialize (Hdes rest). rewrite app_nil_l in Hdes. exact Hdes.
Qed.

Lemma empty_selection_witness :
  SerializeSelectedRows [Byte.x01] sample_batch [] = Some ([Byte.x01] ++ le_split 8 0)
  /\ SelectRows sample_batch []
     = Some {| schema := schema sample_batch;
               num_rows := 0;
               columns := (fun f => Finish (MakeBuilder (field_type f)))
                            <$> schema sample_batch |}
  /\ DeserializeSelectedRows (le_split 8 0 ++ [Byte.xff]) (schema sample_batch)
     = Some ([Byte.xff],
             {| schema := schema sample_batch;
                num_rows := 0;
                columns := (fun f => Finish (MakeBuilder (field_type f)))
                             <$> schema sample_batch |}).
Proof.
  apply (empty_selection sample_batch [Byte.x01] [Byte.xff]).
  - sample_conforms.
  - repeat constructor.
Defined.

Lemma for_each_abort_inv {St A} `{!EqDecision A} (I : St -> Prop)
    (body : St -> A -> option St) (l : list A) (s : St) (x : A) :
  x ∈ l -> I s ->
  (forall s0 y s', I s0 -> y <> x -> body s0 y = Some s' -> I s') ->
  (forall s0, I s0 -> body s0 x = None) ->
  for_each body s l = None.
Proof.
  intros Hx Hs Hkeep Hfail. revert s Hs. induction l as [|a l IH]; intros s Hs.
  - apply elem_of_nil in Hx. contradiction.
  - cbn [for_each]. destruct (decide (a = x)) as [->|Hne].
    + rewrite (Hfail s Hs). reflexivity.
    + apply elem_of_cons in Hx. destruct Hx as [->|Hx]; [contradiction|].
      destruct (body s a) as [s'|] eqn:Hb; [|reflexivity].
      cbn [mbind option_bind]. apply IH; [exact Hx|]. eapply Hkeep; eassumption.
Qed.

(** X10.  A type outside the closed set is fatal at every entry point: with
    a field of such a type in the schema the deserializer aborts on every
    archive, and the row selector and the serializer abort on every batch of
    that schema, whatever the row indices, the empty list included. *)
Theorem unsupported_type_is_fatal (s : Schema) (k : nat) (f : Field) :
  s !! k = Some f -> ~ supported (field_type f) ->
  (forall arc, DeserializeSelectedRows arc s = None)
  /\ (forall rb offset,
        schema rb = s -> array_type <$> columns rb = field_type <$> s ->
        SelectRows rb offset = None
        /\ forall arc, SerializeSelectedRows arc rb offset = None).
Proof.
  intros Hk Hunsup. split.
  - intros arc. unfold DeserializeSelectedRows.
    destruct (get_pod Int64 arc) as [[row_num arc']|]; [|reflexivity].
    cbn [mbind option_bind]. unfold RecordBatchBuilder_Make.
    destruct (decide (0 <= row_num)); [|reflexivity].
    cbn [mbind option_bind]. rewrite length_fmap.
    destruct (field_type f) as [| | | |name] eqn:Hft;
      try (exfalso; apply Hunsup; simpl; exact Logic.I).
    rewrite (for_each_abort_inv
               (fun st : list byte * list ArrayBuilder => st.2 !! k = Some (OtherBuilder name))
               _ _ _ k); [reflexivity | | | |].
    + apply elem_of_seq. pose proof (lookup_lt_Some _ _ _ Hk). lia.
    + cbn [snd]. rewrite list_lookup_fmap, Hk. cbn. rewrite Hft. reflexivity.
    + intros [arc0 b0] y [arc1 b1] Hinv Hne Hstep. cbn [snd] in *.
      unfold deserialize_column in Hstep.
      destruct (b0 !! y) as [field|]; [|discriminate]. cbn [mbind option_bind] in Hstep.
      destruct (DeserializeSelectedItems row_num (arc0, field)) as [[arc2 field']|];
        [|discriminate].
      cbn [mbind option_bind] in Hstep. injection Hstep as <- <-.
      rewrite list_lookup_insert_ne by exact Hne. exact Hinv.
    + intros [arc0 b0] Hinv. cbn [snd] in Hinv. unfold deserialize_column.
      rewrite Hinv. reflexivity.
  - intros rb offset Hs Hty. subst s.
    apply unsupported_aborts; [exact Hty|].
    intros Hall. apply Hunsup.
    exact (Forall_lookup_1 _ _ _ _ Hall Hk).
Qed.

Lemma unsupported_type_is_fatal_witness :
  (forall arc, DeserializeSelectedRows arc int8_schema = None)
  /\ (forall rb offset,
        schema rb = int8_schema ->
        array_type <$> columns rb = field_type <$> int8_schema ->
        SelectRows rb offset = None
        /\ forall arc, SerializeSelectedRows arc rb offset = None).
Proof.
  apply (unsupported_type_is_fatal int8_schema 1
           {| field_name := "flag"; field_type := Other "int8" |}).
  - reflexivity.
  - intros H. exact H.
Defined.

(** ** The shuffle in the group: archives and edge rows *)

(** X11.  In a group whose batches can be scanned, every worker puts on its
    outbound queue, for every batch it holds and every other worker, exactly
    one archive, also when no row of the batch goes to that worker, and none
    for itself.  So the archives addressed to a worker are as many as its
    receive thread waits for, the all-reduced number of batches less its
    own. *)
Theorem one_archive_per_remote_batch {Buffer : Type}
    (SerializeSchema : Schema -> option Buffer)
    (scan : nat -> RecordBatch -> option (list (list Z))) (hardware local : Z)
    (s : Schema) (group : list Table) (v : nat) (tv : Table) :
  1 <= hardware -> 1 <= local -> hardware + local - 1 < 2 ^ 31 ->
  Forall (fun f => supported (field_type f)) s ->
  scannable scan local s group ->
  group !! v = Some tv ->
  (forall w tw, group !! w = Some tw ->
     exists queue,
       peer_outbound scan hardware local group w = Some queue
       /\ length (delivered v queue)
          = if decide (v = w) then 0%nat else length (TableToRecordBatches tw))
  /\ exists sent,
       sent_to scan hardware local group v = Some sent
       /\ Z.of_nat (length sent)
          = total_record_batches (group_env SerializeSchema hardware group sent)
            - Z.of_nat (length (TableToRecordBatches tv)).
Proof.
  intros Hhw Hlocal Hfit Hsup Hscan Hv.
  pose proof (lookup_lt_Some _ _ _ Hv) as Hlt.
  split.
  - intros w tw Hw.
    destruct (peer_delivery scan hardware local Hhw Hlocal Hfit s group Hsup Hscan
                w v tw Hw Hlt) as (queue & outs & Hq & Hsel & Hdel).
    exists queue. split; [exact Hq|].
    rewrite (Forall2_length _ _ _ Hdel).
    destruct (decide (v = w)); [reflexivity|].
    symmetry. exact (Forall2_length _ _ _ Hsel).
  - destruct (group_deliveries scan hardware local Hhw Hlocal Hfit s group Hsup Hscan v Hlt)
      as (queues & blocks & Hm & Hlen & Hblocks & Hdel).
    exists (concat (delivered v <$> queues)). split.
    + unfold sent_to. rewrite Hm. reflexivity.
    + destruct (Forall2_lookup_l _ _ _ v tv Hblocks Hv) as (bv & Hbv & Hsel).
      cbn [total_record_batches group_env].
      rewrite (total_batches group).
      rewrite (Forall2_length _ _ _ (Forall2_concat _ _ _ Hdel)).
      pose proof (Permutation_length (concat_without_block blocks v bv Hbv)) as Hl.
      rewrite length_app in Hl.
      assert (length (concat blocks) = length (all_batches group)) as Hall.
      { symmetry. unfold all_batches. eapply Forall2_length. apply Forall2_concat.
        apply Forall2_fmap_l. exact Hblocks. }
      rewrite (Forall2_length _ _ _ Hsel). lia.
Qed.

Lemma one_archive_per_remote_batch_witness :
  (forall w tw, sample_vertex_group !! w = Some tw ->
     exists queue,
       peer_outbound (scan_vertex_batch (Prim Int64) sample_partitioner) 8 1
         sample_vertex_group w = Some queue
       /\ length (delivered 1 queue)
          = if decide (1%nat = w) then 0%nat else length (TableToRecordBatches tw))
  /\ exists sent,
       sent_to (scan_vertex_batch (Prim Int64) sample_partitioner) 8 1
         sample_vertex_group 1 = Some sent
       /\ Z.of_nat (length sent)
          = total_record_batches
              (group_env (Buffer := Schema) Some 8 sample_vertex_group sent)
            - Z.of_nat (length (TableToRecordBatches
                                  {| table_schema := vertex_schema;
                                     table_batches := [vertex_batch_1] |})).
Proof.
  apply (one_archive_per_remote_batch (Buffer := Schema) Some
           (scan_vertex_batch (Prim Int64) sample_partitioner) 8 1 vertex_schema
           sample_vertex_group 1).
  - lia.
  - lia.
  - simpl. lia.
  - repeat constructor.
  - apply vertex_group_scannable. exact sample_vertex_group_ok.
  - reflexivity.
Defined.

(** X12.  In a group of workers holding edge tables on one schema, whose
    endpoint ids the id parser maps to fragments of the group, every worker
    [u] gets a table, whatever the order in which the archives arrive, and
    that table is built from the batches selected, out of every input batch
    of every worker, by the rows one of whose endpoints is in the fragment
    [u], each such row once and in the order of the batch: an edge arrives
    at the worker of its source and at the worker of its destination, and
    once only where the two are the same. *)
Theorem edge_rows_delivered {Buffer : Type}
    (SerializeSchema : Schema -> option Buffer) (ReadSchema : Buffer -> option Schema)
    (vid_type : PrimType) (GetFid : Z -> nat) (src_col_id dst_col_id : Z)
    (hardware local : Z) (s : Schema) (group : list Table) (u : nat) :
  (forall s, is_Some (SerializeSchema s)) ->
  (forall s b, SerializeSchema s = Some b -> ReadSchema b = Some s) ->
  1 <= hardware -> 1 <= local -> hardware + local - 1 < 2 ^ 31 ->
  Forall (fun f => supported (field_type f)) s ->
  edge_group vid_type GetFid src_col_id dst_col_id s group ->
  (u < length group)%nat ->
  let escan := scan_edge_batch vid_type GetFid src_col_id dst_col_id in
  (exists res, shuffle_run SerializeSchema ReadSchema escan hardware local group u res)
  /\ (forall res,
        shuffle_run SerializeSchema ReadSchema escan hardware local group u res ->
        exists R R0,
          Forall2 (fun rb out =>
                     exists src_col dst_col rows,
                       index (columns rb) src_col_id ≫= raw_values vid_type = Some src_col
                       /\ index (columns rb) dst_col_id ≫= raw_values vid_type = Some dst_col
                       /\ SelectRows rb rows = Some out
                       /\ StronglySorted Z.lt rows
                       /\ forall r, r ∈ rows <->
                            0 <= r < num_rows rb
                            /\ exists sf df,
                                 edge_fids GetFid src_col dst_col r = Some (sf, df)
                                 /\ (u = sf \/ u = df))
                  (all_batches group) R0
          /\ R ≡ₚ R0
          /\ res = Ok (build_table s (filter (fun e => num_rows e <> 0) R))).
Proof.
  intros Hser Hread Hhw Hlocal Hfit Hsup Hgroup Hu escan.
  pose proof (group_shuffle SerializeSchema ReadSchema Hser Hread escan hardware local
                Hhw Hlocal Hfit s group Hsup
                (edge_group_scannable _ _ _ _ local s group Hgroup) u Hu) as [Hex Hall].
  split; [exact Hex|].
  intros res Hrun. destruct (Hall res Hrun) as (R & R0 & HR0 & Hperm & Hres).
  exists R, R0. split; [|split; assumption].
  apply Forall2_same_length_lookup_2; [eapply Forall2_length; exact HR0|].
  intros i rb out Hrb Hout.
  destruct (Forall2_lookup_lr _ _ _ i rb out HR0 Hrb Hout) as [Hsel _].
  pose proof (list_elem_of_lookup_2 _ _ _ Hrb) as Hin.
  apply elem_of_all_batches in Hin. destruct Hin as (w & t & Ht & Hrbt).
  destruct (Hgroup w t Ht) as [_ Hbatches]. rewrite Forall_forall in Hbatches.
  destruct (Hbatches rb Hrbt) as (_ & _ & src_col & dst_col & Hroute).
  destruct (scan_edge_batch_closed _ _ _ _ _ _ _ _ Hroute) as (ols & Hscan & _ & Hlook).
  destruct Hroute as (Hsrc & Hdst & _).
  exists src_col, dst_col, (edge_offsets GetFid src_col dst_col (num_rows rb) u).
  split; [exact Hsrc|]. split; [exact Hdst|]. split.
  { unfold routed in Hsel. fold escan in Hscan. rewrite Hscan in Hsel. simpl in Hsel.
    rewrite (Hlook u Hu) in Hsel. exact Hsel. }
  split; [apply filtered_rows_sorted|].
  intros r. unfold edge_offsets. rewrite list_elem_of_filter, elem_of_all_rows.
  unfold edge_routed. split.
  - intros [Hr Hrange]. split; [exact Hrange|].
    destruct (edge_fids GetFid src_col dst_col r) as [[sf df]|]; [|contradiction].
    exists sf, df. split; [reflexivity | exact Hr].
  - intros [Hrange (sf & df & Hf & Hr)]. rewrite Hf. split; [exact Hr | exact Hrange].
Qed.

Lemma edge_rows_delivered_witness :
  let escan := scan_edge_batch UInt64 sample_id_parser 0 1 in
  (exists res, shuffle_run (Buffer := Schema) Some Some escan 8 1 sample_edge_group 1 res)
  /\ (forall res,
        shuffle_run (Buffer := Schema) Some Some escan 8 1 sample_edge_group 1 res ->
        exists R R0,
          Forall2 (fun rb out =>
                     exists src_col dst_col rows,
                       index (columns rb) 0 ≫= raw_values UInt64 = Some src_col
                       /\ index (columns rb) 1 ≫= raw_values UInt64 = Some dst_col
                       /\ SelectRows rb rows = Some out
                       /\ StronglySorted Z.lt rows
                       /\ forall r, r ∈ rows <->
                            0 <= r < num_rows rb
                            /\ exists sf df,
                                 edge_fids sample_id_parser src_col dst_col r = Some (sf, df)
                                 /\ (1%nat = sf \/ 1%nat = df))
                  (all_batches sample_edge_group) R0
          /\ R ≡ₚ R0
          /\ res = Ok (build_table (schema sample_edge_batch)
                         (filter (fun e => num_rows e <> 0) R))).
Proof.
  apply (edge_rows_delivered (Buffer := Schema) Some Some UInt64 sample_id_parser 0 1 8 1
           (schema sample_edge_batch) sample_edge_group 1).
  - intros s. exists s. reflexivity.
  - intros s b H. symmetry. exact H.
  - lia.
  - lia.
  - simpl. lia.
  - repeat constructor.
  - exact sample_edge_group_ok.
  - simpl. lia.
Defined.

(** ** Edge behaviour of the routers and of the row loops *)

(** X13.  Where the thread count of the router comes out as zero (the
    platform reports no hardware thread), no scan thread runs and the offset
    lists of the batches stay without their per-fragment lists; the engine
    then reads the list of the worker's own fragment in an empty vector.  So
    for a table with at least one batch neither router returns a table: the
    call ends in the error of the schema barrier or has no result. *)
Theorem no_table_without_scan_thread {Buffer : Type}
    (SerializeSchema : Schema -> option Buffer) (ReadSchema : Buffer -> option Schema)
    (scan : nat -> RecordBatch -> option (list (list Z)))
    (cs : CommSpec) (table_in : Table) (env : Env Buffer) :
  thread_num (hardware_concurrency env) (local_num cs) = 0 ->
  TableToRecordBatches table_in <> [] ->
  shuffle_table SerializeSchema ReadSchema scan cs table_in env = None
  \/ exists code,
       shuffle_table SerializeSchema ReadSchema scan cs table_in env
       = Some ([], Error code).
Proof.
  intros Hzero Hne. unfold shuffle_table.
  destruct (SchemaConsistent _ _ _ _ _ _) as [[[]|code]|]; cbn [mbind option_bind];
    [|right; exists code; reflexivity|left; reflexivity].
  left. rewrite Hzero. unfold scan_batches.
  rewrite decide_False by lia. rewrite decide_True by reflexivity.
  cbn [mbind option_bind]. unfold ShuffleTableByOffsetLists.
  destruct (outbound _ _ _ _) as [msg_out|]; cbn [mbind option_bind]; [|reflexivity].
  destruct (decide _); [|reflexivity].
  destruct (mapM (fun arc => snd <$> DeserializeSelectedRows arc (table_schema table_in)) _)
    as [decoded|]; cbn [mbind option_bind]; [|reflexivity].
  destruct (TableToRecordBatches table_in) as [|rb rest] eqn:Hbatches; [contradiction|].
  assert (mapM (local_slice cs (rb :: rest) (replicate (length (rb :: rest)) []))
               (seq 0 (length (rb :: rest))) = None) as ->; [|reflexivity].
  cbn [length seq replicate]. cbn [mapM].
  assert (local_slice cs (rb :: rest) ([] :: replicate (length rest) []) 0 = None) as ->.
  { unfold local_slice. cbn [lookup list_lookup mbind option_bind].
    rewrite lookup_nil. reflexivity. }
  reflexivity.
Qed.

Lemma no_table_without_scan_thread_witness :
  shuffle_table (Buffer := Schema) Some Some
    (scan_vertex_batch (Prim Int64) sample_partitioner)
    (group_spec 1 sample_vertex_group 0)
    {| table_schema := vertex_schema; table_batches := [vertex_batch_0] |}
    (group_env (Buffer := Schema) Some 0 sample_vertex_group []) = None
  \/ exists code,
       shuffle_table (Buffer := Schema) Some Some
         (scan_vertex_batch (Prim Int64) sample_partitioner)
         (group_spec 1 sample_vertex_group 0)
         {| table_schema := vertex_schema; table_batches := [vertex_batch_0] |}
         (group_env (Buffer := Schema) Some 0 sample_vertex_group [])
       = Some ([], Error code).
Proof.
  apply no_table_without_scan_thread.
  - reflexivity.
  - discriminate.
Defined.

Lemma push_back_length (ol ol' : list (list Z)) (f : nat) (r : Z) :
  push_back ol f r = Some ol' -> length ol' = length ol.
Proof.
  unfold push_back. destruct (ol !! f); [|discriminate]. cbn [mbind option_bind].
  intros H. injection H as <-. apply length_insert.
Qed.

Lemma push_back_outside (ol : list (list Z)) (f : nat) (r : Z) :
  (length ol <= f)%nat -> push_back ol f r = None.
Proof.
  intros H. unfold push_back. rewrite (lookup_ge_None_2 _ _ H). reflexivity.
Qed.

(** X14.  The routers rely on the partitioner and on the id parser for the
    bounds of the offset lists: when the key of some row of a batch is
    mapped to a fragment that is not below the fragment count, or when an
    endpoint of some edge is, the row index is pushed to a list outside the
    vector of the batch and the scan has no result. *)
Theorem scan_outside_the_fragments (oid_type : DataType) (GetPartitionId : Oid -> nat)
    (vid_type : PrimType) (GetFid : Z -> nat) (src_col_id dst_col_id : Z)
    (fragments : nat) (vb : RecordBatch) (id_col : Array) (r : Z) (f : nat)
    (eb : RecordBatch) (src_col dst_col : list Z) (r' : Z) (sf df : nat) :
  columns vb !! 0%nat = Some id_col ->
  0 <= r < num_rows vb ->
  vertex_fid oid_type GetPartitionId id_col r = Some f ->
  (fragments <= f)%nat ->
  index (columns eb) src_col_id ≫= raw_values vid_type = Some src_col ->
  index (columns eb) dst_col_id ≫= raw_values vid_type = Some dst_col ->
  0 <= r' < num_rows eb ->
  edge_fids GetFid src_col dst_col r' = Some (sf, df) ->
  (fragments <= sf)%nat \/ (fragments <= df)%nat ->
  scan_vertex_batch oid_type GetPartitionId fragments vb = None
  /\ scan_edge_batch vid_type GetFid src_col_id dst_col_id fragments eb = None.
Proof.
  intros Hcol Hr Hf Hout Hsrc Hdst Hr' Hf' Hout'. split.
  - unfold scan_vertex_batch.
    rewrite Hcol. cbn [mbind option_bind].
    apply (for_each_abort_inv (fun ol : list (list Z) => length ol = fragments) _ _ _ r).
    + apply elem_of_all_rows. exact Hr.
    + apply length_replicate.
    + intros ol y ol' Hlen _ Hstep. unfold scan_vertex_row in Hstep.
      destruct (vertex_fid oid_type GetPartitionId id_col y); [|discriminate].
      cbn [mbind option_bind] in Hstep.
      rewrite (push_back_length _ _ _ _ Hstep). exact Hlen.
    + intros ol Hlen. unfold scan_vertex_row. rewrite Hf. cbn [mbind option_bind].
      apply push_back_outside. lia.
  - unfold scan_edge_batch.
    rewrite Hsrc, Hdst. cbn [mbind option_bind].
    apply (for_each_abort_inv (fun ol : list (list Z) => length ol = fragments) _ _ _ r').
    + apply elem_of_all_rows. exact Hr'.
    + apply length_replicate.
    + intros ol y ol' Hlen _ Hstep. unfold scan_edge_row in Hstep.
      destruct (edge_fids GetFid src_col dst_col y) as [[sf' df']|]; [|discriminate].
      cbn [mbind option_bind] in Hstep.
      destruct (push_back ol sf' y) as [ol1|] eqn:H1; [|discriminate].
      cbn [mbind option_bind] in Hstep.
      pose proof (push_back_length _ _ _ _ H1) as Hl1.
      destruct (decide (sf' <> df')).
      * rewrite (push_back_length _ _ _ _ Hstep). lia.
      * injection Hstep as <-. lia.
    + intros ol Hlen. unfold scan_edge_row. rewrite Hf'. cbn [mbind option_bind].
      destruct (push_back ol sf r') as [ol1|] eqn:H1; [|reflexivity].
      cbn [mbind option_bind].
      pose proof (push_back_length _ _ _ _ H1) as Hl1.
      assert (sf < length ol)%nat as Hsf.
      { unfold push_back in H1. destruct (ol !! sf) eqn:Hl; [|discriminate].
        exact (lookup_lt_Some _ _ _ Hl). }
      destruct (decide (sf <> df)).
      * apply push_back_outside. lia.
      * lia.
Qed.

Lemma scan_outside_the_fragments_witness :
  scan_vertex_batch (Prim Int64) sample_partitioner 1 sample_vertex_batch = None
  /\ scan_edge_batch UInt64 sample_id_parser 0 1 1 sample_edge_batch = None.
Proof.
  apply (scan_outside_the_fragments (Prim Int64) sample_partitioner UInt64 sample_id_parser
           0 1 1 sample_vertex_batch (NumericArray Int64 [(true, 1); (true, 2); (true, 3)])
           0 1 sample_edge_batch [1; 4294967301] [4294967298; 4294967303] 0 0 1).
  - reflexivity.
  - simpl. lia.
  - reflexivity.
  - lia.
  - reflexivity.
  - reflexivity.
  - simpl. lia.
  - reflexivity.
  - right. lia.
Defined.

(** X15.  A batch without columns loses its rows: whatever row indices are
    given, the row selector returns the batch of no rows, the message is the
    count alone, and the deserializer returns from it the batch of no rows
    as well (the row count of the result is that of its columns). *)
Theorem columnless_batch_loses_rows (rb : RecordBatch) (offset : list Z) :
  schema rb = [] ->
  let no_rows := {| schema := []; num_rows := 0; columns := [] |} in
  SelectRows rb offset = Some no_rows
  /\ SerializeSelectedRows [] rb offset = Some (le_split 8 (Z.of_nat (length offset)))
  /\ (Z.of_nat (length offset) < 2 ^ 63 ->
      DeserializeSelectedRows (le_split 8 (Z.of_nat (length offset))) [] = Some ([], no_rows)).
Proof.
  intros Hs no_rows. split; [|split].
  - unfold SelectRows, RecordBatchBuilder_Make. rewrite Hs.
    rewrite decide_True by lia. reflexivity.
  - unfold SerializeSelectedRows, num_columns. rewrite Hs. reflexivity.
  - intros Hlen. unfold DeserializeSelectedRows.
    pose proof (get_pod_put Int64 (Z.of_nat (length offset)) []) as Hget.
    rewrite app_nil_r in Hget. cbn [sizeof] in Hget.
    rewrite Hget by (unfold in_range; simpl; lia).
    cbn [mbind option_bind]. unfold RecordBatchBuilder_Make.
    rewrite decide_True by lia. reflexivity.
Qed.

Lemma columnless_batch_loses_rows_witness :
  SelectRows no_column_batch [0; 2] = Some {| schema := []; num_rows := 0; columns := [] |}
  /\ SerializeSelectedRows [] no_column_batch [0; 2]
     = Some (le_split 8 (Z.of_nat (length [0; 2])))
  /\ (Z.of_nat (length [0; 2]) < 2 ^ 63 ->
      DeserializeSelectedRows (le_split 8 (Z.of_nat (length [0; 2]))) []
      = Some ([], {| schema := []; num_rows := 0; columns := [] |})).
Proof. apply (columnless_batch_loses_rows no_column_batch [0; 2]). reflexivity. Defined.

Lemma index_outside {A} (l : list A) (x : Z) :
  ~ (0 <= x < Z.of_nat (length l)) -> index l x = None.
Proof.
  intros H. unfold index. destruct (decide (0 <= x)); [|reflexivity].
  apply lookup_ge_None_2. lia.
Qed.

Lemma items_outside (col : Array) (offset : list Z) (x : Z) :
  supported (array_type col) -> array_type col <> Null ->
  x ∈ offset -> ~ (0 <= x < array_length col) ->
  (forall builder, SelectItems col offset builder = None)
  /\ (forall arc, SerializeSelectedItems arc col offset = None).
Proof.
  intros Hsup Hnull Hx Hout.
  destruct col as [p s|s|n|p s|name n]; cbn in Hsup, Hnull, Hout;
    try contradiction; try congruence.
  - split.
    + intros builder. unfold SelectItems, select_selected_typed_items.
      cbn [array_type raw_values]. rewrite decide_True by reflexivity.
      cbn [mbind option_bind]. apply (for_each_abort _ _ _ x Hx). intros b.
      rewrite index_outside by (rewrite length_fmap; exact Hout). reflexivity.
    + intros arc. unfold SerializeSelectedItems, serialize_selected_typed_items.
      cbn [array_type raw_values]. rewrite decide_True by reflexivity.
      cbn [mbind option_bind]. apply (for_each_abort _ _ _ x Hx). intros a.
      rewrite index_outside by (rewrite length_fmap; exact Hout). reflexivity.
  - split.
    + intros builder. unfold SelectItems, select_string_items. cbn [array_type].
      apply (for_each_abort _ _ _ x Hx). intros b. unfold GetView.
      rewrite index_outside by exact Hout. reflexivity.
    + intros arc. unfold SerializeSelectedItems, serialize_string_items. cbn [array_type].
      apply (for_each_abort _ _ _ x Hx). intros a. unfold GetView.
      rewrite index_outside by exact Hout. reflexivity.
  - split.
    + intros builder. unfold SelectItems, select_list_items. cbn [array_type].
      apply (for_each_abort _ _ _ x Hx). intros b.
      destruct (value_builder b); [|reflexivity]. cbn [mbind option_bind].
      unfold value_slice. rewrite index_outside by exact Hout. reflexivity.
    + intros arc. unfold SerializeSelectedItems, serialize_list_items. cbn [array_type].
      apply (for_each_abort _ _ _ x Hx). intros a. unfold value_length, value_slice.
      rewrite index_outside by exact Hout. reflexivity.
Qed.

(** X16.  The row indices are not checked against the batch.  When the
    offset list holds an index that is not a row of a numeric, string or list
    column of the batch, the row selector and the serializer read outside
    that column and have no result, wherever the index stands in the list
    and whatever the other columns are. *)
Theorem offset_outside_the_batch (rb : RecordBatch) (offset : list Z) (k : nat)
    (col : Array) (x : Z) :
  columns rb !! k = Some col ->
  (k < length (schema rb))%nat ->
  supported (array_type col) -> array_type col <> Null ->
  x ∈ offset -> ~ (0 <= x < array_length col) ->
  SelectRows rb offset = None
  /\ forall arc, SerializeSelectedRows arc rb offset = None.
Proof.
  intros Hcol Hk Hsup Hnull Hx Hout.
  destruct (items_outside col offset x Hsup Hnull Hx Hout) as [Hsel Hser].
  assert (k ∈ seq 0 (length (schema rb))) as Hin by (apply elem_of_seq; lia).
  split.
  - unfold SelectRows, RecordBatchBuilder_Make. rewrite decide_True by lia.
    cbn [mbind option_bind]. rewrite length_fmap.
    rewrite (for_each_abort _ _ _ k Hin); [reflexivity|].
    intros builder. unfold select_column. rewrite Hcol. cbn [mbind option_bind].
    destruct (builder !! k); [|reflexivity]. cbn [mbind option_bind].
    rewrite Hsel. reflexivity.
  - intros arc. unfold SerializeSelectedRows, num_columns.
    apply (for_each_abort _ _ _ k Hin).
    intros arc'. unfold serialize_column. rewrite Hcol. cbn [mbind option_bind].
    apply Hser.
Qed.

Lemma offset_outside_the_batch_witness :
  SelectRows sample_batch [0; 2] = None
  /\ forall arc, SerializeSelectedRows arc sample_batch [0; 2] = None.
Proof.
  apply (offset_outside_the_batch sample_batch [0; 2] 2
           (LargeStringArray [(true, [Byte.x61]); (true, [])]) 2).
  - reflexivity.
  - simpl. lia.
  - exact Logic.I.
  - discriminate.
  - apply elem_of_cons. right. apply elem_of_cons. left. reflexivity.
  - simpl. lia.
Defined.

(** ** Schema barrier: the exchange of the buffers *)

Lemma recv_sent (buffer : list byte) (rest : list Message) :
  RecvArrowBuffer (SendArrowBuffer buffer [] ++ rest) = Some (buffer, rest).
Proof.
  unfold SendArrowBuffer. destruct buffer as [|b buffer].
  - cbn [length]. rewrite decide_False by (simpl; lia).
    cbn [app RecvArrowBuffer]. rewrite decide_True by (simpl; lia).
    rewrite decide_False by (simpl; lia). reflexivity.
  - rewrite decide_True by (cbn [length]; lia).
    cbn [app RecvArrowBuffer]. rewrite decide_True by lia.
    rewrite decide_True by (cbn [length]; lia).
    rewrite decide_True by reflexivity. reflexivity.
Qed.

Lemma rem_add_stride (W w i : Z) :
  0 <= w < W -> 1 <= i < W ->
  Z.rem (w + i) W = if decide (w + i < W) then w + i else w + i - W.
Proof.
  intros Hw Hi. rewrite Z.rem_mod_nonneg by lia. destruct (decide (w + i < W)).
  - apply Z.mod_small. lia.
  - replace (w + i) with (w + i - W + 1 * W) at 1 by lia.
    rewrite Z.mod_add by lia. apply Z.mod_small. lia.
Qed.

Lemma rem_sub_stride (W w i : Z) :
  0 <= w < W -> 1 <= i < W ->
  Z.rem (w + W - i) W = if decide (i <= w) then w - i else w + W - i.
Proof.
  intros Hw Hi. rewrite Z.rem_mod_nonneg by lia. destruct (decide (i <= w)).
  - replace (w + W - i) with (w - i + 1 * W) by lia.
    rewrite Z.mod_add by lia. apply Z.mod_small. lia.
  - apply Z.mod_small. lia.
Qed.

Lemma send_strides (buffer : list byte) (cs : CommSpec) (strides : list Z)
    (net : Z -> Z -> list Message) (a b : Z) :
  NoDup ((fun i => Z.rem (worker_id cs + i) (worker_num cs)) <$> strides) ->
  foldl (fun net i =>
           let dst_worker_id := Z.rem (worker_id cs + i) (worker_num cs) in
           on_channel net (worker_id cs) dst_worker_id
             (SendArrowBuffer buffer (net (worker_id cs) dst_worker_id)))
        net strides a b
  = if decide (a = worker_id cs
               /\ b ∈ (fun i => Z.rem (worker_id cs + i) (worker_num cs)) <$> strides)
    then SendArrowBuffer buffer (net a b) else net a b.
Proof.
  revert net. induction strides as [|i strides IH]; intros net Hnd.
  - cbn [foldl fmap list_fmap]. rewrite decide_False; [reflexivity|].
    intros [_ H]. apply elem_of_nil in H. exact H.
  - rewrite fmap_cons in Hnd. apply NoDup_cons in Hnd. destruct Hnd as [Hni Hnd].
    cbn [foldl]. rewrite (IH _ Hnd). cbv zeta. unfold on_channel.
    rewrite fmap_cons.
    set (d := Z.rem (worker_id cs + i) (worker_num cs)) in *.
    set (rest := (fun i0 => Z.rem (worker_id cs + i0) (worker_num cs)) <$> strides) in *.
    destruct (decide (a = worker_id cs)) as [->|Ha].
    + destruct (decide (b = d)) as [->|Hb].
      * rewrite (decide_False (P := _ /\ d ∈ rest)) by tauto.
        rewrite decide_True by tauto.
        rewrite decide_True by (split; [reflexivity | apply elem_of_cons; tauto]).
        reflexivity.
      * rewrite (decide_False (P := _ /\ b = d)) by tauto.
        destruct (decide (b ∈ rest)) as [Hin|Hnin].
        -- rewrite !decide_True by (split; [reflexivity | try apply elem_of_cons; tauto]).
           reflexivity.
        -- rewrite !decide_False; [reflexivity| |tauto].
           intros [_ H]. apply elem_of_cons in H. tauto.
    + rewrite !decide_False by tauto. reflexivity.
Qed.

Lemma send_thread_spec (buffer : list byte) (cs : CommSpec) (net : Z -> Z -> list Message)
    (a b : Z) :
  0 <= worker_id cs < worker_num cs ->
  send_thread buffer cs net a b
  = if decide (a = worker_id cs /\ 0 <= b < worker_num cs /\ b <> a)
    then SendArrowBuffer buffer (net a b) else net a b.
Proof.
  intros Hw. unfold send_thread. rewrite send_strides.
  - assert (b ∈ (fun i => Z.rem (worker_id cs + i) (worker_num cs))
                  <$> seqZ 1 (worker_num cs - 1)
            <-> 0 <= b < worker_num cs /\ b <> worker_id cs) as Hiff.
    { rewrite list_elem_of_fmap. split.
      - intros (i & -> & Hi). apply elem_of_seqZ in Hi.
        apply remote_fragment; lia.
      - intros [Hb Hne].
        destruct (stride_to (worker_num cs) (worker_id cs) b Hw Hb ltac:(lia))
          as (j & Hj & Hrem & _).
        exists j. split; [symmetry; exact Hrem | apply elem_of_seqZ; lia]. }
    repeat case_decide; try reflexivity; exfalso; intuition (subst; auto).
  - apply NoDup_fmap_2_strong; [|apply NoDup_seqZ].
    intros i j Hi Hj Heq. apply elem_of_seqZ in Hi, Hj.
    rewrite !rem_add_stride in Heq by lia.
    repeat case_decide; lia.
Qed.

Lemma sends_of_workers (SerializeSchema : Schema -> option (list byte))
    (group : list Schema) (ws : list nat) (net0 : Z -> Z -> list Message) (a b : Z) :
  Forall (fun s => is_Some (SerializeSchema s)) group ->
  NoDup ws -> Forall (fun w => (w < length group)%nat) ws ->
  foldl (fun net w =>
           match group !! w ≫= SerializeSchema with
           | Some buffer => send_thread buffer (peer_spec group w) net
           | None => net
           end) net0 ws a b
  = if decide (a ∈ Z.of_nat <$> ws /\ 0 <= b < Z.of_nat (length group) /\ b <> a)
    then SendArrowBuffer (default [] (sent_buffer SerializeSchema group a)) (net0 a b)
    else net0 a b.
Proof.
  intros Hser Hnd Hws. revert net0.
  induction ws as [|w ws IH]; intros net0.
  - cbn [foldl fmap list_fmap]. rewrite decide_False; [reflexivity|].
    intros [H _]. apply elem_of_nil in H. exact H.
  - apply NoDup_cons in Hnd. destruct Hnd as [Hnw Hnd].
    apply Forall_cons in Hws. destruct Hws as [Hw Hws].
    destruct (lookup_lt_is_Some_2 group w Hw) as [s Hs].
    destruct (Forall_lookup_1 _ _ _ _ Hser Hs) as [buffer Hbuf].
    cbn [foldl]. rewrite Hs. cbn [mbind option_bind]. rewrite Hbuf.
    rewrite (IH Hnd Hws). rewrite !send_thread_spec by (cbn; lia).
    cbn [peer_spec worker_id worker_num]. rewrite fmap_cons.
    assert (default [] (sent_buffer SerializeSchema group (Z.of_nat w)) = buffer) as Hown.
    { unfold sent_buffer, index. rewrite decide_True by lia.
      rewrite Nat2Z.id, Hs. cbn [mbind option_bind]. rewrite Hbuf. reflexivity. }
    destruct (decide (a = Z.of_nat w)) as [->|Ha].
    + rewrite (decide_False (P := Z.of_nat w ∈ Z.of_nat <$> ws /\ _)).
      * rewrite Hown.
        destruct (decide (0 <= b < Z.of_nat (length group) /\ b <> Z.of_nat w)) as [Hb|Hb].
        -- rewrite !decide_True by (split; [try apply elem_of_cons; tauto | tauto]).
           reflexivity.
        -- rewrite !decide_False by tauto. reflexivity.
      * intros [Hin _]. apply list_elem_of_fmap in Hin. destruct Hin as (w' & Heq & Hin).
        apply Nat2Z.inj in Heq. subst w'. contradiction.
    + rewrite (decide_False (P := a = Z.of_nat w /\ _)) by tauto.
      destruct (decide (a ∈ Z.of_nat <$> ws /\ 0 <= b < Z.of_nat (length group) /\ b <> a))
        as [Hc|Hc].
      * rewrite decide_True by (split; [apply elem_of_cons; tauto | tauto]). reflexivity.
      * rewrite decide_False; [reflexivity|].
        intros [Hin Hb]. apply elem_of_cons in Hin. tauto.
Qed.

Lemma recv_strides (cs : CommSpec) (buf : Z -> list byte) (strides : list Z)
    (got0 : list (list byte)) (net : Z -> Z -> list Message) :
  let src := fun i => Z.rem (worker_id cs + worker_num cs - i) (worker_num cs) in
  NoDup (src <$> strides) ->
  (forall i, i ∈ strides -> net (src i) (worker_id cs) = SendArrowBuffer (buf (src i)) []) ->
  exists net',
    for_each (fun '(got, net) i =>
                let src_worker_id :=
                  Z.rem (worker_id cs + worker_num cs - i) (worker_num cs) in
                '(got_buffer, chan) ← RecvArrowBuffer (net src_worker_id (worker_id cs));
                Some (got ++ [got_buffer],
                      on_channel net src_worker_id (worker_id cs) chan))
             (got0, net) strides
    = Some (got0 ++ (buf ∘ src <$> strides), net')
    /\ forall a b, net' a b = if decide (b = worker_id cs /\ a ∈ src <$> strides)
                              then [] else net a b.
Proof.
  intros src. revert got0 net.
  induction strides as [|i strides IH]; intros got0 net Hnd Hnet.
  - exists net. cbn [for_each fmap list_fmap]. rewrite app_nil_r. split; [reflexivity|].
    intros a b. rewrite decide_False; [reflexivity|].
    intros [_ H]. apply elem_of_nil in H. exact H.
  - rewrite fmap_cons in Hnd. apply NoDup_cons in Hnd. destruct Hnd as [Hni Hnd].
    match goal with |- context [for_each ?f _ _] => set (body := f) end.
    assert (body (got0, net) i
            = Some (got0 ++ [buf (src i)], on_channel net (src i) (worker_id cs) [])) as Hstep.
    { unfold body. cbv zeta. fold (src i).
      rewrite (Hnet i) by (apply elem_of_cons; tauto).
      rewrite <- (app_nil_r (SendArrowBuffer (buf (src i)) [])).
      rewrite recv_sent. reflexivity. }
    destruct (IH (got0 ++ [buf (src i)]) (on_channel net (src i) (worker_id cs) []) Hnd)
      as (net' & Hrun & Hnet').
    { intros j Hj. unfold on_channel. rewrite decide_False.
      - apply Hnet. apply elem_of_cons. tauto.
      - intros [Heq _]. apply Hni. rewrite <- Heq.
        apply list_elem_of_fmap. exists j. split; [reflexivity | exact Hj]. }
    exists net'. split.
    + cbn [for_each]. rewrite Hstep. cbn [mbind option_bind].
      fold body in Hrun. rewrite Hrun. rewrite fmap_cons, <- app_assoc. reflexivity.
    + intros a b. rewrite Hnet'. unfold on_channel. rewrite fmap_cons.
      destruct (decide (b = worker_id cs)) as [->|Hb].
      * destruct (decide (a ∈ src <$> strides)) as [Hin|Hnin].
        -- rewrite !decide_True by (split; [reflexivity | try apply elem_of_cons; tauto]).
           reflexivity.
        -- rewrite (decide_False (P := _ /\ a ∈ src <$> strides)) by tauto.
           destruct (decide (a = src i)) as [->|Ha].
           ++ rewrite !decide_True by (split; [reflexivity | try apply elem_of_cons; tauto]).
              reflexivity.
           ++ rewrite !decide_False; [reflexivity| |tauto].
              intros [_ H]. apply elem_of_cons in H. tauto.
      * rewrite !decide_False by tauto. reflexivity.
Qed.

(** X17.  The exchange of the schema barrier is matched.  When every schema
    of the group has an IPC form and the send thread of every peer has run,
    the receive thread of a peer gets one buffer at every stride, the buffer
    of the peer at that stride below it (modulo the number of workers), and
    when it is done no message for this peer is left on any channel: every
    peer receives from every other peer exactly the one buffer that peer
    sent to it. *)
Theorem schema_buffers_exchanged (SerializeSchema : Schema -> option (list byte))
    (group : list Schema) (w : nat) :
  Forall (fun s => is_Some (SerializeSchema s)) group ->
  (w < length group)%nat ->
  exists got net',
    recv_thread (peer_spec group w) (all_sent SerializeSchema group) = Some (got, net')
    /\ Forall2 (fun i buffer =>
                  sent_buffer SerializeSchema group
                    (Z.rem (Z.of_nat w + Z.of_nat (length group) - i)
                           (Z.of_nat (length group)))
                  = Some buffer)
               (seqZ 1 (Z.of_nat (length group) - 1)) got
    /\ forall src, net' src (Z.of_nat w) = [].
Proof.
  intros Hser Hw. set (W := Z.of_nat (length group)).
  assert (forall a b,
            all_sent SerializeSchema group a b
            = if decide (0 <= a < W /\ 0 <= b < W /\ b <> a)
              then SendArrowBuffer (default [] (sent_buffer SerializeSchema group a)) []
              else []) as Hsent.
  { intros a b. unfold all_sent.
    rewrite (sends_of_workers _ _ _ _ _ _ Hser (NoDup_seq 0 (length group))).
    - unfold empty_network.
      assert (a ∈ Z.of_nat <$> seq 0 (length group) <-> 0 <= a < W) as Hiff.
      { rewrite list_elem_of_fmap. split.
        - intros (x & -> & Hx). apply elem_of_seq in Hx. lia.
        - intros Ha. exists (Z.to_nat a). split; [lia | apply elem_of_seq; lia]. }
      fold W. repeat case_decide; try reflexivity; exfalso; tauto.
    - apply Forall_forall. intros x Hx. apply elem_of_seq in Hx. lia. }
  pose (src := fun i => Z.rem (Z.of_nat w + W - i) W).
  assert (forall i, 1 <= i < W -> 0 <= src i < W /\ src i <> Z.of_nat w) as Hsrc.
  { intros i Hi. unfold src. rewrite rem_sub_stride by lia. case_decide; lia. }
  destruct (recv_strides (peer_spec group w)
              (fun a => default [] (sent_buffer SerializeSchema group a))
              (seqZ 1 (W - 1)) [] (all_sent SerializeSchema group))
    as (net' & Hrun & Hnet').
  { cbn [peer_spec worker_id worker_num]. fold W.
    apply NoDup_fmap_2_strong; [|apply NoDup_seqZ].
    intros i j Hi Hj Heq. apply elem_of_seqZ in Hi, Hj.
    rewrite !rem_sub_stride in Heq by lia. repeat case_decide; lia. }
  { intros i Hi. apply elem_of_seqZ in Hi. cbn [peer_spec worker_id worker_num]. fold W.
    rewrite Hsent. fold (src i). destruct (Hsrc i ltac:(lia)) as [Hr Hne].
    rewrite decide_True by lia. reflexivity. }
  cbn [peer_spec worker_id worker_num] in Hrun, Hnet'. fold W in Hrun, Hnet'.
  eexists. exists net'. split; [|split].
  - unfold recv_thread. cbn [peer_spec worker_id worker_num]. fold W. exact Hrun.
  - rewrite app_nil_l. apply Forall2_fmap_r. apply Forall_Forall2_diag.
    apply Forall_forall. intros i Hi. apply elem_of_seqZ in Hi.
    destruct (Hsrc i ltac:(lia)) as [Hr _]. cbn [compose]. fold (src i).
    unfold sent_buffer, index. rewrite decide_True by lia.
    destruct (lookup_lt_is_Some_2 group (Z.to_nat (src i)) ltac:(lia)) as [s Hs].
    rewrite Hs. cbn [mbind option_bind].
    destruct (Forall_lookup_1 _ _ _ _ Hser Hs) as [buffer Hbuf]. rewrite Hbuf. reflexivity.
  - intros a. rewrite Hnet', Hsent.
    destruct (decide (0 <= a < W /\ a <> Z.of_nat w)) as [[Ha Hne]|Hout].
    + rewrite decide_True; [reflexivity|]. split; [reflexivity|].
      destruct (stride_of_peer W (Z.of_nat w) a ltac:(lia) Ha Hne) as (i & Hi & Hrem).
      apply list_elem_of_fmap. exists i. split; [symmetry; exact Hrem|].
      apply elem_of_seqZ. lia.
    + case_decide; [reflexivity|]. rewrite decide_False by lia. reflexivity.
Qed.

Lemma schema_buffers_exchanged_witness :
  exists got net',
    recv_thread (peer_spec [vertex_schema; list_schema; sample_schema] 0)
      (all_sent sample_ipc [vertex_schema; list_schema; sample_schema]) = Some (got, net')
    /\ Forall2 (fun i buffer =>
                  sent_buffer sample_ipc [vertex_schema; list_schema; sample_schema]
                    (Z.rem (Z.of_nat 0
                            + Z.of_nat (length [vertex_schema; list_schema; sample_schema]) - i)
                           (Z.of_nat (length [vertex_schema; list_schema; sample_schema])))
                  = Some buffer)
               (seqZ 1 (Z.of_nat (length [vertex_schema; list_schema; sample_schema]) - 1))
               got
    /\ forall src, net' src (Z.of_nat 0) = [].
Proof.
  apply (schema_buffers_exchanged sample_ipc [vertex_schema; list_schema; sample_schema] 0).
  - repeat constructor; eexists; reflexivity.
  - simpl. lia.
Defined.

(** ** Shuffle engine: what is on the outbound queue *)

(** X18.  Every item the engine puts on its outbound queue is addressed to
    a fragment of the group other than the engine's own and holds, for one
    of the input batches, the rows of that batch's offset list for the
    fragment: deserialized with the schema it gives, to the last byte, the
    batch the row selector returns for the same batch and offset list. *)
Theorem outbound_items_decode (s : Schema) (cs : CommSpec) (batches : list RecordBatch)
    (offset_lists : list (list (list Z))) (hw total : Z) (rx : list OutArchive)
    (msg_out : list (nat * InArchive)) (batches_in : list RecordBatch) :
  wf_comm_spec cs ->
  Forall (fun f => supported (field_type f)) s ->
  Forall2 (engine_input s cs) batches offset_lists ->
  ShuffleTableByOffsetLists s batches offset_lists cs hw total rx
  = Some (msg_out, batches_in) ->
  Forall (fun item =>
            (item.1 < fnum cs)%nat /\ item.1 <> fid cs
            /\ exists i rb ols o out,
                 batches !! i = Some rb /\ offset_lists !! i = Some ols
                 /\ ols !! item.1 = Some o
                 /\ SelectRows rb o = Some out
                 /\ DeserializeSelectedRows item.2 s = Some ([], out))
         msg_out.
Proof.
  intros Hcs Hsup Hin Hrun. unfold ShuffleTableByOffsetLists in Hrun.
  destruct (pools_have_a_worker (thread_num hw (local_num cs))) as [HS _].
  destruct (outbound_spec s cs Hcs Hsup _ _ _ HS Hin) as (items & Hout & Hlen & Hitems).
  rewrite Hout in Hrun. cbn [mbind option_bind] in Hrun.
  destruct (decide _); [|discriminate].
  destruct (mapM _ rx); [|discriminate]. cbn [mbind option_bind] in Hrun.
  destruct (mapM _ (seq 0 (length batches))); [|discriminate].
  cbn [mbind option_bind] in Hrun. injection Hrun as <- _.
  apply Forall_concat. apply Forall_lookup. intros i its Hits.
  pose proof (lookup_lt_Some _ _ _ Hits) as Hi. rewrite Hlen in Hi.
  destruct (lookup_lt_is_Some_2 batches i Hi) as [rb Hrb].
  destruct (Forall2_lookup_l _ _ _ i rb Hin Hrb) as (ols & Hols & Hinput).
  destruct (Hitems i rb ols Hrb Hols) as (its' & Hits' & Hser).
  rewrite Hits in Hits'. injection Hits' as <-.
  destruct (serialize_strides s cs Hcs Hsup rb ols (seqZ 1 (worker_num cs - 1)) Hinput)
    as (its' & Hser' & Hall).
  { apply Forall_forall. intros j Hj. apply elem_of_seqZ in Hj. lia. }
  rewrite Hser in Hser'. injection Hser' as <-.
  eapply Forall2_Forall_r; [exact Hall|].
  apply Forall_forall. intros j _ item (_ & Hne & o & out & Ho & _ & Hsel & Hdes).
  destruct Hinput as (_ & _ & Hlols & _).
  split; [rewrite <- Hlols; exact (lookup_lt_Some _ _ _ Ho)|].
  split; [exact Hne|]. exists i, rb, ols, o, out. auto.
Qed.

Lemma outbound_items_decode_witness :
  Forall (fun item =>
            (item.1 < fnum sample_comm_spec)%nat /\ item.1 <> fid sample_comm_spec
            /\ exists i rb ols o out,
                 [vertex_batch_0] !! i = Some rb /\ sample_offset_lists !! i = Some ols
                 /\ ols !! item.1 = Some o
                 /\ SelectRows rb o = Some out
                 /\ DeserializeSelectedRows item.2 vertex_schema = Some ([], out))
         sample_msg_out.
Proof.
  apply (outbound_items_decode vertex_schema sample_comm_spec [vertex_batch_0]
           sample_offset_lists 8 2 sample_rx sample_msg_out sample_batches_in).
  - split; cbn; unfold WorkerToFrag; lia.
  - repeat constructor.
  - apply List.Forall2_cons; [|apply List.Forall2_nil].
    split; [sample_conforms|]. split; [reflexivity|]. split; [reflexivity|].
    repeat (apply List.Forall_cons || apply List.Forall_nil);
      (split; [sample_offsets | simpl; lia]).
  - vm_compute. reflexivity.
Defined.
